(** * ACME client orchestration (vendor/github.com/xenolf/lego/acme/client.go)

    A shallow embedding of the certificate-order engine of [client.go]:
    account registration, order creation, authorization retrieval, the
    challenge-solver coordinator, certificate finalization with its poll
    loop, and renewal.  Everything outside [client.go] (the signing
    transport, the challenge solvers, the cryptographic primitives, the Go
    runtime's scheduling of channels and timers) is an explicit collaborator
    of the model, gathered in the record [Env]. *)

From stdpp Require Import gmap strings list fin_maps.
From Stdlib Require Import ZArith Strings.Byte.

Set Default Proof Using "Type".
Local Open Scope string_scope.
Local Open Scope Z_scope.
Local Open Scope list_scope.

(** ** Constants of [client.go] *)

Definition maxBodySize : nat := (1024 * 1024)%nat.
Definition overallRequestLimit : Z := 18.
Definition statusValid : string := "valid".
Definition statusInvalid : string := "invalid".

(** ** Errors

    A Go [error] produced by a collaborator (transport, solver, crypto) or
    by [errors.New] / [fmt.Errorf].  [RemoteError] is the error type the
    transport returns for a non-2xx answer of the CA. *)
Inductive error :=
| ErrorString (msg : string)
| RemoteError (StatusCode : Z) (Type_ : string) (Detail : string).

(** The error value an operation of the client returns: either one of the
    errors above, or an [ObtainError], the map from a failed domain to its
    error.  [ObtainError] values are only ever built by this file. *)
Inductive opError :=
| Plain (e : error)
| ObtainError (failures : gmap string error).

(** [if len(failures) > 0 { return ..., failures }; return ..., nil] *)
Definition errOf (failures : gmap string error) : option opError :=
  if bool_decide (0 < size failures)%nat then Some (ObtainError failures) else None.

Definition plainErr (err : option error) : option opError := Plain <$> err.

(** ** Wire data *)

(** Modelled from the spec: the message types of the package ([identifier],
    [challenge], [authorization], [orderMessage], [accountMessage],
    [RegistrationResource], [CertificateResource], ...) are declared outside
    [client.go].  Each record below has the fields that [client.go] reads or
    writes, under the names it uses for them; they are the fields that
    section 3 of the specification lists. *)
Record identifier := { id_Type : string; id_Value : string }.

Record challenge := {
  ch_URL : string;
  ch_Type : string;
  ch_Status : string;
  ch_Token : string }.

Record authorization := {
  authz_Status : string;
  authz_Identifier : identifier;
  authz_Challenges : list challenge }.

Record orderMessage := {
  om_Status : string;
  om_Identifiers : list identifier;
  om_Authorizations : list string;
  om_Finalize : string;
  om_Certificate : string }.

Record orderResource := {
  or_URL : string;
  or_Domains : list string;
  or_msg : orderMessage }.

Record accountMessage := {
  am_Status : string;
  am_Contact : list string;
  am_TermsOfServiceAgreed : bool;
  am_OnlyReturnExisting : bool;
  am_ExternalAccountBinding : list byte }.

Record csrMessage := { Csr : string }.

Record RegistrationResource := {
  reg_Body : accountMessage;
  reg_URI : string }.

(** [crypto.PrivateKey] is an interface value: [None] is [nil]. *)
Definition PrivateKey := option (list byte).
Definition KeyType := string.

(** A [[]byte] field whose nil-ness the code tests is an [option]. *)
Record CertificateResource := {
  cr_Domain : string;
  cr_CertURL : string;
  cr_CertStableURL : string;
  cr_PrivateKey : option (list byte);
  cr_Certificate : list byte;
  cr_IssuerCertificate : list byte;
  cr_CSR : list byte }.

(** The fields of [x509.Certificate] and [x509.CertificateRequest] used. *)
Record Certificate := {
  x_IsCA : bool;
  x_CommonName : string;
  x_DNSNames : list string;
  x_Raw : list byte }.

Record CertificateRequest := {
  csr_CommonName : string;
  csr_DNSNames : list string;
  csr_Raw : list byte }.

Record domainError := { de_Domain : string; de_Error : error }.

(** Zero values. *)
Definition zeroOrderMessage : orderMessage :=
  {| om_Status := ""; om_Identifiers := []; om_Authorizations := [];
     om_Finalize := ""; om_Certificate := "" |}.
Definition zeroOrderResource : orderResource :=
  {| or_URL := ""; or_Domains := []; or_msg := zeroOrderMessage |}.
Definition zeroAccountMessage : accountMessage :=
  {| am_Status := ""; am_Contact := []; am_TermsOfServiceAgreed := false;
     am_OnlyReturnExisting := false; am_ExternalAccountBinding := [] |}.

(** [http.Header] is a [map[string][]string]; [Get] returns the first value
    of the key or the empty string, also on a nil header. *)
Definition Header := gmap string (list string).

Definition Header_Get (h : Header) (key : string) : string :=
  match h !! key with
  | Some (v :: _) => v
  | _ => ""
  end.

Definition Header_values (h : Header) (key : string) : list string :=
  default [] (h !! key).

Record httpResponse := {
  resp_Header : Header;
  resp_Body : list byte;
  resp_ReadErr : option error }.

(** [ioutil.ReadAll(limitReader(resp.Body, maxBodySize))] *)
Definition readAllLimited (resp : httpResponse) : list byte * option error :=
  (take maxBodySize (resp_Body resp), resp_ReadErr resp).

(** ** The signing transport's shared state, and the directory *)

Record jws := {
  jws_privKey : PrivateKey;
  jws_getNonceURL : string;
  jws_kid : string }.

Record directory := {
  NewNonceURL : string;
  NewAccountURL : string;
  NewOrderURL : string;
  RevokeCertURL : string }.

Record User := {
  GetEmail : string;
  GetRegistration : option RegistrationResource;
  GetPrivateKey : PrivateKey }.

(** ** Observable events

    The model records every request sent to the CA, every call of a solver
    method and every CSR generation, in program order. *)
Inductive payload :=
| PAccount (m : accountMessage)
| POrder (m : orderMessage)
| PCsr (m : csrMessage).

Inductive event :=
| EvPostJSON (url : string) (body : payload)
| EvPostAsGet (url : string)
| EvPreSolve (ch : challenge) (domain : string)
| EvSolve (ch : challenge) (domain : string)
| EvCleanUp (ch : challenge) (domain : string)
| EvGenerateCsr (commonName : string) (san : list string) (mustStaple : bool).

(** What a [select] over [stopTimer.C] and [retryTick.C] receives. *)
Inductive selectEvent := StopTimer | RetryTick.

(** What the collecting loop of [getAuthzForOrder] receives on [resc] or
    [errc]. *)
Inductive completion :=
| Resc (res : authorization)
| Errc (err : domainError).

Section Engine.

(** The state of everything outside the client: the CA, the network, the
    solvers' provisioned material, the random source. *)
Context {W : Type}.

(** A challenge solver: [Solve] is mandatory, [PreSolve] and [CleanUp] are
    the optional capabilities tested with a type assertion. *)
Record solver := {
  Solve : challenge -> string -> W -> W * option error;
  PreSolve : option (challenge -> string -> W -> W * option error);
  CleanUp : option (challenge -> string -> W -> W * option error) }.

Record Client := {
  c_directory : directory;
  c_user : option User;
  c_keyType : KeyType;
  c_solvers : gmap string solver }.

(** The collaborators.  A transport operation returns, as in Go, both its
    value and its error; the decoded body is the value left in the target
    variable after the call. *)
Record Env := {
  postJSON_account : jws -> string -> accountMessage -> W ->
                     W * (Header * accountMessage * option error);
  postJSON_order : jws -> string -> orderMessage -> W ->
                   W * (Header * orderMessage * option error);
  postJSON_csr : jws -> string -> csrMessage -> W ->
                 W * (Header * orderMessage * option error);
  postAsGet_authz : jws -> string -> W -> W * (authorization * option error);
  (* decodes into an existing [orderMessage], hence the old value *)
  postAsGet_order : jws -> string -> orderMessage -> W ->
                    W * (orderMessage * option error);
  postAsGet_raw : jws -> string -> W -> W * (httpResponse * option error);
  (* the order in which the fetch goroutines deliver their completions *)
  arrival : list completion -> list completion;
  (* the receptions of the finalize poll's [select], in order *)
  clock : W -> list selectEvent;
  (* [parseLinks]; [None] when it indexes [parts[1]] out of range *)
  parseLinks : list string -> option (gmap string string);
  x509_ParseCertificate : list byte -> option error;
  pemEncodeDerCertificate : list byte -> list byte;
  (* the [rest] result of [pem.Decode]; [None] is a nil slice *)
  pem_Decode_rest : list byte -> option (list byte);
  base64RawURL : list byte -> string;
  generatePrivateKey : KeyType -> W -> W * (PrivateKey * option error);
  generateCsr : PrivateKey -> string -> list string -> bool -> W ->
                W * (list byte * option error);
  pemEncodeKey : PrivateKey -> list byte;
  pemEncodeCSR : CertificateRequest -> list byte;
  parsePEMBundle : list byte -> list Certificate * option error;
  pemDecodeTox509CSR : list byte -> CertificateRequest * option error;
  parsePEMPrivateKey : list byte -> PrivateKey * option error }.

Context (E : Env).

(** ** The state monad of the model

    [world] is the collaborators' state, [st_jws] the signing transport
    shared by the client and its requests (its [kid] is assigned by
    [Register]), [trace] the events so far.  A computation yields [None]
    where the Go program has no result: a run-time panic (an index out of
    range), or a [clock] that ends before any [select] case can return. *)
Record St := { world : W; st_jws : jws; trace : list event }.

Definition M (A : Type) : Type := St -> option (St * A).

Definition ret {A} (a : A) : M A := fun s => Some (s, a).

Definition bind {A B} (m : M A) (f : A -> M B) : M B :=
  fun s => match m s with
           | Some (s', a) => f a s'
           | None => None
           end.

Definition panic {A} : M A := fun _ => None.

Definition emit (e : event) : M unit :=
  fun s => Some ({| world := world s; st_jws := st_jws s;
                    trace := trace s ++ [e] |}, tt).

(** Run a collaborator on the world, giving it the current transport. *)
Definition call {A} (f : jws -> W -> W * A) : M A :=
  fun s => let '(w, a) := f (st_jws s) (world s) in
           Some ({| world := w; st_jws := st_jws s; trace := trace s |}, a).

Definition set_kid (uri : string) : M unit :=
  fun s => Some ({| world := world s;
                    st_jws := {| jws_privKey := jws_privKey (st_jws s);
                                 jws_getNonceURL := jws_getNonceURL (st_jws s);
                                 jws_kid := uri |};
                    trace := trace s |}, tt).

(** [l[i]]: panics when out of range. *)
Definition index {A} (l : list A) (i : nat) : M A :=
  match l !! i with
  | Some x => ret x
  | None => panic
  end.

#[local] Instance M_ret : MRet M := @ret.
#[local] Instance M_bind : MBind M := fun A B f m => bind m f.

(** A sequential [for _, x := range l] loop threading the variables [b]. *)
Fixpoint foldM {A B} (f : B -> A -> M B) (l : list A) (b : B) : M B :=
  match l with
  | [] => ret b
  | x :: l' => b' ← f b x; foldM f l' b'
  end.

Fixpoint mapM {A B} (f : A -> M B) (l : list A) : M (list B) :=
  match l with
  | [] => ret []
  | x :: l' => y ← f x; ys ← mapM f l'; ret (y :: ys)
  end.

(** ** Requests: each one is recorded, then handed to the transport *)

Definition do_postJSON_account (url : string) (req : accountMessage)
  : M (Header * accountMessage * option error) :=
  _ ← emit (EvPostJSON url (PAccount req));
  call (fun j => postJSON_account E j url req).

Definition do_postJSON_order (url : string) (req : orderMessage)
  : M (Header * orderMessage * option error) :=
  _ ← emit (EvPostJSON url (POrder req));
  call (fun j => postJSON_order E j url req).

Definition do_postJSON_csr (url : string) (req : csrMessage)
  : M (Header * orderMessage * option error) :=
  _ ← emit (EvPostJSON url (PCsr req));
  call (fun j => postJSON_csr E j url req).

Definition do_postAsGet_authz (url : string) : M (authorization * option error) :=
  _ ← emit (EvPostAsGet url);
  call (fun j => postAsGet_authz E j url).

Definition do_postAsGet_order (url : string) (old : orderMessage)
  : M (orderMessage * option error) :=
  _ ← emit (EvPostAsGet url);
  call (fun j => postAsGet_order E j url old).

Definition do_postAsGet_raw (url : string) : M (httpResponse * option error) :=
  _ ← emit (EvPostAsGet url);
  call (fun j => postAsGet_raw E j url).

(** A solver method call, recorded with the arguments it receives. *)
Definition callSolver (ev : challenge -> string -> event)
    (method : challenge -> string -> W -> W * option error)
    (ch : challenge) (domain : string) : M (option error) :=
  _ ← emit (ev ch domain);
  call (fun _ => method ch domain).

(** ** [Register] (client.go 178-209)

    [err.(RemoteError)] with [StatusCode == 409] is the only error that
    does not return. *)
Definition isConflict (err : error) : bool :=
  match err with
  | RemoteError StatusCode _ _ => StatusCode =? 409
  | _ => false
  end.

(** The [accMsg] that [Register] builds. *)
Definition registrationMessage (user : User) (tosAgreed : bool) : accountMessage :=
  {| am_Status := "";
     am_Contact := if String.eqb (GetEmail user) "" then []
                   else ["mailto:" +:+ GetEmail user];
     am_TermsOfServiceAgreed := tosAgreed;
     am_OnlyReturnExisting := false;
     am_ExternalAccountBinding := [] |}.

Definition Register (c : option Client) (tosAgreed : bool)
  : M (option RegistrationResource * option opError) :=
  let nilErr := ErrorString "acme: cannot register a nil client or user" in
  match c with
  | None => ret (None, Some (Plain nilErr))
  | Some c =>
  match c_user c with
  | None => ret (None, Some (Plain nilErr))
  | Some user =>
      let accMsg := registrationMessage user tosAgreed in
      '(hdr, serverReg, err) ←
        do_postJSON_account (NewAccountURL (c_directory c)) accMsg;
      let adopt :=
        let reg := {| reg_URI := Header_Get hdr "Location"; reg_Body := serverReg |} in
        _ ← set_kid (reg_URI reg);
        ret (Some reg, None) in
      match err with
      | Some e => if isConflict e then adopt else ret (None, Some (Plain e))
      | None => adopt
      end
  end
  end.

(** ** [createOrderForIdentifiers] (client.go 542-564) *)
Definition createOrderForIdentifiers (c : Client) (domains : list string)
  : M (orderResource * option opError) :=
  let identifiers :=
    fold_left (fun identifiers domain =>
                 identifiers ++ [{| id_Type := "dns"; id_Value := domain |}])
              domains [] in
  let order :=
    {| om_Status := ""; om_Identifiers := identifiers; om_Authorizations := [];
       om_Finalize := ""; om_Certificate := "" |} in
  '(hdr, response, err) ← do_postJSON_order (NewOrderURL (c_directory c)) order;
  match err with
  | Some e => ret (zeroOrderResource, Some (Plain e))
  | None =>
      ret ({| or_URL := Header_Get hdr "Location";
              or_Domains := domains;
              or_msg := response |}, None)
  end.

(** ** The challenge-solver coordinator (client.go 566-655) *)

Record selectedAuthSolver := {
  sas_authz : authorization;
  sas_challengeIndex : nat;
  sas_solver : solver }.

(** [chooseSolver]: the first challenge, in server order, whose type has a
    registered solver; [(0, nil)] when there is none. *)
Fixpoint chooseSolverFrom (solvers : gmap string solver) (i : nat)
    (challenges : list challenge) : nat * option solver :=
  match challenges with
  | [] => (0%nat, None)
  | challenge :: rest =>
      match solvers !! ch_Type challenge with
      | Some solvr => (i, Some solvr)
      | None => chooseSolverFrom solvers (S i) rest
      end
  end.

Definition chooseSolver (c : Client) (auth : authorization) (domain : string)
  : nat * option solver :=
  chooseSolverFrom (c_solvers c) 0 (authz_Challenges auth).

Definition domainOf (authz : authorization) : string :=
  id_Value (authz_Identifier authz).

(** First pass: select a solver for each authorization that is not valid. *)
Definition selectStep (c : Client)
    (acc : list selectedAuthSolver * gmap string error) (authz : authorization)
  : list selectedAuthSolver * gmap string error :=
  let '(authSolvers, failures) := acc in
  if String.eqb (authz_Status authz) statusValid then acc
  else match chooseSolver c authz (domainOf authz) with
       | (i, Some solvr) =>
           (authSolvers ++ [{| sas_authz := authz; sas_challengeIndex := i;
                               sas_solver := solvr |}], failures)
       | (_, None) =>
           (authSolvers,
            <[domainOf authz :=
                ErrorString ("[" +:+ domainOf authz +:+
                             "] acme: Could not determine solvers")]> failures)
       end.

(** Second pass: [PreSolve] where the solver has that capability. *)
Definition preSolveStep (failures : gmap string error) (item : selectedAuthSolver)
  : M (gmap string error) :=
  let authz := sas_authz item in
  let i := sas_challengeIndex item in
  match PreSolve (sas_solver item) with
  | Some presolve =>
      ch ← index (authz_Challenges authz) i;
      err ← callSolver EvPreSolve presolve ch (domainOf authz);
      match err with
      | Some e => ret (<[domainOf authz := e]> failures)
      | None => ret failures
      end
  | None => ret failures
  end.

(** Third pass: [Solve], unless the domain already has a failure. *)
Definition solveStep (failures : gmap string error) (item : selectedAuthSolver)
  : M (gmap string error) :=
  let authz := sas_authz item in
  let i := sas_challengeIndex item in
  match failures !! domainOf authz with
  | Some _ => ret failures
  | None =>
      ch ← index (authz_Challenges authz) i;
      err ← callSolver EvSolve (Solve (sas_solver item)) ch (domainOf authz);
      match err with
      | Some e => ret (<[domainOf authz := e]> failures)
      | None => ret failures
      end
  end.

(** The deferred function: it runs when [solveChallengeForAuthz] returns and
    reads the map [failures] as the solve pass left it. *)
Definition cleanUpStep (failures : gmap string error) (_ : unit)
    (item : selectedAuthSolver) : M unit :=
  match CleanUp (sas_solver item) with
  | Some clean =>
      match failures !! domainOf (sas_authz item) with
      | Some _ => ret tt
      | None =>
          ch ← index (authz_Challenges (sas_authz item)) (sas_challengeIndex item);
          _ ← callSolver EvCleanUp clean ch (domainOf (sas_authz item));
          ret tt
      end
  | None => ret tt
  end.

Definition solveChallengeForAuthz (c : Client) (authorizations : list authorization)
  : M (option opError) :=
  let '(authSolvers, failures) := fold_left (selectStep c) authorizations ([], ∅) in
  failures ← foldM preSolveStep authSolvers failures;
  failures ← foldM solveStep authSolvers failures;
  _ ← foldM (cleanUpStep failures) authSolvers tt;
  ret (errOf failures).

(** ** [logAuthz] (client.go 702-706)

    The loop reads [order.Identifiers[i]] for every index [i] of
    [order.Authorizations]; writing the log line is not recorded. *)
Fixpoint logAuthzFrom (identifiers : list identifier) (i : nat)
    (authorizations : list string) : M unit :=
  match authorizations with
  | [] => ret tt
  | _ :: rest =>
      _ ← index identifiers i;
      logAuthzFrom identifiers (S i) rest
  end.

Definition logAuthz (order : orderResource) : M unit :=
  logAuthzFrom (om_Identifiers (or_msg order)) 0 (om_Authorizations (or_msg order)).

(** ** [getAuthzForOrder] (client.go 657-700)

    One goroutine per authorization URL performs the request and sends
    either the authorization on [resc] or a [domainError] on [errc]; the
    requests are taken in launch order, and the collecting loop receives the
    completions in the order [arrival] gives.  [logAuthz] is called when
    the collection is over. *)
Definition fetchAuthz (authzURL : string) : M completion :=
  '(authz, err) ← do_postAsGet_authz authzURL;
  match err with
  | Some e => ret (Errc {| de_Domain := domainOf authz; de_Error := e |})
  | None => ret (Resc authz)
  end.

Definition collectStep (acc : list authorization * gmap string error)
    (m : completion) : list authorization * gmap string error :=
  let '(responses, failures) := acc in
  match m with
  | Resc res => (responses ++ [res], failures)
  | Errc err => (responses, <[de_Domain err := de_Error err]> failures)
  end.

Definition getAuthzForOrder (c : Client) (order : orderResource)
  : M (list authorization * option opError) :=
  completions ← mapM fetchAuthz (om_Authorizations (or_msg order));
  let '(responses, failures) :=
    fold_left collectStep (arrival E completions) ([], ∅) in
  _ ← logAuthz order;
  ret (responses, errOf failures).

(** ** The finalizer (client.go 750-891) *)

(** [getIssuerCertificate] *)
Definition getIssuerCertificate (url : string) : M (list byte * option error) :=
  '(resp, err) ← do_postAsGet_raw url;
  match err with
  | Some e => ret ([], Some e)
  | None =>
      let '(issuerBytes, err) := readAllLimited resp in
      match err with
      | Some e => ret ([], Some e)
      | None =>
          match x509_ParseCertificate E issuerBytes with
          | Some e => ret ([], Some e)
          | None => ret (issuerBytes, None)
          end
      end
  end.

(** [checkCertResponse]: [certRes] is passed by pointer, so the resource as
    the call leaves it is returned with the two results. *)
Definition checkCertResponse (order : orderMessage) (certRes : CertificateResource)
    (bundle : bool) : M (bool * option error * CertificateResource) :=
  if String.eqb (om_Status order) statusValid then
    '(resp, err) ← do_postAsGet_raw (om_Certificate order);
    match err with
    | Some e => ret (false, Some e, certRes)
    | None =>
    let '(cert, err) := readAllLimited resp in
    match err with
    | Some e => ret (false, Some e, certRes)
    | None =>
    match parseLinks E (Header_values (resp_Header resp) "Link") with
    | None => panic
    | Some links =>
      '(cert, issuer) ←
        match links !! "up" with
        | Some link =>
            '(issuerCert, err) ← getIssuerCertificate link;
            match err with
            | Some _ => ret (cert, cr_IssuerCertificate certRes)
            | None =>
                let issuerCert := pemEncodeDerCertificate E issuerCert in
                ret (if bundle then cert ++ issuerCert else cert, issuerCert)
            end
        | None =>
            match pem_Decode_rest E cert with
            | Some rest => ret (cert, rest)
            | None => ret (cert, cr_IssuerCertificate certRes)
            end
        end;
      ret (true, None,
           {| cr_Domain := cr_Domain certRes;
              cr_CertURL := om_Certificate order;
              cr_CertStableURL := om_Certificate order;
              cr_PrivateKey := cr_PrivateKey certRes;
              cr_Certificate := cert;
              cr_IssuerCertificate := issuer;
              cr_CSR := cr_CSR certRes |})
    end
    end
    end
  else if String.eqb (om_Status order) "processing" then ret (false, None, certRes)
  else if String.eqb (om_Status order) statusInvalid then
    ret (false, Some (ErrorString "order has invalid state: invalid"), certRes)
  else ret (false, None, certRes).

(** The [for { select { ... } }] loop of [requestCertificateForCsr], over
    the receptions of the [select]. *)
Fixpoint pollLoop (order : orderResource) (retOrder : orderMessage)
    (certRes : CertificateResource) (bundle : bool) (ticks : list selectEvent)
  : M (option CertificateResource * option error) :=
  match ticks with
  | [] => panic
  | StopTimer :: _ =>
      ret (None, Some (ErrorString "certificate polling timed out"))
  | RetryTick :: ticks' =>
      '(retOrder, err) ← do_postAsGet_order (or_URL order) retOrder;
      match err with
      | Some e => ret (None, Some e)
      | None =>
          '(done, err, certRes) ← checkCertResponse retOrder certRes bundle;
          match err with
          | Some e => ret (None, Some e)
          | None =>
              if done : bool then ret (Some certRes, None)
              else pollLoop order retOrder certRes bundle ticks'
          end
      end
  end.

Definition requestCertificateForCsr (c : Client) (order : orderResource)
    (bundle : bool) (csr : list byte) (privateKeyPem : option (list byte))
  : M (option CertificateResource * option error) :=
  commonName ← index (or_Domains order) 0;
  let csrString := base64RawURL E csr in
  '(_, retOrder, err) ←
    do_postJSON_csr (om_Finalize (or_msg order)) {| Csr := csrString |};
  match err with
  | Some e => ret (None, Some e)
  | None =>
  if String.eqb (om_Status retOrder) statusInvalid then
    (* [return nil, err] *)
    ret (None, err)
  else
    let certRes :=
      {| cr_Domain := commonName;
         cr_CertURL := om_Certificate retOrder;
         cr_CertStableURL := "";
         cr_PrivateKey := privateKeyPem;
         cr_Certificate := [];
         cr_IssuerCertificate := [];
         cr_CSR := [] |} in
    let poll (certRes : CertificateResource) :=
      ticks ← (fun s => Some (s, clock E (world s)));
      pollLoop order retOrder certRes bundle ticks in
    if String.eqb (om_Status retOrder) statusValid then
      '(ok, err, certRes) ← checkCertResponse retOrder certRes bundle;
      match err with
      | Some e => ret (None, Some e)
      | None => if ok : bool then ret (Some certRes, None) else poll certRes
      end
    else poll certRes
  end.

(** [requestCertificateForOrder] (client.go 715-748) *)
Definition requestCertificateForOrder (c : Client) (order : orderResource)
    (bundle : bool) (privKey : PrivateKey) (mustStaple : bool)
  : M (option CertificateResource * option error) :=
  '(privKey, err) ←
    match privKey with
    | None => call (fun _ => generatePrivateKey E (c_keyType c))
    | Some _ => ret (privKey, None)
    end;
  match err with
  | Some e => ret (None, Some e)
  | None =>
      commonName ← index (or_Domains order) 0;
      let san :=
        fold_left (fun san auth =>
                     if negb (String.eqb (id_Value auth) commonName)
                     then san ++ [id_Value auth] else san)
                  (om_Identifiers (or_msg order)) [commonName] in
      _ ← emit (EvGenerateCsr commonName san mustStaple);
      '(csr, err) ← call (fun _ => generateCsr E privKey commonName san mustStaple);
      match err with
      | Some e => ret (None, Some e)
      | None => requestCertificateForCsr c order bundle csr (Some (pemEncodeKey E privKey))
      end
  end.

(** ** [ObtainCertificate] (client.go 413-459) *)
Definition ObtainCertificate (c : Client) (domains : list string) (bundle : bool)
    (privKey : PrivateKey) (mustStaple : bool)
  : M (option CertificateResource * option opError) :=
  if bool_decide (length domains = 0%nat) then
    ret (None, Some (Plain (ErrorString "no domains to obtain a certificate for")))
  else
    '(order, err) ← createOrderForIdentifiers c domains;
    match err with
    | Some e => ret (None, Some e)
    | None =>
    '(authz, err) ← getAuthzForOrder c order;
    match err with
    | Some e => ret (None, Some e)
    | None =>
    err ← solveChallengeForAuthz c authz;
    match err with
    | Some e => ret (None, Some e)
    | None =>
    '(cert, err) ← requestCertificateForOrder c order bundle privKey mustStaple;
    let failures :=
      match err with
      | Some e => fold_left (fun failures auth => <[domainOf auth := e]> failures)
                            authz ∅
      | None => ∅
      end in
    ret (cert, errOf failures)
    end
    end
    end.

(** ** [ObtainCertificateForCSR] (client.go 337-402) *)
Definition csrDomains (csr : CertificateRequest) : list string :=
  fold_left (fun domains sanName =>
               if existsb (fun existingName => String.eqb existingName sanName) domains
               then domains else domains ++ [sanName])
            (csr_DNSNames csr) [csr_CommonName csr].

Definition ObtainCertificateForCSR (c : Client) (csr : CertificateRequest)
    (bundle : bool) : M (option CertificateResource * option opError) :=
  let domains := csrDomains csr in
  '(order, err) ← createOrderForIdentifiers c domains;
  match err with
  | Some e => ret (None, Some e)
  | None =>
  '(authz, err) ← getAuthzForOrder c order;
  match err with
  | Some e => ret (None, Some e)
  | None =>
  err ← solveChallengeForAuthz c authz;
  match err with
  | Some e => ret (None, Some e)
  | None =>
  '(cert, err) ← requestCertificateForCsr c order bundle (csr_Raw csr) None;
  let failures :=
    match err with
    | Some e => fold_left (fun failures chln => <[domainOf chln := e]> failures)
                          authz ∅
    | None => ∅
    end in
  let cert :=
    match cert with
    | Some cert =>
        Some {| cr_Domain := cr_Domain cert;
                cr_CertURL := cr_CertURL cert;
                cr_CertStableURL := cr_CertStableURL cert;
                cr_PrivateKey := cr_PrivateKey cert;
                cr_Certificate := cr_Certificate cert;
                cr_IssuerCertificate := cr_IssuerCertificate cert;
                cr_CSR := pemEncodeCSR E csr |}
    | None => None
    end in
  ret (cert, errOf failures)
  end
  end
  end.

(** ** [RenewCertificate] (client.go 487-540) *)

(** The domain list of a renewal without a preserved CSR (lines 524-536). *)
Definition renewDomains (x509Cert : Certificate) : list string :=
  if bool_decide (1 < length (x_DNSNames x509Cert))%nat then
    fold_left (fun domains sanDomain =>
                 if String.eqb sanDomain (x_CommonName x509Cert) then domains
                 else domains ++ [sanDomain])
              (x_DNSNames x509Cert) [x_CommonName x509Cert]
  else [x_CommonName x509Cert].

Definition RenewCertificate (c : Client) (cert : CertificateResource)
    (bundle mustStaple : bool) : M (option CertificateResource * option opError) :=
  let '(certificates, err) := parsePEMBundle E (cr_Certificate cert) in
  match err with
  | Some e => ret (None, Some (Plain e))
  | None =>
  x509Cert ← index certificates 0;
  if x_IsCA x509Cert then
    ret (None, Some (Plain (ErrorString
      ("[" +:+ cr_Domain cert +:+ "] Certificate bundle starts with a CA certificate"))))
  else if bool_decide (0 < length (cr_CSR cert))%nat then
    let '(csr, errP) := pemDecodeTox509CSR E (cr_CSR cert) in
    match errP with
    | Some e => ret (None, Some (Plain e))
    | None => ObtainCertificateForCSR c csr bundle
    end
  else
    let '(privKey, err) :=
      match cr_PrivateKey cert with
      | Some pem => parsePEMPrivateKey E pem
      | None => (None, None)
      end in
    match err with
    | Some e => ret (None, Some (Plain e))
    | None => ObtainCertificate c (renewDomains x509Cert) bundle privKey mustStaple
    end
  end.

(** ** Further operations of [client.go] *)

(** Modelled from the spec: the challenge type tags ([HTTP01], [DNS01],
    [TLSALPN01]) are constants declared outside [client.go]; section 3 of
    the specification names them. *)
Definition HTTP01 : string := "http-01".
Definition DNS01 : string := "dns-01".
Definition TLSALPN01 : string := "tls-alpn-01".

Record revokeCertMessage := { rcm_Certificate : string }.

(** A [ChallengeProvider]: the object a solver is built around. *)
Context {Provider : Type}.

(** The collaborators of the operations below.  [postJSON] with a nil
    [respBody] decodes nothing, so it is a transport operation of its own;
    a revocation request and the directory's GET have no event in the
    trace and are seen in the world only. *)
Record EnvX := {
  postJSON_account_nil : jws -> string -> accountMessage -> W ->
                         W * (Header * option error);
  postJSON_revoke : jws -> string -> revokeCertMessage -> W ->
                    W * (Header * option error);
  getJSON_directory : string -> W -> W * (directory * option error);
  (* [base64.RawURLEncoding.DecodeString], [base64.URLEncoding.EncodeToString] *)
  base64RawURL_DecodeString : string -> list byte * option error;
  base64URL_EncodeToString : list byte -> string;
  (* [jws.signEABContent] followed by [FullSerialize] *)
  signEABContent : jws -> string -> string -> list byte -> W ->
                   W * (string * option error);
  (* [RemoteError.Error()] *)
  remoteErrorText : Z -> string -> string -> string;
  (* the requests of [validate]: they decode into [chlng], hence its old
     value; [postAsGet] may return a nil response *)
  postJSON_challenge : jws -> string -> challenge -> W ->
                       W * (Header * challenge * option error);
  postAsGet_challenge : jws -> string -> challenge -> W ->
                        W * (option httpResponse * challenge * option error);
  (* [time.Sleep] of a duration in nanoseconds *)
  sleep : Z -> W -> W;
  handleChallengeError : challenge -> error;
  (* the solver types built around a provider, and the default providers *)
  httpChallenge : Provider -> solver;
  dnsChallenge : Provider -> solver;
  tlsALPNChallenge : Provider -> solver;
  HTTPProviderServer : Provider;
  TLSALPNProviderServer : Provider }.

Context (X : EnvX).

(** [err.Error()] *)
Definition errorText (err : error) : string :=
  match err with
  | ErrorString msg => msg
  | RemoteError StatusCode Type_ Detail => remoteErrorText X StatusCode Type_ Detail
  end.

Definition do_postJSON_account_nil (url : string) (req : accountMessage)
  : M (Header * option error) :=
  _ ← emit (EvPostJSON url (PAccount req));
  call (fun j => postJSON_account_nil X j url req).

(** *** [NewClient] (client.go 73-105)

    The client and the signing transport it creates; the world is passed
    explicitly, there being no transport before the call. *)
Definition NewClient (caDirURL : string) (user : User) (keyType : KeyType) (w : W)
  : W * (option (Client * jws) * option error) :=
  let privKey := GetPrivateKey user in
  match privKey with
  | None => (w, (None, Some (ErrorString "private key was nil")))
  | Some _ =>
      let '(w, (dir, err)) := getJSON_directory X caDirURL w in
      match err with
      | Some e =>
          (w, (None, Some (ErrorString ("get directory at '" +:+ caDirURL +:+
                                        "': " +:+ errorText e))))
      | None =>
          if String.eqb (NewAccountURL dir) "" then
            (w, (None, Some (ErrorString "directory missing new registration URL")))
          else if String.eqb (NewOrderURL dir) "" then
            (w, (None, Some (ErrorString "directory missing new order URL")))
          else
            let j := {| jws_privKey := privKey;
                        jws_getNonceURL := NewNonceURL dir;
                        jws_kid := match GetRegistration user with
                                   | Some reg => reg_URI reg
                                   | None => ""
                                   end |} in
            let solvers : gmap string solver :=
              <[TLSALPN01 := tlsALPNChallenge X (TLSALPNProviderServer X)]>
                (<[HTTP01 := httpChallenge X (HTTPProviderServer X)]> ∅) in
            (w, (Some ({| c_directory := dir; c_user := Some user;
                          c_keyType := keyType; c_solvers := solvers |}, j), None))
      end
  end.

Definition withSolvers (c : Client) (solvers : gmap string solver) : Client :=
  {| c_directory := c_directory c; c_user := c_user c;
     c_keyType := c_keyType c; c_solvers := solvers |}.

(** *** [SetChallengeProvider] (client.go 108-120): the client as the call
    leaves it, and the error. *)
Definition SetChallengeProvider (c : Client) (challenge : string) (p : Provider)
  : Client * option error :=
  if String.eqb challenge HTTP01 then
    (withSolvers c (<[challenge := httpChallenge X p]> (c_solvers c)), None)
  else if String.eqb challenge DNS01 then
    (withSolvers c (<[challenge := dnsChallenge X p]> (c_solvers c)), None)
  else if String.eqb challenge TLSALPN01 then
    (withSolvers c (<[challenge := tlsALPNChallenge X p]> (c_solvers c)), None)
  else (c, Some (ErrorString ("unknown challenge " +:+ challenge))).

(** *** [ExcludeChallenges] (client.go 160-165) *)
Definition ExcludeChallenges (c : Client) (challenges : list string) : Client :=
  withSolvers c
    (fold_left (fun solvers challenge => delete challenge solvers)
               challenges (c_solvers c)).

(** *** [RegisterWithExternalAccountBinding] (client.go 212-257) *)
Definition RegisterWithExternalAccountBinding (c : option Client) (tosAgreed : bool)
    (kid hmacEncoded : string) : M (option RegistrationResource * option opError) :=
  let nilErr := ErrorString "acme: cannot register a nil client or user" in
  match c with
  | None => ret (None, Some (Plain nilErr))
  | Some c =>
  match c_user c with
  | None => ret (None, Some (Plain nilErr))
  | Some user =>
      let accMsg := registrationMessage user tosAgreed in
      let '(hmac, err) := base64RawURL_DecodeString X hmacEncoded in
      match err with
      | Some e =>
          ret (None, Some (Plain (ErrorString
                 ("acme: could not decode hmac key: " +:+ errorText e))))
      | None =>
      '(eabPayload, err) ←
        call (fun j => signEABContent X j (NewAccountURL (c_directory c)) kid hmac);
      match err with
      | Some e =>
          ret (None, Some (Plain (ErrorString
                 ("acme: error signing eab content: " +:+ errorText e))))
      | None =>
      let accMsg :=
        {| am_Status := am_Status accMsg;
           am_Contact := am_Contact accMsg;
           am_TermsOfServiceAgreed := am_TermsOfServiceAgreed accMsg;
           am_OnlyReturnExisting := am_OnlyReturnExisting accMsg;
           am_ExternalAccountBinding := String.list_byte_of_string eabPayload |} in
      '(hdr, serverReg, err) ←
        do_postJSON_account (NewAccountURL (c_directory c)) accMsg;
      let adopt :=
        let reg := {| reg_URI := Header_Get hdr "Location"; reg_Body := serverReg |} in
        _ ← set_kid (reg_URI reg);
        ret (Some reg, None) in
      match err with
      | Some e => if isConflict e then adopt else ret (None, Some (Plain e))
      | None => adopt
      end
      end
      end
  end
  end.

(** *** [ResolveAccountByKey] (client.go 261-283) *)
Definition ResolveAccountByKey (c : Client)
  : M (option RegistrationResource * option opError) :=
  let acc :=
    {| am_Status := ""; am_Contact := []; am_TermsOfServiceAgreed := false;
       am_OnlyReturnExisting := true; am_ExternalAccountBinding := [] |} in
  '(hdr, err) ← do_postJSON_account_nil (NewAccountURL (c_directory c)) acc;
  match err with
  | Some e => ret (None, Some (Plain e))
  | None =>
      let accountLink := Header_Get hdr "Location" in
      if String.eqb accountLink "" then
        ret (None, Some (Plain (ErrorString "Server did not return the account link")))
      else
        _ ← set_kid accountLink;
        '(_, retAccount, err) ← do_postJSON_account accountLink zeroAccountMessage;
        match err with
        | Some e => ret (None, Some (Plain e))
        | None => ret (Some {| reg_URI := accountLink; reg_Body := retAccount |}, None)
        end
  end.

(** [c.user.GetRegistration().URI]: a nil registration is dereferenced. *)
Definition registrationURI (user : User) : M string :=
  match GetRegistration user with
  | Some reg => ret (reg_URI reg)
  | None => panic
  end.

(** *** [DeleteRegistration] (client.go 287-299) *)
Definition DeleteRegistration (c : option Client) : M (option opError) :=
  let nilErr := ErrorString "acme: cannot unregister a nil client or user" in
  match c with
  | None => ret (Some (Plain nilErr))
  | Some c =>
  match c_user c with
  | None => ret (Some (Plain nilErr))
  | Some user =>
      let accMsg :=
        {| am_Status := "deactivated"; am_Contact := [];
           am_TermsOfServiceAgreed := false; am_OnlyReturnExisting := false;
           am_ExternalAccountBinding := [] |} in
      uri ← registrationURI user;
      '(_, err) ← do_postJSON_account_nil uri accMsg;
      ret (plainErr err)
  end
  end.

(** *** [QueryRegistration] (client.go 306-328) *)
Definition QueryRegistration (c : option Client)
  : M (option RegistrationResource * option opError) :=
  let nilErr :=
    ErrorString "acme: cannot query the registration of a nil client or user" in
  match c with
  | None => ret (None, Some (Plain nilErr))
  | Some c =>
  match c_user c with
  | None => ret (None, Some (Plain nilErr))
  | Some user =>
      uri ← registrationURI user;
      '(_, serverReg, err) ← do_postJSON_account uri zeroAccountMessage;
      match err with
      | Some e => ret (None, Some (Plain e))
      | None =>
          uri' ← registrationURI user;
          ret (Some {| reg_Body := serverReg; reg_URI := uri' |}, None)
      end
  end
  end.

(** *** [RevokeCertificate] (client.go 462-477) *)
Definition RevokeCertificate (c : Client) (certificate : list byte)
  : M (option error) :=
  let '(certificates, err) := parsePEMBundle E certificate in
  match err with
  | Some e => ret (Some e)
  | None =>
      x509Cert ← index certificates 0;
      if x_IsCA x509Cert then
        ret (Some (ErrorString "Certificate bundle starts with a CA certificate"))
      else
        let encodedCert := base64URL_EncodeToString X (x_Raw x509Cert) in
        '(_, err) ←
          call (fun j => postJSON_revoke X j (RevokeCertURL (c_directory c))
                           {| rcm_Certificate := encodedCert |});
        ret err
  end.

(** *** [validate] (client.go 914-957)

    [strconv.Atoi] on a 64-bit platform: an optional sign followed by one
    or more decimal digits, whose value fits an [int]; [None] is a non-nil
    error. *)
Definition digitOf (a : Ascii.ascii) : option Z :=
  let n := Z.of_N (Ascii.N_of_ascii a) in
  if (48 <=? n) && (n <=? 57) then Some (n - 48) else None.

Fixpoint parseDigits (s : string) (acc : Z) : option Z :=
  match s with
  | EmptyString => Some acc
  | String a s' =>
      match digitOf a with
      | Some d => parseDigits s' (acc * 10 + d)
      | None => None
      end
  end.

Definition Atoi (s : string) : option Z :=
  match s with
  | EmptyString => None
  | String a rest =>
      let '(neg, digits) :=
        if (Ascii.N_of_ascii a =? 45)%N (* '-' *) then (true, rest)
        else if (Ascii.N_of_ascii a =? 43)%N (* '+' *) then (false, rest)
        else (false, s) in
      match digits with
      | EmptyString => None
      | _ =>
          match parseDigits digits 0 with
          | Some n =>
              let v := if neg : bool then - n else n in
              if (- 2 ^ 63 <=? v) && (v <=? 2 ^ 63 - 1) then Some v else None
          | None => None
          end
      end
  end.

(** [int64] arithmetic wraps around. *)
Definition wrap64 (z : Z) : Z := (z + 2 ^ 63) mod 2 ^ 64 - 2 ^ 63.

(** [time.Duration(ra) * time.Second], in nanoseconds, where [ra] is the
    [Retry-After] header read as an integer, or 5 when it does not parse. *)
Definition retryInterval (hdr : Header) : Z :=
  let ra := match Atoi (Header_Get hdr "Retry-After") with
            | Some ra => ra
            | None => 5
            end in
  wrap64 (ra * 1000000000).

(** What [validate] does, in order: the initial POST, then sleeps and
    polls. *)
Inductive validateStep :=
| VPost (uri : string)
| VSleep (nanoseconds : Z)
| VPoll (uri : string).

(** The [for] loop of [validate] has no bound of its own: [fuel] bounds the
    iterations of the model, which has no result ([None]) when it runs
    out. *)
Fixpoint validateLoop (fuel : nat) (j : jws) (uri : string) (hdr : Header)
    (chlng : challenge) (w : W) (steps : list validateStep)
  : option (W * list validateStep * option error) :=
  match fuel with
  | O => None
  | S fuel =>
      if String.eqb (ch_Status chlng) statusValid then Some (w, steps, None)
      else if String.eqb (ch_Status chlng) "pending"
              || String.eqb (ch_Status chlng) "processing" then
        let d := retryInterval hdr in
        let w := sleep X d w in
        let '(w, (resp, chlng, err)) := postAsGet_challenge X j uri chlng w in
        let steps := steps ++ [VSleep d; VPoll uri] in
        match err with
        | Some e => Some (w, steps, Some e)
        | None =>
            let hdr := match resp with
                       | Some resp => resp_Header resp
                       | None => hdr
                       end in
            validateLoop fuel j uri hdr chlng w steps
        end
      else if String.eqb (ch_Status chlng) statusInvalid then
        Some (w, steps, Some (handleChallengeError X chlng))
      else Some (w, steps, Some (ErrorString "the server returned an unexpected state"))
  end.

Definition zeroChallenge : challenge :=
  {| ch_URL := ""; ch_Type := ""; ch_Status := ""; ch_Token := "" |}.

Definition validate (fuel : nat) (j : jws) (domain uri : string) (c : challenge)
    (w : W) : option (W * list validateStep * option error) :=
  let '(w, (hdr, chlng, err)) := postJSON_challenge X j uri zeroChallenge w in
  match err with
  | Some e => Some (w, [VPost uri], Some e)
  | None => validateLoop fuel j uri hdr chlng w [VPost uri]
  end.

End Engine.

(** ** A scripted certificate authority

    A small [Env] over a world that counts the transport calls made so far:
    fixed answers for the account, order and
    finalize requests, one authorization per URL (the URL names the domain),
    and a fixed poll answer.  It instantiates the statements below on
    concrete runs. *)
Module Mock.

Definition acme_dir : directory :=
  {| NewNonceURL := "https://ca/nonce"; NewAccountURL := "https://ca/acct";
     NewOrderURL := "https://ca/order"; RevokeCertURL := "https://ca/revoke" |}.

Definition user : User :=
  {| GetEmail := "ops@example.com"; GetRegistration := None;
     GetPrivateKey := Some [] |}.

Definition located (uri : string) : Header := {[ "Location" := [uri] ]}.

Definition order_reply (status : string) : orderMessage :=
  {| om_Status := status; om_Identifiers := [];
     om_Authorizations := [];
     om_Finalize := "https://ca/finalize/1";
     om_Certificate := "https://ca/cert/1" |}.

Definition dns01 (status : string) : challenge :=
  {| ch_URL := "https://ca/chall/1"; ch_Type := "dns-01"; ch_Status := status;
     ch_Token := "tok" |}.

Definition authz_for (domain status : string) : authorization :=
  {| authz_Status := status;
     authz_Identifier := {| id_Type := "dns"; id_Value := domain |};
     authz_Challenges := [dns01 "pending"] |}.

Definition env (account : Header * accountMessage * option error)
    (finalizeStatus pollStatus : string) (bundleCerts : list Certificate)
    (ticks : list selectEvent) : @Env nat :=
  {| postJSON_account := fun _ _ _ w => (S w, account);
     postJSON_order := fun _ _ req w =>
       (S w, (located "https://ca/order/1",
              {| om_Status := "pending";
                 om_Identifiers := om_Identifiers req;
                 om_Authorizations := id_Value <$> om_Identifiers req;
                 om_Finalize := "https://ca/finalize/1";
                 om_Certificate := "" |}, None));
     postJSON_csr := fun _ _ _ w => (S w, (∅, order_reply finalizeStatus, None));
     postAsGet_authz := fun _ url w => (S w, (authz_for url "pending", None));
     postAsGet_order := fun _ _ _ w => (S w, (order_reply pollStatus, None));
     postAsGet_raw := fun _ _ w =>
       (S w, ({| resp_Header := ∅; resp_Body := []; resp_ReadErr := None |}, None));
     arrival := fun completions => completions;
     clock := fun _ => ticks;
     parseLinks := fun _ => Some ∅;
     x509_ParseCertificate := fun _ => None;
     pemEncodeDerCertificate := fun der => der;
     pem_Decode_rest := fun _ => None;
     base64RawURL := fun _ => "";
     generatePrivateKey := fun _ w => (S w, (Some [], None));
     generateCsr := fun _ _ _ _ w => (S w, ([], None));
     pemEncodeKey := fun _ => [];
     pemEncodeCSR := fun _ => [];
     parsePEMBundle := fun _ => (bundleCerts, None);
     pemDecodeTox509CSR := fun _ =>
       ({| csr_CommonName := ""; csr_DNSNames := []; csr_Raw := [] |}, None);
     parsePEMPrivateKey := fun pem => (Some pem, None) |}.

(** A record-based solver with all three capabilities; [Solve] answers
    [solveErr]. *)
Definition dnsSolver (solveErr : option error) : @solver nat :=
  {| Solve := fun _ _ w => (S w, solveErr);
     PreSolve := Some (fun _ _ w => (S w, None));
     CleanUp := Some (fun _ _ w => (S w, None)) |}.

Definition client (solveErr : option error) : @Client nat :=
  {| c_directory := acme_dir; c_user := Some user; c_keyType := "EC256";
     c_solvers := {[ "dns-01" := dnsSolver solveErr ]} |}.

Definition s0 : @St nat :=
  {| world := 0%nat;
     st_jws := {| jws_privKey := Some []; jws_getNonceURL := "https://ca/nonce";
                  jws_kid := "" |};
     trace := [] |}.

(** The CA that keeps answering [processing]; the deadline is received
    after two ticks. *)
Definition processingCA : @Env nat :=
  env (∅, zeroAccountMessage, None) "processing" "processing" []
      [RetryTick; RetryTick; StopTimer].

(** The CA that answers the finalize request with [invalid]. *)
Definition invalidCA : @Env nat :=
  env (∅, zeroAccountMessage, None) "invalid" "processing" []
      [RetryTick; RetryTick; StopTimer].

(** The CA that knows the account key already. *)
Definition conflictCA : @Env nat :=
  env (located "https://ca/acct/7", zeroAccountMessage,
       Some (RemoteError 409 "urn:ietf:params:acme:error:malformed"
                         "Registration key is already in use"))
      "processing" "processing" [] [StopTimer].

(** A certificate for [a.com] whose only DNS name is [b.com], and a
    resource holding it with neither CSR nor private key. *)
Definition foreignSan : Certificate :=
  {| x_IsCA := false; x_CommonName := "a.com"; x_DNSNames := ["b.com"];
     x_Raw := [] |}.

Definition renewCA : @Env nat :=
  env (∅, zeroAccountMessage, None) "processing" "processing" [foreignSan]
      [StopTimer].

Definition oldCert : CertificateResource :=
  {| cr_Domain := "a.com"; cr_CertURL := "https://ca/cert/0";
     cr_CertStableURL := "https://ca/cert/0"; cr_PrivateKey := None;
     cr_Certificate := []; cr_IssuerCertificate := []; cr_CSR := [] |}.

(** The order resource that these CAs create for [a.com], [b.com]. *)
Definition order_ab : orderResource :=
  {| or_URL := "https://ca/order/1";
     or_Domains := ["a.com"; "b.com"];
     or_msg := {| om_Status := "pending";
                  om_Identifiers := [{| id_Type := "dns"; id_Value := "a.com" |};
                                     {| id_Type := "dns"; id_Value := "b.com" |}];
                  om_Authorizations := ["a.com"; "b.com"];
                  om_Finalize := "https://ca/finalize/1";
                  om_Certificate := "" |} |}.

End Mock.

(** ** Further scenarios *)
Module Scenario.

(** The CA that answers the finalize request and every poll with [valid]. *)
Definition validCA : @Env nat :=
  Mock.env (∅, zeroAccountMessage, None) "valid" "valid" [] [StopTimer].

(** An authorization that only offers [http-01]. *)
Definition http_only (domain : string) : authorization :=
  {| authz_Status := "pending";
     authz_Identifier := {| id_Type := "dns"; id_Value := domain |};
     authz_Challenges :=
       [{| ch_URL := "https://ca/chall/2"; ch_Type := "http-01";
           ch_Status := "pending"; ch_Token := "tok" |}] |}.

(** A client whose [dns-01] solver fails in [PreSolve]. *)
Definition failingPreSolve : challenge -> string -> nat -> nat * option error :=
  fun _ _ w => (S w, Some (ErrorString "no zone")).

Definition brokenDns : @solver nat :=
  {| Solve := fun _ _ w => (S w, None);
     PreSolve := Some failingPreSolve;
     CleanUp := Some (fun _ _ w => (S w, None)) |}.

Definition brokenClient : @Client nat :=
  {| c_directory := Mock.acme_dir; c_user := Some Mock.user; c_keyType := "EC256";
     c_solvers := {[ "dns-01" := brokenDns ]} |}.

(** A CSR for [a.com] that repeats names. *)
Definition csr_ab : CertificateRequest :=
  {| csr_CommonName := "a.com"; csr_DNSNames := ["b.com"; "a.com"; "b.com"];
     csr_Raw := [] |}.

(** A certificate for [a.com] and [b.com], and a CA certificate. *)
Definition cert_ab : Certificate :=
  {| x_IsCA := false; x_CommonName := "a.com"; x_DNSNames := ["a.com"; "b.com"];
     x_Raw := [] |}.

Definition caCert : Certificate :=
  {| x_IsCA := true; x_CommonName := "Root"; x_DNSNames := []; x_Raw := [] |}.

Definition caBundleCA : @Env nat :=
  Mock.env (∅, zeroAccountMessage, None) "processing" "processing" [caCert]
           [StopTimer].

(** A resource that preserved its CSR. *)
Definition csrCert : CertificateResource :=
  {| cr_Domain := "a.com"; cr_CertURL := ""; cr_CertStableURL := "";
     cr_PrivateKey := None; cr_Certificate := []; cr_IssuerCertificate := [];
     cr_CSR := ["x"%byte] |}.

Definition registered : User :=
  {| GetEmail := "ops@example.com";
     GetRegistration := Some {| reg_Body := zeroAccountMessage;
                                reg_URI := "https://ca/acct/7" |};
     GetPrivateKey := Some [] |}.

Definition registeredClient : @Client nat :=
  {| c_directory := Mock.acme_dir; c_user := Some registered;
     c_keyType := "EC256"; c_solvers := ∅ |}.

Definition pendingChallenge : challenge :=
  {| ch_URL := "https://ca/chall/1"; ch_Type := "dns-01"; ch_Status := "pending";
     ch_Token := "tok" |}.

(** The further collaborators: the existing-account request is answered
    with the account's location when [known]; the HMAC key decodes unless
    it is empty; signing the external account binding answers [signed];
    the POST that starts a validation answers a challenge in status
    [posted]; a polled challenge is [pending] on the first poll (world
    below [2]) and [invalid] afterwards; no answer carries a
    [Retry-After]. *)
Definition envXwith (known : bool) (signed : string * option error)
    (posted : string) : @EnvX nat unit :=
  {| postJSON_account_nil := fun _ _ _ w =>
       (S w, (if known then Mock.located "https://ca/acct/7" else ∅, None));
     postJSON_revoke := fun _ _ _ w => (S w, (∅, None));
     getJSON_directory := fun _ w => (S w, (Mock.acme_dir, None));
     base64RawURL_DecodeString := fun s =>
       if String.eqb s "" then ([], Some (ErrorString "illegal base64 data"))
       else ([], None);
     base64URL_EncodeToString := fun _ => "";
     signEABContent := fun _ _ _ _ w => (w, signed);
     remoteErrorText := fun _ _ detail => detail;
     postJSON_challenge := fun _ _ _ w =>
       (S w, (∅, {| ch_URL := "https://ca/chall/1"; ch_Type := "dns-01";
                    ch_Status := posted; ch_Token := "tok" |}, None));
     postAsGet_challenge := fun _ _ _ w =>
       (S w, (None,
              {| ch_URL := "https://ca/chall/1"; ch_Type := "dns-01";
                 ch_Status := if (w <? 2)%nat then "pending" else "invalid";
                 ch_Token := "tok" |}, None));
     sleep := fun _ w => w;
     handleChallengeError := fun _ => ErrorString "challenge failed";
     httpChallenge := fun _ => Mock.dnsSolver None;
     dnsChallenge := fun _ => Mock.dnsSolver None;
     tlsALPNChallenge := fun _ => Mock.dnsSolver None;
     HTTPProviderServer := tt;
     TLSALPNProviderServer := tt |}.

(** The signing key is rejected and the challenge starts [pending]. *)
Definition envX (known : bool) : @EnvX nat unit :=
  envXwith known ("", Some (ErrorString "bad key")) "pending".

(** An authorization that offers [http-01] before [dns-01]. *)
Definition http_then_dns (domain : string) : authorization :=
  {| authz_Status := "pending";
     authz_Identifier := {| id_Type := "dns"; id_Value := domain |};
     authz_Challenges :=
       authz_Challenges (http_only domain) ++ [Mock.dns01 "pending"] |}.

End Scenario.

(** ** Vocabulary of the statements *)

(** An error value is well formed when it is not an empty [ObtainError]. *)
Definition wellFormedErr (e : option opError) : Prop :=
  match e with
  | Some (ObtainError failures) => failures ≠ ∅
  | _ => True
  end.

(** The domain a solver call was made for. *)
Definition solverEventDomain (e : event) : option string :=
  match e with
  | EvPreSolve _ d | EvSolve _ d | EvCleanUp _ d => Some d
  | _ => None
  end.

(** How many solver calls (pre-solve, solve or cleanup) a trace holds for
    the domain [d]. *)
Definition solverCallsFor (d : string) (tr : list event) : nat :=
  length (filter (fun e => solverEventDomain e = Some d) tr).


(** An order status on which the finalizer keeps polling. *)
Definition nonTerminal (status : string) : Prop :=
  status ≠ statusValid /\ status ≠ statusInvalid.

(** A request sent to the CA. *)
Definition isRequest (e : event) : Prop :=
  match e with
  | EvPostJSON _ _ | EvPostAsGet _ => True
  | _ => False
  end.

(** [m] only appends to the trace, and every event it appends satisfies
    [P]. *)
Definition emits {W A} (P : event -> Prop) (m : @M W A) : Prop :=
  forall s s' a, m s = Some (s', a) ->
    exists new, trace s' = trace s ++ new /\ Forall P new.

(** Every result of [m] satisfies [Q]. *)
Definition yields {W A} (Q : A -> Prop) (m : @M W A) : Prop :=
  forall s s' a, m s = Some (s', a) -> Q a.

(** The error of an aggregation step: nil, or a non-empty failure map. *)
Definition aggregated (e : option opError) : Prop :=
  e = None \/ exists failures, failures ≠ ∅ /\ e = Some (ObtainError failures).

(** An event that is not a solver call for the domain [d]. *)
Definition quietFor (d : string) (e : event) : Prop :=
  solverEventDomain e ≠ Some d.

(** The pairs the select pass keeps, and the failures it records. *)
Definition selected {W} (c : @Client W) (authorizations : list authorization)
  : list (@selectedAuthSolver W) :=
  (fold_left (selectStep c) authorizations ([], ∅)).1.

Definition selectFailures {W} (c : @Client W) (authorizations : list authorization)
  : gmap string error :=
  (fold_left (selectStep c) authorizations ([], ∅)).2.

(** The challenge a selected pair designates. *)
Definition chosenChallenge {W} (item : @selectedAuthSolver W) : option challenge :=
  authz_Challenges (sas_authz item) !! sas_challengeIndex item.

(** A selected pair is well formed for the client [c] and the input
    [authorizations]: its authorization is one of the input that is not
    valid, its index designates a challenge of that authorization, and its
    solver is the one registered for that challenge's type. *)
Definition wellSelected {W} (c : @Client W) (authorizations : list authorization)
    (item : @selectedAuthSolver W) : Prop :=
  sas_authz item ∈ authorizations /\
  authz_Status (sas_authz item) ≠ statusValid /\
  exists ch, chosenChallenge item = Some ch /\
             c_solvers c !! ch_Type ch = Some (sas_solver item).

(** A solver call made for an authorization of the input that is not
    valid, with one of its challenges whose type has a registered solver. *)
Definition solverCallFor {W} (c : @Client W) (authorizations : list authorization)
    (e : event) : Prop :=
  match e with
  | EvPreSolve ch d | EvSolve ch d | EvCleanUp ch d =>
      exists a, a ∈ authorizations /\ authz_Status a ≠ statusValid /\
                domainOf a = d /\ ch ∈ authz_Challenges a /\
                is_Some (c_solvers c !! ch_Type ch)
  | _ => False
  end.

Definition isPreSolve (e : event) : Prop :=
  match e with EvPreSolve _ _ => True | _ => False end.
Definition isSolve (e : event) : Prop :=
  match e with EvSolve _ _ => True | _ => False end.
Definition isCleanUp (e : event) : Prop :=
  match e with EvCleanUp _ _ => True | _ => False end.

(** The calls of a pass that skips nothing: one per pair (for pre-solve and
    cleanup, per pair whose solver has the capability), in order. *)
Definition preSolveCalls {W} (items : list (@selectedAuthSolver W)) : list event :=
  items ≫= fun item =>
    match PreSolve (sas_solver item), chosenChallenge item with
    | Some _, Some ch => [EvPreSolve ch (domainOf (sas_authz item))]
    | _, _ => []
    end.

Definition solveCalls {W} (items : list (@selectedAuthSolver W)) : list event :=
  items ≫= fun item =>
    match chosenChallenge item with
    | Some ch => [EvSolve ch (domainOf (sas_authz item))]
    | None => []
    end.

Definition cleanUpCalls {W} (items : list (@selectedAuthSolver W)) : list event :=
  items ≫= fun item =>
    match CleanUp (sas_solver item), chosenChallenge item with
    | Some _, Some ch => [EvCleanUp ch (domainOf (sas_authz item))]
    | _, _ => []
    end.

(** The number of ticks received before the deadline. *)
Fixpoint ticksBeforeStop (ticks : list selectEvent) : nat :=
  match ticks with
  | RetryTick :: ticks' => S (ticksBeforeStop ticks')
  | _ => 0
  end.

(** [err] is what an aggregation step returns for the failure map
    [failures]: nil for the empty map, the map itself otherwise. *)
Definition returnsFailures (failures : gmap string error) (err : option opError)
  : Prop :=
  (failures = ∅ -> err = None) /\
  (failures ≠ ∅ -> err = Some (ObtainError failures)).

(** The per-domain failures that the passes of the coordinator produce in
    its run on [authorizations] from the state [s]: an authorization that
    is not valid and has no registered solver; a [PreSolve] call that
    returns an error; a [Solve] call that returns an error.  A call is
    made in the state [t] that the pass has reached on the pairs [before]
    it, and [Solve] is only called for a domain without failure so far. *)
Inductive coordinatorFailure {W} (c : @Client W)
    (authorizations : list authorization) (s : @St W) : string -> error -> Prop :=
| NoSolverFor (a : authorization) (i : nat) :
    a ∈ authorizations ->
    authz_Status a ≠ statusValid ->
    chooseSolver c a (domainOf a) = (i, None) ->
    coordinatorFailure c authorizations s (domainOf a)
      (ErrorString ("[" +:+ domainOf a +:+ "] acme: Could not determine solvers"))
| PreSolveFailed (before after : list selectedAuthSolver) (item : selectedAuthSolver)
    (t : St) (failures : gmap string error)
    (presolve : challenge -> string -> W -> W * option error)
    (ch : challenge) (w : W) (e : error) :
    selected c authorizations = before ++ item :: after ->
    foldM preSolveStep before (selectFailures c authorizations) s
      = Some (t, failures) ->
    PreSolve (sas_solver item) = Some presolve ->
    chosenChallenge item = Some ch ->
    presolve ch (domainOf (sas_authz item)) (world t) = (w, Some e) ->
    coordinatorFailure c authorizations s (domainOf (sas_authz item)) e
| SolveFailed (before after : list selectedAuthSolver) (item : selectedAuthSolver)
    (s1 t : St) (failures1 failures : gmap string error)
    (ch : challenge) (w : W) (e : error) :
    foldM preSolveStep (selected c authorizations)
          (selectFailures c authorizations) s = Some (s1, failures1) ->
    selected c authorizations = before ++ item :: after ->
    foldM solveStep before failures1 s1 = Some (t, failures) ->
    failures !! domainOf (sas_authz item) = None ->
    chosenChallenge item = Some ch ->
    Solve (sas_solver item) ch (domainOf (sas_authz item)) (world t)
      = (w, Some e) ->
    coordinatorFailure c authorizations s (domainOf (sas_authz item)) e.

(** The private key that a certificate request works with, and the world
    it is obtained in: the caller's key as it is, or the key that
    [generatePrivateKey] returns without error. *)
Definition keyObtained {W} (E : @Env W) (c : @Client W) (privKey : PrivateKey)
    (w : W) (key : PrivateKey) (w1 : W) : Prop :=
  match privKey with
  | Some _ => key = privKey /\ w1 = w
  | None => generatePrivateKey E (c_keyType c) w = (w1, (key, None))
  end.

(** The subject alternative names requested for an order whose first
    domain is [d]: [d], then the identifiers of the CA's order response
    that differ from it. *)
Definition sanOf (d : string) (order : orderResource) : list string :=
  d :: filter (fun v => v ≠ d) (id_Value <$> om_Identifiers (or_msg order)).


(** * Properties *)

Section Properties.

Context {W : Type} (E : @Env W).

Implicit Types (s : @St W) (c : @Client W) (item : @selectedAuthSolver W).

(** Unfolding of the monad's operations, for symbolic execution. *)
Ltac run :=
  repeat (progress (unfold mbind, mret, M_bind, M_ret, bind, ret, emit, call,
                           panic, index, callSolver, set_kid,
                           do_postJSON_account, do_postJSON_order, do_postJSON_csr,
                           do_postAsGet_authz, do_postAsGet_order, do_postAsGet_raw
                      in *; cbn beta iota zeta delta [world st_jws trace] in *)).

Lemma bind_Some {A B} (m : @M W A) (f : A -> @M W B) s s' b :
  bind m f s = Some (s', b) <->
  exists s1 a, m s = Some (s1, a) /\ f a s1 = Some (s', b).
Proof.
  unfold bind. split.
  - destruct (m s) as [[s1 a]|] eqn:Hm; [|discriminate]. eauto.
  - intros (s1 & a & -> & Hf). exact Hf.
Qed.

(** ** Aggregation: [errOf] *)

Lemma errOf_empty : errOf ∅ = None.
Proof. reflexivity. Qed.

Lemma errOf_None failures : errOf failures = None <-> failures = ∅.
Proof.
  unfold errOf. case_bool_decide as Hsz.
  - split; [discriminate|]. intros ->. rewrite map_size_empty in Hsz. lia.
  - split; [|done]. intros _. apply map_size_empty_iff. lia.
Qed.

Lemma errOf_nonempty failures :
  failures ≠ ∅ -> errOf failures = Some (ObtainError failures).
Proof.
  intros Hne. unfold errOf. case_bool_decide as Hsz; [done|].
  exfalso. apply Hne, map_size_empty_iff. lia.
Qed.

Lemma errOf_wellFormed failures : wellFormedErr (errOf failures).
Proof.
  unfold errOf. case_bool_decide as Hsz; [|exact I].
  cbn. intros ->. rewrite map_size_empty in Hsz. lia.
Qed.

(** ** Order creation *)



(** ** Registration *)

(** C7: when the new-account request fails with a [RemoteError] whose
    status is 409, [Register] returns the registration resource built from
    the response (URI from the [Location] header) with a nil error, and
    makes that URI the transport's account identifier; any other error of
    the request is returned as the error, with no resource. *)
Theorem Register_conflict_adopts_existing c (user : User) (tosAgreed : bool) s
    (w : W) (hdr : Header) (serverReg : accountMessage) (e : error) :
  c_user c = Some user ->
  postJSON_account E (st_jws s) (NewAccountURL (c_directory c))
    (registrationMessage user tosAgreed) (world s) = (w, (hdr, serverReg, Some e)) ->
  exists s',
    Register E (Some c) tosAgreed s =
      Some (s', match e with
                | RemoteError 409 _ _ =>
                    (Some {| reg_Body := serverReg;
                             reg_URI := Header_Get hdr "Location" |}, None)
                | _ => (None, Some (Plain e))
                end) /\
    world s' = w /\
    match e with
    | RemoteError 409 _ _ => jws_kid (st_jws s') = Header_Get hdr "Location"
    | _ => st_jws s' = st_jws s
    end.
Proof.
  intros Huser Hpost. unfold Register. rewrite Huser. run. rewrite Hpost.
  destruct e as [msg|code ty detail]; cbn.
  - eexists; split; [reflexivity|]. by cbn.
  - destruct (code =? 409) eqn:Hcode.
    + apply Z.eqb_eq in Hcode as ->. eexists; split; [reflexivity|]. by cbn.
    + assert (code ≠ 409) by (by apply Z.eqb_neq).
      eexists; split.
      * repeat f_equal. destruct code as [|p|p]; try reflexivity.
        do 9 (destruct p as [p|p|]; try reflexivity). congruence.
      * cbn. split; [reflexivity|].
        destruct code as [|p|p]; try reflexivity.
        do 9 (destruct p as [p|p|]; try reflexivity). congruence.
Qed.

(** ** [ObtainCertificate] on no domains *)

(** C10: with an empty domain list [ObtainCertificate] returns no
    certificate and the error "no domains to obtain a certificate for",
    and leaves the state untouched: no order is created, no request is
    sent. *)
Theorem ObtainCertificate_no_domains c (bundle : bool) (privKey : PrivateKey)
    (mustStaple : bool) s :
  ObtainCertificate E c [] bundle privKey mustStaple s =
    Some (s, (None, Some (Plain (ErrorString "no domains to obtain a certificate for")))).
Proof. reflexivity. Qed.

(** ** Trace discipline of the monad *)

Section Emits.

Context (P : event -> Prop).

Lemma emits_ret {A} (a : A) : emits P (@ret W A a).
Proof.
  intros s s' a' [= <- <-]. exists []. by rewrite app_nil_r.
Qed.

Lemma emits_panic {A} : emits P (@panic W A).
Proof. intros s s' a [=]. Qed.

Lemma emits_emit (e : event) : P e -> emits P (@emit W e).
Proof.
  intros He s s' a [= <- <-]. exists [e]. cbn. eauto.
Qed.

Lemma emits_call {A} (f : jws -> W -> W * A) : emits P (@call W A f).
Proof.
  intros s s' a. unfold call. destruct (f _ _) as [w x].
  intros [= <- <-]. exists []. cbn. by rewrite app_nil_r.
Qed.

Lemma emits_bind {A B} (m : @M W A) (f : A -> @M W B) :
  emits P m -> (forall a, emits P (f a)) -> emits P (M_bind A B f m).
Proof.
  intros Hm Hf s s' b Hrun. apply bind_Some in Hrun as (s1 & a & H1 & H2).
  apply Hm in H1 as (new1 & Heq1 & HP1). apply Hf in H2 as (new2 & Heq2 & HP2).
  exists (new1 ++ new2). rewrite Heq2, Heq1, app_assoc.
  split; [done|]. by apply Forall_app.
Qed.

Lemma emits_index {A} (l : list A) (i : nat) : emits P (@index W A l i).
Proof.
  unfold index. destruct (l !! i); [apply emits_ret | apply emits_panic].
Qed.

Lemma emits_foldM {A B} (f : B -> A -> @M W B) (l : list A) :
  (forall b x, x ∈ l -> emits P (f b x)) -> forall b, emits P (foldM f l b).
Proof.
  induction l as [|x l IH]; intros Hf b; cbn [foldM].
  - apply emits_ret.
  - apply emits_bind.
    + apply Hf. by left.
    + intros b'. apply IH. intros b0 y Hy. apply Hf. by right.
Qed.

Lemma emits_mapM {A B} (f : A -> @M W B) (l : list A) :
  (forall x, emits P (f x)) -> emits P (mapM f l).
Proof.
  intros Hf. induction l as [|x l IH]; cbn [mapM].
  - apply emits_ret.
  - apply emits_bind; [apply Hf|]. intros y.
    apply emits_bind; [apply IH|]. intros ys. apply emits_ret.
Qed.

Lemma emits_weaken {A} (Q : event -> Prop) (m : @M W A) :
  (forall e, Q e -> P e) -> emits Q m -> emits P m.
Proof.
  intros HQP Hm s s' a Hrun. apply Hm in Hrun as (new & -> & HQ).
  exists new. split; [done|]. eapply Forall_impl; eauto.
Qed.

End Emits.

(** One step of a proof that a computation [emits P]. *)
Ltac emits_step :=
  match goal with
  | |- emits _ (mbind _ _) => apply emits_bind; [|intros]
  | |- emits _ (mret _) => apply emits_ret
  | |- emits _ (ret _) => apply emits_ret
  | |- emits _ panic => apply emits_panic
  | |- emits _ (index _ _) => apply emits_index
  | |- emits _ (call _) => apply emits_call
  | |- emits _ (emit _) => apply emits_emit; try exact I
  | |- emits _ (match ?x with _ => _ end) => destruct x
  end.

Lemma emits_postAsGet_raw url : emits isRequest (do_postAsGet_raw E url).
Proof. unfold do_postAsGet_raw. repeat emits_step. Qed.

Lemma emits_postAsGet_order url old : emits isRequest (do_postAsGet_order E url old).
Proof. unfold do_postAsGet_order. repeat emits_step. Qed.

Lemma emits_postJSON_csr url req : emits isRequest (do_postJSON_csr E url req).
Proof. unfold do_postJSON_csr. repeat emits_step. Qed.

Lemma emits_getIssuerCertificate url : emits isRequest (getIssuerCertificate E url).
Proof.
  unfold getIssuerCertificate.
  apply emits_bind; [apply emits_postAsGet_raw|]. intros [resp err].
  repeat emits_step.
Qed.

Lemma emits_checkCertResponse order certRes bundle :
  emits isRequest (checkCertResponse E order certRes bundle).
Proof.
  unfold checkCertResponse. destruct (String.eqb _ statusValid).
  - apply emits_bind; [apply emits_postAsGet_raw|]. intros [resp err].
    destruct err; [emits_step|]. destruct (readAllLimited resp) as [cert rerr].
    destruct rerr; [emits_step|]. destruct (parseLinks _ _); [|emits_step].
    apply emits_bind; [|intros [? ?]; emits_step].
    destruct (_ !! "up").
    + apply emits_bind; [apply emits_getIssuerCertificate|]. intros [? ?].
      repeat emits_step.
    + repeat emits_step.
  - repeat emits_step.
Qed.

Lemma emits_pollLoop order retOrder certRes bundle ticks :
  emits isRequest (pollLoop E order retOrder certRes bundle ticks).
Proof.
  revert retOrder certRes.
  induction ticks as [|[|] ticks IH]; intros retOrder certRes; cbn [pollLoop].
  - emits_step.
  - emits_step.
  - apply emits_bind; [apply emits_postAsGet_order|]. intros [retOrder' err].
    destruct err; [emits_step|].
    apply emits_bind; [apply emits_checkCertResponse|]. intros [[done err] certRes'].
    destruct err; [emits_step|]. destruct done; [emits_step|]. apply IH.
Qed.

Lemma emits_requestCertificateForCsr c order bundle csr privateKeyPem :
  emits isRequest (requestCertificateForCsr E c order bundle csr privateKeyPem).
Proof.
  unfold requestCertificateForCsr.
  apply emits_bind; [apply emits_index|]. intros commonName.
  apply emits_bind; [apply emits_postJSON_csr|]. intros [[hdr retOrder] err].
  destruct err; [emits_step|]. destruct (String.eqb _ statusInvalid); [emits_step|].
  assert (Hpoll : forall certRes,
    emits isRequest
      (M_bind _ _ (fun ticks => pollLoop E order retOrder certRes bundle ticks)
              (fun s => Some (s, clock E (world s))))).
  { intros certRes. apply emits_bind; [|intros; apply emits_pollLoop].
    intros s s' a [= <- <-]. exists []. by rewrite app_nil_r. }
  destruct (String.eqb _ statusValid); [|apply Hpoll].
  apply emits_bind; [apply emits_checkCertResponse|]. intros [[ok err] certRes'].
  destruct err; [emits_step|]. destruct ok; [emits_step|]. apply Hpoll.
Qed.

(** ** Results of the finalizer *)

Lemma yields_ret {A} (Q : A -> Prop) (a : A) : Q a -> yields Q (@ret W A a).
Proof. intros HQ s s' a' [= <- <-]. exact HQ. Qed.

Lemma yields_panic {A} (Q : A -> Prop) : yields Q (@panic W A).
Proof. intros s s' a [=]. Qed.

Lemma yields_bind {A B} (Q : B -> Prop) (m : @M W A) (f : A -> @M W B) :
  (forall a, yields Q (f a)) -> yields Q (M_bind A B f m).
Proof.
  intros Hf s s' b Hrun. apply bind_Some in Hrun as (s1 & a & _ & H2).
  by eapply Hf.
Qed.

Ltac yields_step :=
  match goal with
  | |- yields _ (mbind _ _) => apply yields_bind; intros
  | |- yields _ (mret _) => apply yields_ret
  | |- yields _ (ret _) => apply yields_ret
  | |- yields _ panic => apply yields_panic
  | |- yields _ (match ?x with _ => _ end) => destruct x
  end.

(** [checkCertResponse] never changes the resource's [Domain]. *)
Lemma checkCertResponse_Domain order certRes bundle :
  yields (fun r => cr_Domain r.2 = cr_Domain certRes)
         (checkCertResponse E order certRes bundle).
Proof.
  unfold checkCertResponse. repeat (yields_step; try reflexivity).
Qed.

Lemma pollLoop_Domain order retOrder certRes bundle ticks :
  yields (fun r => forall cr, r.1 = Some cr -> cr_Domain cr = cr_Domain certRes)
         (pollLoop E order retOrder certRes bundle ticks).
Proof.
  revert retOrder certRes.
  induction ticks as [|[|] ticks IH]; intros retOrder certRes; cbn [pollLoop].
  - yields_step.
  - yields_step. by intros cr [=].
  - intros s s' r Hrun.
    apply bind_Some in Hrun as (s1 & [retOrder' err] & _ & Hrun).
    destruct err as [e|]; [injection Hrun as <- <-; by intros cr [=]|].
    apply bind_Some in Hrun as (s2 & [[done err] certRes'] & Hchk & Hrun).
    apply checkCertResponse_Domain in Hchk. cbn in Hchk.
    destruct err as [e|]; [injection Hrun as <- <-; by intros cr [=]|].
    destruct done.
    + injection Hrun as <- <-. by intros cr [= <-].
    + rewrite <- Hchk. by eapply IH.
Qed.

Lemma requestCertificateForCsr_Domain c order bundle csr privateKeyPem d ds :
  or_Domains order = d :: ds ->
  yields (fun r => forall cr, r.1 = Some cr -> cr_Domain cr = d)
         (requestCertificateForCsr E c order bundle csr privateKeyPem).
Proof.
  intros Hdom s s' r. unfold requestCertificateForCsr. rewrite Hdom.
  cbn [index lookup list_lookup]. intros Hrun.
  apply bind_Some in Hrun as (s0 & commonName & [= <- <-] & Hrun).
  apply bind_Some in Hrun as (s1 & [[hdr retOrder] err] & _ & Hrun).
  destruct err as [e|]; [injection Hrun as <- <-; by intros cr [=]|].
  destruct (String.eqb _ statusInvalid); [injection Hrun as <- <-; by intros cr [=]|].
  assert (Hpoll : forall certRes t, cr_Domain certRes = d ->
    bind (fun s => Some (s, clock E (world s)))
         (fun ticks => pollLoop E order retOrder certRes bundle ticks) t
      = Some (s', r) ->
    forall cr, r.1 = Some cr -> cr_Domain cr = d).
  { intros certRes t Hd Hp. apply bind_Some in Hp as (t1 & ticks & _ & Hp).
    rewrite <- Hd. by eapply pollLoop_Domain. }
  destruct (String.eqb _ statusValid);
    [|eapply Hpoll; [|exact Hrun]; reflexivity].
  apply bind_Some in Hrun as (s2 & [[ok err] certRes'] & Hchk & Hrun).
  apply checkCertResponse_Domain in Hchk. cbn in Hchk.
  destruct err as [e|]; [injection Hrun as <- <-; by intros cr [=]|].
  destruct ok; [injection Hrun as <- <-; by intros cr [= <-]|].
  eapply Hpoll; [|exact Hrun]. exact Hchk.
Qed.

Lemma createOrder_Domains c (domains : list string) s s' order :
  createOrderForIdentifiers E c domains s = Some (s', (order, None)) ->
  or_Domains order = domains.
Proof.
  unfold createOrderForIdentifiers. run.
  destruct (postJSON_order E _ _ _ _) as [w [[hdr response] [e|]]]; cbn.
  - intros [=].
  - by intros [= <- <-].
Qed.

(** How a run of [requestCertificateForOrder] on an order whose domain
    list starts with [d] proceeds: either key generation fails and nothing
    is sent, or the CSR is generated for common name [d] before any request
    of the finalizer. *)
Lemma requestCertificateForOrder_commonName c order bundle privKey mustStaple
    d ds t t' cert err :
  or_Domains order = d :: ds ->
  requestCertificateForOrder E c order bundle privKey mustStaple t
    = Some (t', (cert, err)) ->
  (cert = None /\ trace t' = trace t) \/
  (exists san new,
      trace t' = trace t ++ EvGenerateCsr d san mustStaple :: new /\
      Forall isRequest new /\
      forall cr, cert = Some cr -> cr_Domain cr = d).
Proof.
  intros Hdom. unfold requestCertificateForOrder. rewrite Hdom.
  cbn [index lookup list_lookup]. intros Hrun.
  apply bind_Some in Hrun as (t1 & [pk kerr] & Hkey & Hrun).
  assert (Ht1 : trace t1 = trace t).
  { destruct privKey; run.
    - by injection Hkey as <- _ _.
    - destruct (generatePrivateKey E _ _) as [w r]. by injection Hkey as <- _. }
  destruct kerr as [e|].
  { injection Hrun as <- <- <-. by left. }
  right.
  apply bind_Some in Hrun as (t2 & commonName & [= <- <-] & Hrun).
  apply bind_Some in Hrun as (t3 & [] & [= <-] & Hrun).
  apply bind_Some in Hrun as (t4 & [csr cerr] & Hcsr & Hrun).
  pose proof (emits_call isRequest _ _ _ _ Hcsr) as (new1 & Htr1 & Hnew1).
  cbn [trace] in Htr1. eexists. 
  destruct cerr as [e|].
  - injection Hrun as <- <- <-. exists new1. rewrite Htr1, Ht1, <- app_assoc.
    split; [done|]. split; [done|]. by intros cr [=].
  - pose proof (emits_requestCertificateForCsr _ _ _ _ _ _ _ _ Hrun)
      as (new2 & Htr2 & Hnew2).
    exists (new1 ++ new2). rewrite Htr2, Htr1, Ht1, <- !app_assoc.
    split; [done|]. split; [by apply Forall_app|].
    intros cr ->.
    by eapply (requestCertificateForCsr_Domain _ _ _ _ _ _ _ Hdom _ _ _ Hrun).
Qed.


(** ** The finalizer on an [invalid] order *)

Lemma checkCertResponse_not_valid order certRes bundle s :
  om_Status order ≠ statusValid ->
  checkCertResponse E order certRes bundle s =
    Some (s, (false,
              if String.eqb (om_Status order) statusInvalid
              then Some (ErrorString "order has invalid state: invalid") else None,
              certRes)).
Proof.
  intros Hnv. unfold checkCertResponse.
  destruct (String.eqb_spec (om_Status order) statusValid) as [|_]; [done|].
  destruct (String.eqb _ "processing") eqn:Hp.
  - apply String.eqb_eq in Hp as ->. reflexivity.
  - by destruct (String.eqb _ statusInvalid).
Qed.

(** A poll answer that reports [invalid] ends the poll with the error
    "order has invalid state: invalid". *)
Lemma pollLoop_invalid order retOrder certRes bundle ticks s w polled :
  postAsGet_order E (st_jws s) (or_URL order) retOrder (world s)
    = (w, (polled, None)) ->
  om_Status polled = statusInvalid ->
  exists s',
    pollLoop E order retOrder certRes bundle (RetryTick :: ticks) s =
      Some (s', (None, Some (ErrorString "order has invalid state: invalid"))).
Proof.
  intros Hpoll Hinv. cbn [pollLoop]. run. rewrite Hpoll. cbn.
  rewrite checkCertResponse_not_valid by (by rewrite Hinv).
  rewrite Hinv. cbn. eauto.
Qed.

(** C2: when the CA's answer to the finalize request itself reports the
    status [invalid], [requestCertificateForCsr] stops at once and returns
    no certificate, but the error it returns is nil: the statement
    [return nil, err] is reached only when [err] is nil. *)
Theorem finalize_invalid_returns_nil_error c order bundle (csr : list byte)
    (privateKeyPem : option (list byte)) (d : string) (ds : list string) s
    (w : W) (hdr : Header) (retOrder : orderMessage) :
  or_Domains order = d :: ds ->
  postJSON_csr E (st_jws s) (om_Finalize (or_msg order))
    {| Csr := base64RawURL E csr |} (world s) = (w, (hdr, retOrder, None)) ->
  om_Status retOrder = statusInvalid ->
  exists s',
    requestCertificateForCsr E c order bundle csr privateKeyPem s
      = Some (s', (None, None)) /\
    trace s' = trace s ++ [EvPostJSON (om_Finalize (or_msg order))
                                      (PCsr {| Csr := base64RawURL E csr |})].
Proof.
  intros Hdom Hpost Hinv. unfold requestCertificateForCsr. rewrite Hdom.
  cbn [index lookup list_lookup]. run. rewrite Hpost. cbn. rewrite Hinv. cbn.
  eexists. split; reflexivity.
Qed.

(** ** The finalize poll's deadline *)

Lemma pollLoop_timeout order bundle :
  (forall j url old w, exists w' polled,
      postAsGet_order E j url old w = (w', (polled, None)) /\
      nonTerminal (om_Status polled)) ->
  forall ticks, StopTimer ∈ ticks ->
  forall retOrder certRes s, exists s',
    pollLoop E order retOrder certRes bundle ticks s =
      Some (s', (None, Some (ErrorString "certificate polling timed out"))).
Proof.
  intros Hca ticks. induction ticks as [|[|] ticks IH]; intros Hin retOrder certRes s.
  - by apply elem_of_nil in Hin.
  - cbn. eauto.
  - apply elem_of_cons in Hin as [|Hin]; [done|].
    cbn [pollLoop]. run.
    destruct (Hca (st_jws s) (or_URL order) retOrder (world s))
      as (w' & polled & -> & Hnv & Hni).
    cbn. rewrite checkCertResponse_not_valid by done.
    destruct (String.eqb_spec (om_Status polled) statusInvalid) as [|_]; [done|].
    cbn. apply IH. exact Hin.
Qed.

(** C8: if the finalize request is answered with a status that is neither
    [valid] nor [invalid], every later poll is answered, without error,
    with such a status too, and the deadline timer is eventually received
    by the poll's [select], then [requestCertificateForCsr] returns the
    error "certificate polling timed out" and no certificate. *)
Theorem finalize_poll_times_out c order bundle (csr : list byte)
    (privateKeyPem : option (list byte)) (d : string) (ds : list string) s
    (w : W) (hdr : Header) (retOrder : orderMessage) :
  or_Domains order = d :: ds ->
  postJSON_csr E (st_jws s) (om_Finalize (or_msg order))
    {| Csr := base64RawURL E csr |} (world s) = (w, (hdr, retOrder, None)) ->
  nonTerminal (om_Status retOrder) ->
  (forall j url old w, exists w' polled,
      postAsGet_order E j url old w = (w', (polled, None)) /\
      nonTerminal (om_Status polled)) ->
  StopTimer ∈ clock E w ->
  exists s',
    requestCertificateForCsr E c order bundle csr privateKeyPem s
      = Some (s', (None, Some (ErrorString "certificate polling timed out"))).
Proof.
  intros Hdom Hpost [Hnv Hni] Hca Hstop. unfold requestCertificateForCsr.
  rewrite Hdom. cbn [index lookup list_lookup]. run. rewrite Hpost. cbn.
  destruct (String.eqb_spec (om_Status retOrder) statusInvalid) as [|_]; [done|].
  destruct (String.eqb_spec (om_Status retOrder) statusValid) as [|_]; [done|].
  cbn. by apply pollLoop_timeout.
Qed.

(** ** The challenge-solver coordinator *)

Lemma yields_foldM {A B} (Inv : B -> Prop) (f : B -> A -> @M W B) (l : list A) :
  (forall b x, x ∈ l -> Inv b -> yields Inv (f b x)) ->
  forall b, Inv b -> yields Inv (foldM f l b).
Proof.
  induction l as [|x l IH]; intros Hf b Hb s s' b'; cbn [foldM].
  - by intros [= <- <-].
  - intros Hrun. apply bind_Some in Hrun as (s1 & b1 & H1 & H2).
    eapply IH; [| |exact H2].
    + intros b0 y Hy. apply Hf. by right.
    + eapply Hf; [by left|exact Hb|exact H1].
Qed.

Lemma selectStep_valid c acc authz :
  authz_Status authz = statusValid -> selectStep c acc authz = acc.
Proof.
  intros Hv. unfold selectStep. destruct acc as [authSolvers failures].
  by rewrite Hv.
Qed.

(** The select pass never picks, and never fails, a domain all of whose
    authorizations are valid. *)
Lemma select_skips_valid c (d : string) (authorizations : list authorization) :
  (forall b, b ∈ authorizations -> domainOf b = d -> authz_Status b = statusValid) ->
  forall authSolvers failures,
    Forall (fun item => domainOf (sas_authz item) ≠ d) authSolvers ->
    failures !! d = None ->
    Forall (fun item => domainOf (sas_authz item) ≠ d)
           (fold_left (selectStep c) authorizations (authSolvers, failures)).1 /\
    (fold_left (selectStep c) authorizations (authSolvers, failures)).2 !! d = None.
Proof.
  induction authorizations as [|a l IH]; intros Hvalid authSolvers failures Hit Hf.
  - by cbn.
  - cbn [fold_left].
    assert (Hl : forall b, b ∈ l -> domainOf b = d -> authz_Status b = statusValid).
    { intros b Hb. apply Hvalid. by right. }
    assert (Hstep :
      Forall (fun item => domainOf (sas_authz item) ≠ d)
             (selectStep c (authSolvers, failures) a).1 /\
      (selectStep c (authSolvers, failures) a).2 !! d = None).
    { unfold selectStep.
      destruct (String.eqb_spec (authz_Status a) statusValid) as [Hv|Hnv]; [done|].
      assert (Hd : domainOf a ≠ d).
      { intros Heq. apply Hnv, Hvalid; [by left|done]. }
      destruct (chooseSolver c a (domainOf a)) as [i [solvr|]]; cbn [fst snd].
      - split; [|done]. apply Forall_app. split; [done|]. by constructor.
      - split; [done|]. by rewrite lookup_insert_ne. }
    destruct (selectStep c (authSolvers, failures) a) as [authSolvers' failures'].
    destruct Hstep. by apply IH.
Qed.

Section ForDomain.

Context (d : string).

Lemma callSolver_PreSolve_quiet method ch domain :
  domain ≠ d -> emits (quietFor d) (@callSolver W EvPreSolve method ch domain).
Proof.
  intros Hd. unfold callSolver. repeat emits_step.
  unfold quietFor. cbn. congruence.
Qed.

Lemma callSolver_Solve_quiet method ch domain :
  domain ≠ d -> emits (quietFor d) (@callSolver W EvSolve method ch domain).
Proof.
  intros Hd. unfold callSolver. repeat emits_step.
  unfold quietFor. cbn. congruence.
Qed.

Lemma callSolver_CleanUp_quiet method ch domain :
  domain ≠ d -> emits (quietFor d) (@callSolver W EvCleanUp method ch domain).
Proof.
  intros Hd. unfold callSolver. repeat emits_step.
  unfold quietFor. cbn. congruence.
Qed.

Lemma preSolveStep_quiet failures item :
  domainOf (sas_authz item) ≠ d -> emits (quietFor d) (preSolveStep failures item).
Proof.
  intros Hd. unfold preSolveStep. destruct (PreSolve _); [|emits_step].
  emits_step; [emits_step|]. 
  apply emits_bind; [by apply callSolver_PreSolve_quiet|]. intros.
  repeat emits_step.
Qed.

Lemma solveStep_quiet failures item :
  domainOf (sas_authz item) ≠ d -> emits (quietFor d) (solveStep failures item).
Proof.
  intros Hd. unfold solveStep. destruct (_ !! _); [emits_step|].
  emits_step; [emits_step|].
  apply emits_bind; [by apply callSolver_Solve_quiet|]. intros.
  repeat emits_step.
Qed.

Lemma cleanUpStep_quiet failures u item :
  domainOf (sas_authz item) ≠ d -> emits (quietFor d) (cleanUpStep failures u item).
Proof.
  intros Hd. unfold cleanUpStep. destruct (CleanUp _); [|emits_step].
  destruct (_ !! _); [emits_step|].
  emits_step; [emits_step|].
  apply emits_bind; [by apply callSolver_CleanUp_quiet|]. intros.
  repeat emits_step.
Qed.

Lemma preSolveStep_keeps failures item :
  domainOf (sas_authz item) ≠ d -> failures !! d = None ->
  yields (fun failures' => failures' !! d = None) (preSolveStep failures item).
Proof.
  intros Hd Hf. unfold preSolveStep.
  repeat (yields_step; try done). by rewrite lookup_insert_ne.
Qed.

Lemma solveStep_keeps failures item :
  domainOf (sas_authz item) ≠ d -> failures !! d = None ->
  yields (fun failures' => failures' !! d = None) (solveStep failures item).
Proof.
  intros Hd Hf. unfold solveStep.
  repeat (yields_step; try done). by rewrite lookup_insert_ne.
Qed.

(** No solver is called for [d], and no failure is recorded under [d],
    when every authorization for [d] is valid. *)
Lemma solveChallengeForAuthz_quiet c (authorizations : list authorization) s s' err :
  (forall b, b ∈ authorizations -> domainOf b = d -> authz_Status b = statusValid) ->
  solveChallengeForAuthz c authorizations s = Some (s', err) ->
  exists new,
    trace s' = trace s ++ new /\
    solverCallsFor d new = 0%nat /\
    forall failures, err = Some (ObtainError failures) -> failures !! d = None.
Proof.
  intros Hvalid. unfold solveChallengeForAuthz.
  destruct (select_skips_valid c d authorizations Hvalid [] ∅) as [Hitems Hfail];
    [constructor|apply lookup_empty|].
  destruct (fold_left _ _ _) as [authSolvers failures0]. cbn [fst snd] in *.
  rewrite Forall_forall in Hitems.
  intros Hrun.
  apply bind_Some in Hrun as (s1 & failures1 & Hpre & Hrun).
  apply bind_Some in Hrun as (s2 & failures2 & Hsolve & Hrun).
  apply bind_Some in Hrun as (s3 & [] & Hclean & [= <- <-]).
  assert (Hf1 : failures1 !! d = None).
  { eapply (yields_foldM (fun f => f !! d = None)); [|exact Hfail|exact Hpre].
    intros b x Hx Hb. apply preSolveStep_keeps; [|done].
    by apply Hitems. }
  assert (Hf2 : failures2 !! d = None).
  { eapply (yields_foldM (fun f => f !! d = None)); [|exact Hf1|exact Hsolve].
    intros b x Hx Hb. apply solveStep_keeps; [|done].
    by apply Hitems. }
  eapply (emits_foldM (quietFor d)) in Hpre as (new1 & Htr1 & Hq1);
    [|intros b x Hx; by apply preSolveStep_quiet, Hitems].
  eapply (emits_foldM (quietFor d)) in Hsolve as (new2 & Htr2 & Hq2);
    [|intros b x Hx; by apply solveStep_quiet, Hitems].
  eapply (emits_foldM (quietFor d)) in Hclean as (new3 & Htr3 & Hq3);
    [|intros b x Hx; by apply cleanUpStep_quiet, Hitems].
  exists (new1 ++ new2 ++ new3). split; [|split].
  - rewrite Htr3, Htr2, Htr1, <- !app_assoc. reflexivity.
  - unfold solverCallsFor.
    assert (Hq : Forall (quietFor d) (new1 ++ new2 ++ new3)) by (by rewrite !Forall_app).
    induction Hq as [|e l He _ IH]; [reflexivity|].
    rewrite filter_cons_False by exact He. exact IH.
  - intros failures Herr. unfold errOf in Herr.
    case_bool_decide; [|done]. by injection Herr as <-.
Qed.

End ForDomain.

(** The deferred cleanup calls [CleanUp] only for domains that have no
    entry in the failure map it is run with, which is the map as the solve
    pass leaves it. *)
Lemma cleanUp_only_without_failure (failures : gmap string error)
    (authSolvers : list (@selectedAuthSolver W)) :
  emits (fun e => forall ch d, e = EvCleanUp ch d -> failures !! d = None)
        (foldM (cleanUpStep failures) authSolvers tt).
Proof.
  apply emits_foldM. intros [] item _. unfold cleanUpStep.
  destruct (CleanUp _); [|emits_step].
  destruct (failures !! _) eqn:Hf; [emits_step|].
  emits_step; [emits_step|]. unfold callSolver.
  repeat emits_step. by intros ch' d' [= <- <-].
Qed.

(** The pre-solve and solve passes make no cleanup call. *)
Lemma preSolveStep_no_cleanup (P : event -> Prop) failures item :
  (forall ch d, P (EvPreSolve ch d)) -> emits P (preSolveStep failures item).
Proof.
  intros HP. unfold preSolveStep, callSolver. repeat emits_step. apply HP.
Qed.

Lemma solveStep_no_cleanup (P : event -> Prop) failures item :
  (forall ch d, P (EvSolve ch d)) -> emits P (solveStep failures item).
Proof.
  intros HP. unfold solveStep, callSolver. repeat emits_step. apply HP.
Qed.

(** In every run of the coordinator, a domain that the returned
    [ObtainError] reports as failed, in whichever pass it failed, has had
    no cleanup call. *)
Lemma cleanup_never_for_reported_failure c authorizations s s' failures :
  solveChallengeForAuthz c authorizations s = Some (s', Some (ObtainError failures)) ->
  exists new,
    trace s' = trace s ++ new /\
    forall ch d, EvCleanUp ch d ∈ new -> failures !! d = None.
Proof.
  unfold solveChallengeForAuthz.
  destruct (fold_left _ _ _) as [authSolvers failures0]. intros Hrun.
  apply bind_Some in Hrun as (s1 & failures1 & Hpre & Hrun).
  apply bind_Some in Hrun as (s2 & failures2 & Hsolve & Hrun).
  apply bind_Some in Hrun as (s3 & [] & Hclean & [= <- Herr]).
  unfold errOf in Herr. case_bool_decide; [|done]. injection Herr as ->.
  set (P := fun e => forall ch d, e = EvCleanUp ch d -> failures !! d = None).
  eapply (emits_foldM P) in Hpre as (new1 & Htr1 & Hq1);
    [|intros b x _; by apply preSolveStep_no_cleanup].
  eapply (emits_foldM P) in Hsolve as (new2 & Htr2 & Hq2);
    [|intros b x _; by apply solveStep_no_cleanup].
  apply cleanUp_only_without_failure in Hclean as (new3 & Htr3 & Hq3).
  exists (new1 ++ new2 ++ new3). split.
  - rewrite Htr3, Htr2, Htr1, <- !app_assoc. reflexivity.
  - intros ch d Hin.
    assert (Hall : Forall P (new1 ++ new2 ++ new3)) by (by rewrite !Forall_app).
    rewrite Forall_forall in Hall. by eapply Hall.
Qed.

(** C6: an authorization whose status is already [valid] takes no part in
    the coordinator's run: the run is the one of the list without it (same
    solver calls in the same order, same final state, same returned error);
    and when no authorization that is not valid names the same domain, the
    run makes no pre-solve, solve or cleanup call for that domain and its
    failure map has no entry for it. *)
Theorem valid_authorization_is_skipped c (pre post : list authorization)
    (a : authorization) s :
  authz_Status a = statusValid ->
  solveChallengeForAuthz c (pre ++ a :: post) s
    = solveChallengeForAuthz c (pre ++ post) s /\
  ((forall b, b ∈ pre ++ post -> domainOf b = domainOf a ->
              authz_Status b = statusValid) ->
   forall s' err,
     solveChallengeForAuthz c (pre ++ a :: post) s = Some (s', err) ->
     exists new,
       trace s' = trace s ++ new /\
       solverCallsFor (domainOf a) new = 0%nat /\
       forall failures, err = Some (ObtainError failures) ->
                        failures !! domainOf a = None).
Proof.
  intros Hv. split.
  - unfold solveChallengeForAuthz. rewrite !fold_left_app. cbn [fold_left].
    by rewrite selectStep_valid.
  - intros Hothers s' err Hrun.
    eapply solveChallengeForAuthz_quiet; [|exact Hrun].
    intros b Hb Hd. apply elem_of_app in Hb as [Hb|Hb].
    + apply Hothers; [|done]. apply elem_of_app. by left.
    + apply elem_of_cons in Hb as [->|Hb]; [done|].
      apply Hothers; [|done]. apply elem_of_app. by right.
Qed.

(** ** Error aggregation *)

Lemma errOf_aggregated failures : aggregated (errOf failures).
Proof.
  destruct (decide (failures = ∅)) as [->|Hne].
  - by left.
  - right. exists failures. split; [done|]. by apply errOf_nonempty.
Qed.

Lemma aggregated_wellFormed err : aggregated err -> wellFormedErr err.
Proof. by intros [->|(failures & Hne & ->)]. Qed.

Lemma solveChallengeForAuthz_aggregated c authorizations s s' err :
  solveChallengeForAuthz c authorizations s = Some (s', err) -> aggregated err.
Proof.
  unfold solveChallengeForAuthz.
  destruct (fold_left _ _ _) as [authSolvers failures0]. intros Hrun.
  apply bind_Some in Hrun as (s1 & failures1 & _ & Hrun).
  apply bind_Some in Hrun as (s2 & failures2 & _ & Hrun).
  apply bind_Some in Hrun as (s3 & [] & _ & [= <- <-]).
  apply errOf_aggregated.
Qed.

Lemma logAuthzFrom_spec (identifiers : list identifier) (i : nat)
    (authorizations : list string) s :
  logAuthzFrom identifiers i authorizations s =
    if bool_decide (length authorizations <= length identifiers - i)%nat
    then Some (s, tt) else None.
Proof.
  revert i. induction authorizations as [|a rest IH]; intros i; cbn [logAuthzFrom].
  - rewrite bool_decide_eq_true_2 by (cbn; lia). reflexivity.
  - unfold index. run.
    destruct (identifiers !! i) as [x|] eqn:Hi.
    + cbn. rewrite IH. apply lookup_lt_Some in Hi.
      repeat case_bool_decide; try done; exfalso; lia.
    + apply lookup_ge_None in Hi.
      rewrite bool_decide_eq_false_2; [done|]. cbn. lia.
Qed.

Lemma logAuthz_returns (order : orderResource) s s' (u : unit) :
  logAuthz order s = Some (s', u) -> s' = s.
Proof.
  unfold logAuthz. rewrite logAuthzFrom_spec.
  case_bool_decide; [by intros [= <-]|done].
Qed.

Lemma getAuthzForOrder_aggregated c order s s' responses err :
  getAuthzForOrder E c order s = Some (s', (responses, err)) -> aggregated err.
Proof.
  unfold getAuthzForOrder. intros Hrun.
  apply bind_Some in Hrun as (s1 & completions & _ & Hrun).
  destruct (fold_left _ _ _) as [responses' failures].
  apply bind_Some in Hrun as (s2 & u & _ & [= _ _ <-]). apply errOf_aggregated.
Qed.

Lemma createOrder_err_plain c domains s s' order err :
  createOrderForIdentifiers E c domains s = Some (s', (order, err)) ->
  wellFormedErr err.
Proof.
  unfold createOrderForIdentifiers. intros Hrun.
  apply bind_Some in Hrun as (s1 & [[hdr response] e] & _ & Hrun).
  destruct e; by injection Hrun as <- <- <-.
Qed.

Lemma ObtainCertificate_wellFormed c domains bundle privKey mustStaple s s' cert err :
  ObtainCertificate E c domains bundle privKey mustStaple s = Some (s', (cert, err)) ->
  wellFormedErr err.
Proof.
  unfold ObtainCertificate. case_bool_decide.
  { by intros [= <- <- <-]. }
  intros Hrun.
  apply bind_Some in Hrun as (s1 & [order e1] & Hcreate & Hrun).
  apply createOrder_err_plain in Hcreate.
  destruct e1 as [e1|]; [by injection Hrun as <- <- <-|].
  apply bind_Some in Hrun as (s2 & [authz e2] & Hfetch & Hrun).
  apply getAuthzForOrder_aggregated, aggregated_wellFormed in Hfetch.
  destruct e2 as [e2|]; [by injection Hrun as <- <- <-|].
  apply bind_Some in Hrun as (s3 & e3 & Hsolve & Hrun).
  apply solveChallengeForAuthz_aggregated, aggregated_wellFormed in Hsolve.
  destruct e3 as [e3|]; [by injection Hrun as <- <- <-|].
  apply bind_Some in Hrun as (s4 & [cert' e4] & _ & [= <- <- <-]).
  apply errOf_wellFormed.
Qed.

Lemma ObtainCertificateForCSR_wellFormed c csr bundle s s' cert err :
  ObtainCertificateForCSR E c csr bundle s = Some (s', (cert, err)) ->
  wellFormedErr err.
Proof.
  unfold ObtainCertificateForCSR. intros Hrun.
  apply bind_Some in Hrun as (s1 & [order e1] & Hcreate & Hrun).
  apply createOrder_err_plain in Hcreate.
  destruct e1 as [e1|]; [by injection Hrun as <- <- <-|].
  apply bind_Some in Hrun as (s2 & [authz e2] & Hfetch & Hrun).
  apply getAuthzForOrder_aggregated, aggregated_wellFormed in Hfetch.
  destruct e2 as [e2|]; [by injection Hrun as <- <- <-|].
  apply bind_Some in Hrun as (s3 & e3 & Hsolve & Hrun).
  apply solveChallengeForAuthz_aggregated, aggregated_wellFormed in Hsolve.
  destruct e3 as [e3|]; [by injection Hrun as <- <- <-|].
  apply bind_Some in Hrun as (s4 & [cert' e4] & _ & [= <- <- <-]).
  apply errOf_wellFormed.
Qed.

Lemma RenewCertificate_wellFormed c cert0 bundle mustStaple s s' cert err :
  RenewCertificate E c cert0 bundle mustStaple s = Some (s', (cert, err)) ->
  wellFormedErr err.
Proof.
  unfold RenewCertificate.
  destruct (parsePEMBundle E _) as [certificates [e|]].
  { by intros [= <- <- <-]. }
  intros Hrun.
  apply bind_Some in Hrun as (s1 & x509Cert & _ & Hrun).
  destruct (x_IsCA x509Cert); [by injection Hrun as <- <- <-|].
  case_bool_decide.
  - destruct (pemDecodeTox509CSR E _) as [csr [e|]].
    + by injection Hrun as <- <- <-.
    + by eapply ObtainCertificateForCSR_wellFormed.
  - destruct (match cr_PrivateKey cert0 with
              | Some pem => parsePEMPrivateKey E pem
              | None => (None, None)
              end) as [privKey [e|]].
    + by injection Hrun as <- <- <-.
    + by eapply ObtainCertificate_wellFormed.
Qed.


(** ** Renewal *)

Lemma renew_san_loop (commonName : string) (names acc : list string) :
  fold_left (fun domains sanDomain =>
               if String.eqb sanDomain commonName then domains
               else domains ++ [sanDomain]) names acc
  = acc ++ filter (fun sanDomain => sanDomain ≠ commonName) names.
Proof.
  revert acc. induction names as [|n names IH]; intros acc; cbn [fold_left].
  - by rewrite app_nil_r.
  - rewrite IH. destruct (String.eqb_spec n commonName) as [->|Hne].
    + by rewrite filter_cons_False by (by intros ?).
    + rewrite filter_cons_True by done. by rewrite <- app_assoc.
Qed.

(** C4 (as amended): a renewal with no preserved CSR, of a certificate that
    decodes, is not a CA certificate and whose private key, when present,
    parses, is the fresh issuance [ObtainCertificate] over this list: when
    the certificate has more than one DNS name, its common name followed by
    every DNS name different from the common name, in the certificate's
    order; when it has at most one DNS name, the common name alone. *)
Theorem RenewCertificate_rederives_domains c (cert : CertificateResource)
    (bundle mustStaple : bool) (x509Cert : Certificate) (rest : list Certificate)
    (privKey : PrivateKey) s :
  parsePEMBundle E (cr_Certificate cert) = (x509Cert :: rest, None) ->
  x_IsCA x509Cert = false ->
  cr_CSR cert = [] ->
  match cr_PrivateKey cert with
  | Some pem => parsePEMPrivateKey E pem
  | None => (None, None)
  end = (privKey, None) ->
  RenewCertificate E c cert bundle mustStaple s =
    ObtainCertificate E c
      (if bool_decide (1 < length (x_DNSNames x509Cert))%nat
       then x_CommonName x509Cert ::
            filter (fun d => d ≠ x_CommonName x509Cert) (x_DNSNames x509Cert)
       else [x_CommonName x509Cert])
      bundle privKey mustStaple s.
Proof.
  intros Hparse Hca Hcsr Hkey. unfold RenewCertificate.
  rewrite Hparse, Hcsr. cbn [index lookup list_lookup]. run.
  rewrite Hca. cbn. rewrite Hkey.
  unfold renewDomains. by rewrite renew_san_loop.
Qed.

(** * Further properties *)

(* [maxBodySize] is a large unary number: keep it folded. *)
Local Arguments maxBodySize : simpl never.

(** ** Solver selection *)

Lemma chooseSolverFrom_spec (solvers : gmap string (@solver W)) (i : nat)
    (challenges : list challenge) :
  match chooseSolverFrom solvers i challenges with
  | (k, Some solvr) =>
      exists j ch, k = (i + j)%nat /\ challenges !! j = Some ch /\
                   solvers !! ch_Type ch = Some solvr /\
                   forall j' ch', (j' < j)%nat -> challenges !! j' = Some ch' ->
                                  solvers !! ch_Type ch' = None
  | (k, None) =>
      k = 0%nat /\ forall ch, ch ∈ challenges -> solvers !! ch_Type ch = None
  end.
Proof.
  revert i. induction challenges as [|ch0 rest IH]; intros i; cbn [chooseSolverFrom].
  - split; [done|]. intros ch Hch. by apply elem_of_nil in Hch.
  - destruct (solvers !! ch_Type ch0) as [solvr|] eqn:H0.
    + exists 0%nat, ch0. split; [lia|]. split; [done|]. split; [done|]. lia.
    + specialize (IH (S i)).
      destruct (chooseSolverFrom solvers (S i) rest) as [k [solvr|]].
      * destruct IH as (j & ch & -> & Hj & Hs & Hbefore).
        exists (S j), ch. split; [lia|]. split; [done|]. split; [done|].
        intros [|j'] ch' Hlt Hch'; cbn in Hch'.
        -- by injection Hch' as <-.
        -- eapply Hbefore; [|done]. lia.
      * destruct IH as [-> Hnone]. split; [done|].
        intros ch Hch. apply elem_of_cons in Hch as [->|Hch]; [done|by apply Hnone].
Qed.

(** X1: [chooseSolver] picks the first challenge, in the order the server
    lists them, whose type has a registered solver, and returns that
    solver; it returns index 0 and no solver exactly when no challenge of
    the authorization has a registered type. *)
Theorem chooseSolver_first_match c (auth : authorization) (domain : string) :
  match chooseSolver c auth domain with
  | (i, Some solvr) =>
      exists ch, authz_Challenges auth !! i = Some ch /\
                 c_solvers c !! ch_Type ch = Some solvr /\
                 forall j ch', (j < i)%nat -> authz_Challenges auth !! j = Some ch' ->
                               c_solvers c !! ch_Type ch' = None
  | (i, None) =>
      i = 0%nat /\
      forall ch, ch ∈ authz_Challenges auth -> c_solvers c !! ch_Type ch = None
  end.
Proof.
  unfold chooseSolver.
  pose proof (chooseSolverFrom_spec (c_solvers c) 0 (authz_Challenges auth)) as H.
  destruct (chooseSolverFrom _ _ _) as [k [solvr|]]; [|done].
  destruct H as (j & ch & -> & Hj & Hs & Hbefore). eauto.
Qed.

(** ** The select pass *)

Lemma selectStep_wellSelected c (authorizations : list authorization)
    (a : authorization) (items : list selectedAuthSolver)
    (failures : gmap string error) :
  a ∈ authorizations ->
  Forall (wellSelected c authorizations) items ->
  Forall (wellSelected c authorizations) (selectStep c (items, failures) a).1.
Proof.
  intros Ha Hitems. unfold selectStep.
  destruct (String.eqb_spec (authz_Status a) statusValid) as [|Hnv]; [done|].
  pose proof (chooseSolverFrom_spec (c_solvers c) 0 (authz_Challenges a)) as Hch.
  unfold chooseSolver.
  destruct (chooseSolverFrom _ _ _) as [i [solvr|]]; [|done].
  cbn [fst]. apply Forall_app. split; [done|]. constructor; [|done].
  destruct Hch as (j & ch & -> & Hi & Hs & _).
  split; [done|]. split; [done|]. exists ch. by split.
Qed.

Lemma select_wellSelected_from c (authorizations l : list authorization)
    (items : list selectedAuthSolver) (failures : gmap string error) :
  (forall a, a ∈ l -> a ∈ authorizations) ->
  Forall (wellSelected c authorizations) items ->
  Forall (wellSelected c authorizations)
         (fold_left (selectStep c) l (items, failures)).1.
Proof.
  revert items failures. induction l as [|a l IH]; intros items failures Hsub Hitems.
  - done.
  - cbn [fold_left].
    pose proof (selectStep_wellSelected c authorizations a items failures) as Hstep.
    destruct (selectStep c (items, failures) a) as [items' failures'].
    apply IH.
    + intros b Hb. apply Hsub. by right.
    + apply Hstep; [|done]. apply Hsub. by left.
Qed.

Lemma selected_wellSelected c (authorizations : list authorization) :
  Forall (wellSelected c authorizations) (selected c authorizations).
Proof. by apply select_wellSelected_from. Qed.

(** ** The three passes of a run *)

Lemma emits_bind_ret {A B} (P : event -> Prop) (a : A) (f : A -> @M W B) :
  emits P (f a) -> emits P (M_bind A B f (ret a)).
Proof. intros Hf s s' b Hrun. by apply (Hf s s' b). Qed.

Lemma solveChallengeForAuthz_passes c (authorizations : list authorization)
    s s' err :
  solveChallengeForAuthz c authorizations s = Some (s', err) ->
  exists s1 s2 failures1 failures2,
    foldM preSolveStep (selected c authorizations)
          (selectFailures c authorizations) s = Some (s1, failures1) /\
    foldM solveStep (selected c authorizations) failures1 s1 = Some (s2, failures2) /\
    foldM (cleanUpStep failures2) (selected c authorizations) tt s2 = Some (s', tt) /\
    err = errOf failures2.
Proof.
  unfold solveChallengeForAuthz, selected, selectFailures.
  destruct (fold_left _ _ _) as [authSolvers failures0]. cbn [fst snd].
  intros Hrun.
  apply bind_Some in Hrun as (s1 & failures1 & Hpre & Hrun).
  apply bind_Some in Hrun as (s2 & failures2 & Hsolve & Hrun).
  apply bind_Some in Hrun as (s3 & [] & Hclean & [= <- <-]).
  by exists s1, s2, failures1, failures2.
Qed.

Lemma foldM_total {A B} (f : B -> A -> @M W B) (l : list A) :
  (forall b x s, x ∈ l -> exists s' b', f b x s = Some (s', b')) ->
  forall b s, exists s' b', foldM f l b s = Some (s', b').
Proof.
  induction l as [|x l IH]; intros Hf b s; cbn [foldM].
  - by exists s, b.
  - destruct (Hf b x s) as (s1 & b1 & H1); [by left|].
    destruct (IH (fun b x s Hx => Hf b x s (list_elem_of_further _ _ _ Hx)) b1 s1)
      as (s2 & b2 & H2).
    exists s2, b2. apply bind_Some. eauto.
Qed.

Lemma preSolveStep_total c authorizations failures item s :
  wellSelected c authorizations item ->
  exists s' failures', preSolveStep failures item s = Some (s', failures').
Proof.
  intros (_ & _ & ch & Hch & _). unfold preSolveStep, chosenChallenge in *.
  destruct (PreSolve _) as [presolve|]; [|by eexists _, _].
  unfold index. rewrite Hch. run.
  destruct (presolve _ _ _) as [w [e|]]; by eexists _, _.
Qed.

Lemma solveStep_total c authorizations failures item s :
  wellSelected c authorizations item ->
  exists s' failures', solveStep failures item s = Some (s', failures').
Proof.
  intros (_ & _ & ch & Hch & _). unfold solveStep, chosenChallenge in *.
  destruct (failures !! _); [by eexists _, _|].
  unfold index. rewrite Hch. run.
  destruct (Solve _ _ _ _) as [w [e|]]; by eexists _, _.
Qed.

Lemma cleanUpStep_total c authorizations failures u item s :
  wellSelected c authorizations item ->
  exists s' u', cleanUpStep failures u item s = Some (s', u').
Proof.
  intros (_ & _ & ch & Hch & _). unfold cleanUpStep, chosenChallenge in *.
  destruct (CleanUp _) as [clean|]; [|by eexists _, _].
  destruct (failures !! _); [by eexists _, _|].
  unfold index. rewrite Hch. run.
  destruct (clean _ _ _) as [w e]; by eexists _, _.
Qed.

(** X2: the coordinator returns whenever the solvers' calls do: the index
    it keeps with a selected authorization always designates one of that
    authorization's challenges, so no pass indexes [authz.Challenges] out
    of range, whatever the authorizations, the registered solvers and the
    solvers' answers. *)
Theorem solveChallengeForAuthz_never_panics c (authorizations : list authorization) s :
  exists s' err, solveChallengeForAuthz c authorizations s = Some (s', err).
Proof.
  pose proof (selected_wellSelected c authorizations) as Hsel.
  rewrite Forall_forall in Hsel.
  unfold solveChallengeForAuthz, selected in *.
  destruct (fold_left _ _ _) as [authSolvers failures0]. cbn [fst] in Hsel.
  destruct (foldM_total preSolveStep authSolvers) with (b := failures0) (s := s)
    as (s1 & failures1 & H1).
  { intros b x t Hx. eapply preSolveStep_total, Hsel, Hx. }
  destruct (foldM_total solveStep authSolvers) with (b := failures1) (s := s1)
    as (s2 & failures2 & H2).
  { intros b x t Hx. eapply solveStep_total, Hsel, Hx. }
  destruct (foldM_total (cleanUpStep failures2) authSolvers) with (b := tt) (s := s2)
    as (s3 & [] & H3).
  { intros b x t Hx. eapply cleanUpStep_total, Hsel, Hx. }
  exists s3, (errOf failures2).
  apply bind_Some. exists s1, failures1. split; [done|].
  apply bind_Some. exists s2, failures2. split; [done|].
  apply bind_Some. exists s3, tt. by split.
Qed.

(** ** What the passes call *)

Lemma solverCallFor_item c authorizations item ch
    (ev : challenge -> string -> event) :
  wellSelected c authorizations item ->
  chosenChallenge item = Some ch ->
  (forall ch d, solverEventDomain (ev ch d) = Some d /\
                (ev ch d = EvPreSolve ch d \/ ev ch d = EvSolve ch d \/
                 ev ch d = EvCleanUp ch d)) ->
  solverCallFor c authorizations (ev ch (domainOf (sas_authz item))).
Proof.
  intros (Hin & Hnv & ch' & Hch' & Hs) Hch Hev.
  assert (ch' = ch) as -> by congruence.
  assert (Hcall : exists a, a ∈ authorizations /\ authz_Status a ≠ statusValid /\
             domainOf a = domainOf (sas_authz item) /\ ch ∈ authz_Challenges a /\
             is_Some (c_solvers c !! ch_Type ch)).
  { exists (sas_authz item).
    split; [done|]. split; [done|]. split; [done|]. split.
    - apply list_elem_of_lookup. by exists (sas_challengeIndex item).
    - by rewrite Hs. }
  destruct (Hev ch (domainOf (sas_authz item))) as [_ [-> | [-> | ->]]]; exact Hcall.
Qed.

Lemma preSolveStep_calls c authorizations failures item :
  wellSelected c authorizations item ->
  emits (fun e => isPreSolve e /\ solverCallFor c authorizations e)
        (preSolveStep failures item).
Proof.
  intros Hsel. pose proof Hsel as (Hin & Hnv & ch & Hch & Hs).
  unfold preSolveStep. destruct (PreSolve _) as [presolve|]; [|emits_step].
  unfold chosenChallenge in Hch. unfold index. rewrite Hch.
  apply emits_bind_ret. unfold callSolver.
  apply emits_bind; [|intros; repeat emits_step].
  apply emits_bind; [|intros; emits_step].
  apply emits_emit. split; [exact I|].
  apply (solverCallFor_item c authorizations item ch EvPreSolve); auto.
Qed.

Lemma solveStep_calls c authorizations failures item :
  wellSelected c authorizations item ->
  emits (fun e => isSolve e /\ solverCallFor c authorizations e)
        (solveStep failures item).
Proof.
  intros Hsel. pose proof Hsel as (Hin & Hnv & ch & Hch & Hs).
  unfold solveStep. destruct (failures !! _); [emits_step|].
  unfold chosenChallenge in Hch. unfold index. rewrite Hch.
  apply emits_bind_ret. unfold callSolver.
  apply emits_bind; [|intros; repeat emits_step].
  apply emits_bind; [|intros; emits_step].
  apply emits_emit. split; [exact I|].
  apply (solverCallFor_item c authorizations item ch EvSolve); auto.
Qed.

Lemma cleanUpStep_calls c authorizations failures u item :
  wellSelected c authorizations item ->
  emits (fun e => isCleanUp e /\ solverCallFor c authorizations e)
        (cleanUpStep failures u item).
Proof.
  intros Hsel. pose proof Hsel as (Hin & Hnv & ch & Hch & Hs).
  unfold cleanUpStep. destruct (CleanUp _) as [clean|]; [|emits_step].
  destruct (failures !! _); [emits_step|].
  unfold chosenChallenge in Hch. unfold index. rewrite Hch.
  apply emits_bind_ret. unfold callSolver.
  apply emits_bind; [|intros; emits_step].
  apply emits_bind; [|intros; emits_step].
  apply emits_emit. split; [exact I|].
  apply (solverCallFor_item c authorizations item ch EvCleanUp); auto.
Qed.

Lemma solveChallengeForAuthz_calls c (authorizations : list authorization)
    s s' err :
  solveChallengeForAuthz c authorizations s = Some (s', err) ->
  exists pre sol cl,
    trace s' = trace s ++ pre ++ sol ++ cl /\
    Forall (fun e => isPreSolve e /\ solverCallFor c authorizations e) pre /\
    Forall (fun e => isSolve e /\ solverCallFor c authorizations e) sol /\
    Forall (fun e => isCleanUp e /\ solverCallFor c authorizations e) cl.
Proof.
  intros Hrun.
  apply solveChallengeForAuthz_passes in Hrun
    as (s1 & s2 & failures1 & failures2 & Hpre & Hsolve & Hclean & _).
  pose proof (selected_wellSelected c authorizations) as Hsel.
  rewrite Forall_forall in Hsel.
  eapply emits_foldM in Hpre as (pre & Htr1 & Hq1);
    [|intros b x Hx; by apply preSolveStep_calls, Hsel].
  eapply emits_foldM in Hsolve as (sol & Htr2 & Hq2);
    [|intros b x Hx; by apply solveStep_calls, Hsel].
  eapply emits_foldM in Hclean as (cl & Htr3 & Hq3);
    [|intros b x Hx; by apply cleanUpStep_calls, Hsel].
  exists pre, sol, cl. split; [|done].
  rewrite Htr3, Htr2, Htr1, <- !app_assoc. reflexivity.
Qed.

(** X3: the coordinator works in three strict phases: in every run, all
    pre-solve calls come first, then all solve calls, then all cleanup
    calls; no challenge is validated before every pre-solving solver has
    provisioned its material. *)
Theorem solver_calls_in_phase_order c (authorizations : list authorization)
    s s' err :
  solveChallengeForAuthz c authorizations s = Some (s', err) ->
  exists pre sol cl,
    trace s' = trace s ++ pre ++ sol ++ cl /\
    Forall isPreSolve pre /\ Forall isSolve sol /\ Forall isCleanUp cl.
Proof.
  intros Hrun.
  apply solveChallengeForAuthz_calls in Hrun as (pre & sol & cl & Htr & H1 & H2 & H3).
  exists pre, sol, cl. split; [done|].
  repeat split; (eapply Forall_impl; [eassumption|]); by intros e [? _].
Qed.

(** X4: the coordinator sends nothing to the CA itself, and every solver
    call it makes is for an authorization of its input that is not valid,
    with that authorization's domain and with one of that authorization's
    own challenges whose type has a registered solver. *)
Theorem solver_calls_are_for_pending_authorizations c
    (authorizations : list authorization) s s' err :
  solveChallengeForAuthz c authorizations s = Some (s', err) ->
  exists new,
    trace s' = trace s ++ new /\
    Forall (solverCallFor c authorizations) new.
Proof.
  intros Hrun.
  apply solveChallengeForAuthz_calls in Hrun as (pre & sol & cl & Htr & H1 & H2 & H3).
  exists (pre ++ sol ++ cl). split; [done|].
  rewrite !Forall_app.
  repeat split; (eapply Forall_impl; [eassumption|]); by intros e [_ ?].
Qed.

(** ** Failures only accumulate *)

Lemma selectStep_keeps_failures c (acc : list selectedAuthSolver * gmap string error)
    (a : authorization) (d : string) :
  is_Some (acc.2 !! d) -> is_Some ((selectStep c acc a).2 !! d).
Proof.
  destruct acc as [items failures]. cbn [snd]. intros Hd. unfold selectStep.
  destruct (String.eqb _ statusValid); [done|].
  destruct (chooseSolver c a (domainOf a)) as [i [solvr|]]; cbn [snd]; [done|].
  rewrite lookup_insert. by case_decide.
Qed.

Lemma select_keeps_failures c (l : list authorization)
    (acc : list selectedAuthSolver * gmap string error) (d : string) :
  is_Some (acc.2 !! d) -> is_Some ((fold_left (selectStep c) l acc).2 !! d).
Proof.
  revert acc. induction l as [|a l IH]; intros acc Hd; [done|].
  cbn [fold_left]. by apply IH, selectStep_keeps_failures.
Qed.

Lemma select_keeps_items c (l : list authorization)
    (acc : list selectedAuthSolver * gmap string error) item :
  item ∈ acc.1 -> item ∈ (fold_left (selectStep c) l acc).1.
Proof.
  revert acc. induction l as [|a l IH]; intros acc Hin; [done|].
  cbn [fold_left]. apply IH. destruct acc as [items failures]. unfold selectStep.
  destruct (String.eqb _ statusValid); [done|].
  destruct (chooseSolver c a (domainOf a)) as [i [solvr|]]; cbn [fst] in *; [|done].
  apply elem_of_app. by left.
Qed.

(** An authorization without a registered solver is entered in the
    failures of the select pass. *)
Lemma select_records_unsolvable c (l : list authorization)
    (acc : list selectedAuthSolver * gmap string error) (a : authorization) (i : nat) :
  a ∈ l -> authz_Status a ≠ statusValid ->
  chooseSolver c a (domainOf a) = (i, None) ->
  is_Some ((fold_left (selectStep c) l acc).2 !! domainOf a).
Proof.
  intros Hin Hnv Hch. revert acc.
  induction l as [|b l IH]; intros acc; [by apply elem_of_nil in Hin|].
  cbn [fold_left]. apply elem_of_cons in Hin as [<-|Hin]; [|by apply IH].
  apply select_keeps_failures. destruct acc as [items failures]. unfold selectStep.
  destruct (String.eqb_spec (authz_Status a) statusValid) as [|_]; [done|].
  rewrite Hch. cbn [snd]. rewrite lookup_insert_eq. by eexists.
Qed.

(** An authorization with a registered solver is among the selected pairs. *)
Lemma select_keeps_solvable c (l : list authorization)
    (acc : list selectedAuthSolver * gmap string error) (a : authorization)
    (i : nat) (solvr : solver) :
  a ∈ l -> authz_Status a ≠ statusValid ->
  chooseSolver c a (domainOf a) = (i, Some solvr) ->
  {| sas_authz := a; sas_challengeIndex := i; sas_solver := solvr |}
    ∈ (fold_left (selectStep c) l acc).1.
Proof.
  intros Hin Hnv Hch. revert acc.
  induction l as [|b l IH]; intros acc; [by apply elem_of_nil in Hin|].
  cbn [fold_left]. apply elem_of_cons in Hin as [<-|Hin]; [|by apply IH].
  apply select_keeps_items. destruct acc as [items failures]. unfold selectStep.
  destruct (String.eqb_spec (authz_Status a) statusValid) as [|_]; [done|].
  rewrite Hch. cbn [fst]. apply elem_of_app. right. by left.
Qed.

Lemma preSolveStep_grows failures item (d : string) :
  is_Some (failures !! d) ->
  yields (fun failures' => is_Some (failures' !! d)) (preSolveStep failures item).
Proof.
  intros Hd. unfold preSolveStep.
  repeat (yields_step; try done). rewrite lookup_insert. by case_decide.
Qed.

Lemma solveStep_grows failures item (d : string) :
  is_Some (failures !! d) ->
  yields (fun failures' => is_Some (failures' !! d)) (solveStep failures item).
Proof.
  intros Hd. unfold solveStep.
  repeat (yields_step; try done). rewrite lookup_insert. by case_decide.
Qed.

Lemma emits_foldM_inv {A B} (P : event -> Prop) (Inv : B -> Prop)
    (f : B -> A -> @M W B) (l : list A) :
  (forall b x, x ∈ l -> Inv b -> emits P (f b x)) ->
  (forall b x, x ∈ l -> Inv b -> yields Inv (f b x)) ->
  forall b, Inv b -> emits P (foldM f l b).
Proof.
  induction l as [|x l IH]; intros Hemit Hinv b Hb; cbn [foldM].
  - apply emits_ret.
  - intros s s' b' Hrun. apply bind_Some in Hrun as (s1 & b1 & H1 & H2).
    pose proof (Hinv b x (list_elem_of_here _ _) Hb _ _ _ H1) as Hb1.
    apply (Hemit b x (list_elem_of_here _ _) Hb) in H1 as (new1 & Htr1 & HP1).
    eapply IH in H2 as (new2 & Htr2 & HP2); [| | |exact Hb1].
    + exists (new1 ++ new2). rewrite Htr2, Htr1, app_assoc.
      split; [done|]. by apply Forall_app.
    + intros b0 y Hy. apply Hemit. by right.
    + intros b0 y Hy. apply Hinv. by right.
Qed.

(** Once a domain has a failure, the solve pass makes no call for it. *)
Lemma solveStep_skips_failed failures item (d : string) :
  is_Some (failures !! d) ->
  emits (fun e => forall ch, e ≠ EvSolve ch d /\ e ≠ EvCleanUp ch d)
        (solveStep failures item).
Proof.
  intros Hd. unfold solveStep.
  destruct (failures !! domainOf (sas_authz item)) eqn:Hf; [emits_step|].
  assert (domainOf (sas_authz item) ≠ d).
  { intros Heq. rewrite Heq in Hf. rewrite Hf in Hd. by destruct Hd. }
  unfold callSolver. repeat emits_step; try done.
  intros ch'. split; congruence.
Qed.

Lemma cleanUpStep_skips_failed failures u item (d : string) :
  is_Some (failures !! d) ->
  emits (fun e => forall ch, e ≠ EvSolve ch d /\ e ≠ EvCleanUp ch d)
        (cleanUpStep failures u item).
Proof.
  intros Hd. unfold cleanUpStep. destruct (CleanUp _); [|emits_step].
  destruct (failures !! domainOf (sas_authz item)) eqn:Hf; [emits_step|].
  assert (domainOf (sas_authz item) ≠ d).
  { intros Heq. rewrite Heq in Hf. rewrite Hf in Hd. by destruct Hd. }
  unfold callSolver. repeat emits_step; try done.
  intros ch'. split; congruence.
Qed.

Lemma preSolveStep_no_solve failures item (d : string) :
  emits (fun e => forall ch, e ≠ EvSolve ch d /\ e ≠ EvCleanUp ch d)
        (preSolveStep failures item).
Proof.
  apply preSolveStep_no_cleanup. intros ch d' ch'. by split.
Qed.

(** A domain that has a failure when the pre-solve pass ends is reported
    in the returned error and gets neither a solve nor a cleanup call. *)
Lemma failed_domain_is_abandoned c (authorizations : list authorization)
    s s1 s' (failures1 failures2 : gmap string error) (d : string) :
  foldM preSolveStep (selected c authorizations)
        (selectFailures c authorizations) s = Some (s1, failures1) ->
  foldM solveStep (selected c authorizations) failures1 s1 = Some (s', failures2) ->
  is_Some (failures1 !! d) ->
  is_Some (failures2 !! d) /\
  exists new1 new2,
    trace s1 = trace s ++ new1 /\ trace s' = trace s1 ++ new2 /\
    Forall (fun e => forall ch, e ≠ EvSolve ch d /\ e ≠ EvCleanUp ch d)
           (new1 ++ new2).
Proof.
  intros Hpre Hsolve Hd1.
  assert (Hd2 : is_Some (failures2 !! d)).
  { eapply (yields_foldM (fun f => is_Some (f !! d))); [|exact Hd1|exact Hsolve].
    intros b x _ Hb. by apply solveStep_grows. }
  split; [exact Hd2|].
  eapply emits_foldM in Hpre as (new1 & Htr1 & Hq1);
    [|intros b x _; apply preSolveStep_no_solve].
  eapply (emits_foldM_inv _ (fun f => is_Some (f !! d))) in Hsolve
    as (new2 & Htr2 & Hq2); [| | |exact Hd1].
  - exists new1, new2. split; [done|]. split; [done|]. by apply Forall_app.
  - intros b x _ Hb. by apply solveStep_skips_failed.
  - intros b x _ Hb. by apply solveStep_grows.
Qed.

Lemma abandoned_run c (authorizations : list authorization) s s' err (d : string) :
  solveChallengeForAuthz c authorizations s = Some (s', err) ->
  (forall s1 failures1,
      foldM preSolveStep (selected c authorizations)
            (selectFailures c authorizations) s = Some (s1, failures1) ->
      is_Some (failures1 !! d)) ->
  exists failures new,
    err = Some (ObtainError failures) /\ is_Some (failures !! d) /\
    trace s' = trace s ++ new /\
    forall ch, (EvSolve ch d ∉ new) /\ (EvCleanUp ch d ∉ new).
Proof.
  intros Hrun Hfailed.
  apply solveChallengeForAuthz_passes in Hrun
    as (s1 & s2 & failures1 & failures2 & Hpre & Hsolve & Hclean & ->).
  destruct (failed_domain_is_abandoned _ _ _ _ _ _ _ d Hpre Hsolve)
    as (Hd2 & new1 & new2 & Htr1 & Htr2 & Hq12); [by eapply Hfailed|].
  eapply (emits_foldM (fun e => forall ch, e ≠ EvSolve ch d /\ e ≠ EvCleanUp ch d))
    in Hclean as (new3 & Htr3 & Hq3);
    [|intros b x _; by apply cleanUpStep_skips_failed].
  exists failures2, (new1 ++ new2 ++ new3).
  split; [|split; [done|split]].
  - apply errOf_nonempty. intros ->. rewrite lookup_empty in Hd2. by destruct Hd2.
  - rewrite Htr3, Htr2, Htr1, <- !app_assoc. reflexivity.
  - intros ch.
    assert (Hall : Forall (fun e => forall ch, e ≠ EvSolve ch d /\ e ≠ EvCleanUp ch d)
                          (new1 ++ new2 ++ new3)).
    { rewrite app_assoc. by apply Forall_app. }
    rewrite Forall_forall in Hall.
    split; intros Hin; by destruct (Hall _ Hin ch).
Qed.

(** X5: an authorization that is not valid and none of whose challenges has
    a registered solver makes the coordinator fail: the returned
    [ObtainError] has an entry for its domain, and no solve or cleanup call
    is made for that domain. *)
Theorem unsolvable_authorization_is_reported c (authorizations : list authorization)
    (a : authorization) (i : nat) s s' err :
  a ∈ authorizations ->
  authz_Status a ≠ statusValid ->
  chooseSolver c a (domainOf a) = (i, None) ->
  solveChallengeForAuthz c authorizations s = Some (s', err) ->
  exists failures new,
    err = Some (ObtainError failures) /\ is_Some (failures !! domainOf a) /\
    trace s' = trace s ++ new /\
    forall ch, (EvSolve ch (domainOf a) ∉ new) /\ (EvCleanUp ch (domainOf a) ∉ new).
Proof.
  intros Hin Hnv Hch Hrun. eapply abandoned_run; [exact Hrun|].
  intros s1 failures1 Hpre.
  eapply (yields_foldM (fun f => is_Some (f !! domainOf a))); [| |exact Hpre].
  - intros b x _ Hb. by apply preSolveStep_grows.
  - by eapply select_records_unsolvable.
Qed.

(** ** A failing pre-solve *)

Lemma preSolveStep_records_failure c authorizations failures item presolve s s' failures' :
  wellSelected c authorizations item ->
  PreSolve (sas_solver item) = Some presolve ->
  (forall ch w, (presolve ch (domainOf (sas_authz item)) w).2 ≠ None) ->
  preSolveStep failures item s = Some (s', failures') ->
  is_Some (failures' !! domainOf (sas_authz item)).
Proof.
  intros (_ & _ & ch & Hch & _) Hpre Hfails. unfold preSolveStep, chosenChallenge in *.
  rewrite Hpre. unfold index. rewrite Hch. run.
  specialize (Hfails ch (world s)).
  destruct (presolve _ _ _) as [w [e|]]; cbn in *; [|done].
  intros [= <- <-]. rewrite lookup_insert_eq. by eexists.
Qed.

Lemma preSolve_pass_records_failure c authorizations (items : list selectedAuthSolver)
    item presolve :
  Forall (wellSelected c authorizations) items ->
  item ∈ items ->
  PreSolve (sas_solver item) = Some presolve ->
  (forall ch w, (presolve ch (domainOf (sas_authz item)) w).2 ≠ None) ->
  forall failures s s' failures',
    foldM preSolveStep items failures s = Some (s', failures') ->
    is_Some (failures' !! domainOf (sas_authz item)).
Proof.
  intros Hsel Hin Hpre Hfails.
  induction items as [|x items IH]; [by apply elem_of_nil in Hin|].
  intros failures s s' failures' Hrun. cbn [foldM] in Hrun.
  apply bind_Some in Hrun as (s1 & failures1 & Hstep & Hrest).
  apply Forall_cons in Hsel as [Hx Hsel].
  apply elem_of_cons in Hin as [->|Hin].
  - eapply (yields_foldM (fun f => is_Some (f !! domainOf (sas_authz x))));
      [| |exact Hrest].
    + intros b y _ Hb. by apply preSolveStep_grows.
    + by eapply preSolveStep_records_failure.
  - by eapply IH.
Qed.

(** X6: when the solver selected for an authorization has the pre-solve
    capability and its [PreSolve] fails for the authorization's domain, the
    coordinator reports the domain in the returned [ObtainError] and makes
    neither a solve nor a cleanup call for it. *)
Theorem failed_presolve_is_not_solved c (authorizations : list authorization)
    (a : authorization) (i : nat) (solvr : solver)
    (presolve : challenge -> string -> W -> W * option error) s s' err :
  a ∈ authorizations ->
  authz_Status a ≠ statusValid ->
  chooseSolver c a (domainOf a) = (i, Some solvr) ->
  PreSolve solvr = Some presolve ->
  (forall ch w, (presolve ch (domainOf a) w).2 ≠ None) ->
  solveChallengeForAuthz c authorizations s = Some (s', err) ->
  exists failures new,
    err = Some (ObtainError failures) /\ is_Some (failures !! domainOf a) /\
    trace s' = trace s ++ new /\
    forall ch, (EvSolve ch (domainOf a) ∉ new) /\ (EvCleanUp ch (domainOf a) ∉ new).
Proof.
  intros Hin Hnv Hch Hpre Hfails Hrun. eapply abandoned_run; [exact Hrun|].
  intros s1 failures1 Hpass.
  eapply (preSolve_pass_records_failure c authorizations _
            {| sas_authz := a; sas_challengeIndex := i; sas_solver := solvr |});
    [apply selected_wellSelected| |exact Hpre|exact Hfails|exact Hpass].
  by apply select_keeps_solvable.
Qed.

(** ** A run without failures *)

Lemma select_without_failures c (l : list authorization)
    (items : list selectedAuthSolver) (failures : gmap string error) :
  (fold_left (selectStep c) l (items, failures)).2 = ∅ ->
  failures = ∅ /\
  sas_authz <$> (fold_left (selectStep c) l (items, failures)).1
    = (sas_authz <$> items) ++ filter (fun a => authz_Status a ≠ statusValid) l.
Proof.
  revert items failures. induction l as [|a l IH]; intros items failures Hempty.
  - cbn in *. by rewrite app_nil_r.
  - cbn [fold_left] in *.
    destruct (selectStep c (items, failures) a) as [items1 failures1] eqn:Hstep.
    apply IH in Hempty as [-> Hmap]. rewrite Hmap. clear Hmap IH.
    unfold selectStep in Hstep.
    destruct (String.eqb_spec (authz_Status a) statusValid) as [Hv|Hnv].
    + injection Hstep as <- <-. split; [done|].
      by rewrite filter_cons_False by (by intros ?).
    + rewrite filter_cons_True by done.
      destruct (chooseSolver c a (domainOf a)) as [i [solvr|]].
      * injection Hstep as <- <-. split; [done|].
        rewrite fmap_app. cbn. by rewrite <- app_assoc.
      * injection Hstep as _ Hins. by apply insert_non_empty in Hins.
Qed.

Lemma preSolve_pass_trace (items : list selectedAuthSolver) failures s s' failures' :
  foldM preSolveStep items failures s = Some (s', failures') ->
  trace s' = trace s ++ preSolveCalls items.
Proof.
  revert failures s. induction items as [|item items IH]; intros failures s Hrun.
  - injection Hrun as <- _. by rewrite app_nil_r.
  - cbn [foldM] in Hrun. apply bind_Some in Hrun as (s1 & failures1 & Hstep & Hrest).
    apply IH in Hrest. rewrite Hrest. unfold preSolveCalls. cbn [mbind list_bind].
    rewrite app_assoc. f_equal.
    unfold preSolveStep, chosenChallenge, index in Hstep |- *.
    destruct (PreSolve _) as [presolve|].
    + destruct (authz_Challenges (sas_authz item) !! sas_challengeIndex item) as [ch|];
        [|run; discriminate]. run.
      destruct (presolve _ _ _) as [w [e|]]; by injection Hstep as <- _.
    + injection Hstep as <- _. by rewrite app_nil_r.
Qed.

Lemma solve_pass_without_failures (items : list selectedAuthSolver) failures s s' :
  foldM solveStep items failures s = Some (s', ∅) ->
  failures = ∅ /\ trace s' = trace s ++ solveCalls items.
Proof.
  revert failures s. induction items as [|item items IH]; intros failures s Hrun.
  - injection Hrun as <- ->. by rewrite app_nil_r.
  - cbn [foldM] in Hrun. apply bind_Some in Hrun as (s1 & failures1 & Hstep & Hrest).
    apply IH in Hrest as [-> Hrest]. rewrite Hrest.
    unfold solveCalls. cbn [mbind list_bind]. rewrite app_assoc.
    unfold solveStep, chosenChallenge, index in Hstep |- *.
    destruct (failures !! _) eqn:Hf.
    + injection Hstep as _ ->. by rewrite lookup_empty in Hf.
    + destruct (authz_Challenges (sas_authz item) !! sas_challengeIndex item) as [ch|];
        [|run; discriminate]. run.
      destruct (Solve _ _ _ _) as [w [e|]]; injection Hstep as <- Hf'.
      * by apply insert_non_empty in Hf'.
      * by subst.
Qed.

Lemma cleanUp_pass_without_failures (items : list selectedAuthSolver) s s' :
  foldM (cleanUpStep ∅) items tt s = Some (s', tt) ->
  trace s' = trace s ++ cleanUpCalls items.
Proof.
  revert s. induction items as [|item items IH]; intros s Hrun.
  - injection Hrun as <-. by rewrite app_nil_r.
  - cbn [foldM] in Hrun. apply bind_Some in Hrun as (s1 & [] & Hstep & Hrest).
    apply IH in Hrest. rewrite Hrest. unfold cleanUpCalls. cbn [mbind list_bind].
    rewrite app_assoc. f_equal.
    unfold cleanUpStep, chosenChallenge, index in Hstep |- *.
    rewrite lookup_empty in Hstep.
    destruct (CleanUp _) as [clean|].
    + destruct (authz_Challenges (sas_authz item) !! sas_challengeIndex item) as [ch|];
        [|run; discriminate]. run.
      destruct (clean _ _ _) as [w e]. by injection Hstep as <-.
    + injection Hstep as <-. by rewrite app_nil_r.
Qed.

(** X7: when the coordinator returns a nil error, every authorization that
    is not valid was selected, in input order, and the solver calls of the
    run are exactly: [PreSolve] for every selected pair whose solver has
    that capability, then [Solve] for every selected pair, then [CleanUp]
    for every selected pair whose solver has that capability, each pass in
    input order and each call with the pair's chosen challenge and domain. *)
Theorem successful_run_calls_every_solver c (authorizations : list authorization)
    s s' :
  solveChallengeForAuthz c authorizations s = Some (s', None) ->
  sas_authz <$> selected c authorizations
    = filter (fun a => authz_Status a ≠ statusValid) authorizations /\
  trace s' = trace s ++ preSolveCalls (selected c authorizations)
                     ++ solveCalls (selected c authorizations)
                     ++ cleanUpCalls (selected c authorizations).
Proof.
  intros Hrun.
  apply solveChallengeForAuthz_passes in Hrun
    as (s1 & s2 & failures1 & failures2 & Hpre & Hsolve & Hclean & Herr).
  symmetry in Herr. apply errOf_None in Herr as ->.
  apply solve_pass_without_failures in Hsolve as [-> Htr2].
  apply cleanUp_pass_without_failures in Hclean as Htr3.
  apply preSolve_pass_trace in Hpre as Htr1.
  assert (Hf0 : selectFailures c authorizations = ∅).
  { destruct (map_eq_dec_empty (selectFailures c authorizations)) as [|Hne]; [done|].
    exfalso. apply map_choose in Hne as (d & e & Hd).
    assert (Hsome : is_Some ((∅ : gmap string error) !! d)).
    { eapply (yields_foldM (fun f => is_Some (f !! d))); [| |exact Hpre].
      - intros b x _ Hb. by apply preSolveStep_grows.
      - by eexists. }
    rewrite lookup_empty in Hsome. by destruct Hsome. }
  split.
  - unfold selectFailures in Hf0. apply select_without_failures in Hf0 as [_ Hsel].
    exact Hsel.
  - rewrite Htr3, Htr2, Htr1, <- !app_assoc. reflexivity.
Qed.

(** ** Authorization retrieval *)

Lemma fetchAuthz_trace (authzURL : string) s s' m :
  fetchAuthz E authzURL s = Some (s', m) ->
  trace s' = trace s ++ [EvPostAsGet authzURL].
Proof.
  unfold fetchAuthz. run.
  destruct (postAsGet_authz E _ _ _) as [w [authz [e|]]]; cbn;
    by intros [= <- _].
Qed.

Lemma mapM_fetchAuthz (urls : list string) s s' completions :
  mapM (fetchAuthz E) urls s = Some (s', completions) ->
  trace s' = trace s ++ (EvPostAsGet <$> urls) /\
  length completions = length urls.
Proof.
  revert s completions. induction urls as [|url urls IH]; intros s completions Hrun.
  - injection Hrun as <- <-. by rewrite app_nil_r.
  - cbn [mapM] in Hrun.
    apply bind_Some in Hrun as (s1 & m & Hfetch & Hrun).
    apply bind_Some in Hrun as (s2 & ms & Hrest & [= <- <-]).
    apply fetchAuthz_trace in Hfetch. apply IH in Hrest as [Hrest Hlen].
    split; [|cbn; by rewrite Hlen].
    rewrite Hrest, Hfetch, <- app_assoc. reflexivity.
Qed.

(** X8: the authorization fetch sends exactly one POST-as-GET per
    authorization URL of the order, in the order's sequence, and nothing
    else, whether the individual fetches succeed or fail and in whatever
    order their results arrive. *)
Theorem getAuthzForOrder_one_request_per_url c order s s' responses err :
  getAuthzForOrder E c order s = Some (s', (responses, err)) ->
  trace s' = trace s ++ (EvPostAsGet <$> om_Authorizations (or_msg order)).
Proof.
  unfold getAuthzForOrder. intros Hrun.
  apply bind_Some in Hrun as (s1 & completions & Hfetch & Hrun).
  apply mapM_fetchAuthz in Hfetch as [Htr _].
  destruct (fold_left _ _ _) as [responses' failures].
  apply bind_Some in Hrun as (s2 & u & Hlog & [= <- _ _]).
  by apply logAuthz_returns in Hlog as ->.
Qed.

Lemma collect_count (l : list completion) (responses : list authorization)
    (failures : gmap string error) :
  exists failed : nat,
    (length (fold_left collectStep l (responses, failures)).1 + failed
       = length responses + length l)%nat /\
    ((fold_left collectStep l (responses, failures)).2 = ∅
       <-> failures = ∅ /\ failed = 0%nat).
Proof.
  revert responses failures. induction l as [|m l IH]; intros responses failures.
  - exists 0%nat. cbn. split; [lia|]. split; [done|by intros [? _]].
  - cbn [fold_left]. destruct m as [res|err]; cbn [collectStep].
    + destruct (IH (responses ++ [res]) failures) as (k & Hlen & Hemp).
      exists k. rewrite length_app in Hlen. cbn in *. split; [lia|done].
    + destruct (IH responses (<[de_Domain err := de_Error err]> failures))
        as (k & Hlen & Hemp).
      exists (S k). cbn. split; [lia|]. rewrite Hemp. split.
      * intros [Hins _]. by apply insert_non_empty in Hins.
      * intros [_ ?]. lia.
Qed.

(** X9: when every completion sent by a fetch goroutine is received once
    (the arrival order is a permutation), the fetch never returns more
    authorizations than the order has authorization URLs, and its error is
    nil exactly when it returns one authorization per URL. *)
Theorem getAuthzForOrder_nil_error_iff_complete c order s s' responses err :
  (forall completions, arrival E completions ≡ₚ completions) ->
  getAuthzForOrder E c order s = Some (s', (responses, err)) ->
  (length responses <= length (om_Authorizations (or_msg order)))%nat /\
  (err = None <-> length responses = length (om_Authorizations (or_msg order))).
Proof.
  intros Hperm. unfold getAuthzForOrder. intros Hrun.
  apply bind_Some in Hrun as (s1 & completions & Hfetch & Hrun).
  apply mapM_fetchAuthz in Hfetch as [_ Hlen].
  destruct (collect_count (arrival E completions) [] ∅) as (k & Hcount & Hemp).
  destruct (fold_left _ _ _) as [responses' failures].
  apply bind_Some in Hrun as (s2 & u & _ & [= _ <- <-]). cbn [fst snd length] in *.
  rewrite (Permutation_length (Hperm completions)), Hlen in Hcount.
  split; [lia|]. rewrite errOf_None, Hemp. split.
  - intros [_ ->]. lia.
  - intros Hall. split; [done|lia].
Qed.

(** ** Logging the authorizations *)

(** X10: [logAuthz] reads one identifier of the order per authorization
    URL: it completes, changing nothing, when the order has at least as
    many identifiers as authorization URLs, and it indexes
    [order.Identifiers] out of range (a run-time panic) when the CA's order
    lists fewer identifiers than authorizations. *)
Theorem logAuthz_needs_identifier_per_authorization (order : orderResource) s :
  @logAuthz W order s =
    if bool_decide (length (om_Authorizations (or_msg order))
                    <= length (om_Identifiers (or_msg order)))%nat
    then Some (s, tt) else None.
Proof.
  unfold logAuthz. rewrite logAuthzFrom_spec.
  repeat case_bool_decide; try done; exfalso; lia.
Qed.

(** ** What a returned certificate resource holds *)

(** The fields [checkCertResponse] never touches. *)
Lemma checkCertResponse_keeps order certRes bundle :
  yields (fun r => cr_Domain r.2 = cr_Domain certRes /\
                   cr_PrivateKey r.2 = cr_PrivateKey certRes /\
                   cr_CSR r.2 = cr_CSR certRes)
         (checkCertResponse E order certRes bundle).
Proof.
  unfold checkCertResponse. repeat (yields_step; try done).
Qed.

Lemma pollLoop_resource order retOrder certRes bundle ticks :
  yields (fun r => forall cr, r.1 = Some cr ->
                     r.2 = None /\
                     cr_Domain cr = cr_Domain certRes /\
                     cr_PrivateKey cr = cr_PrivateKey certRes /\
                     cr_CSR cr = cr_CSR certRes)
         (pollLoop E order retOrder certRes bundle ticks).
Proof.
  revert retOrder certRes.
  induction ticks as [|[|] ticks IH]; intros retOrder certRes; cbn [pollLoop].
  - yields_step.
  - yields_step. by intros cr [=].
  - intros s s' r Hrun.
    apply bind_Some in Hrun as (s1 & [retOrder' err] & _ & Hrun).
    destruct err as [e|]; [injection Hrun as <- <-; by intros cr [=]|].
    apply bind_Some in Hrun as (s2 & [[done err] certRes'] & Hchk & Hrun).
    apply checkCertResponse_keeps in Hchk as (Hd & Hk & Hc). cbn in Hd, Hk, Hc.
    destruct err as [e|]; [injection Hrun as <- <-; by intros cr [=]|].
    destruct done.
    + injection Hrun as <- <-. by intros cr [= <-].
    + rewrite <- Hd, <- Hk, <- Hc. by eapply IH.
Qed.

Lemma requestCertificateForCsr_resource c order bundle csr privateKeyPem d ds :
  or_Domains order = d :: ds ->
  yields (fun r => forall cr, r.1 = Some cr ->
                     r.2 = None /\ cr_Domain cr = d /\
                     cr_PrivateKey cr = privateKeyPem /\ cr_CSR cr = [])
         (requestCertificateForCsr E c order bundle csr privateKeyPem).
Proof.
  intros Hdom s s' r. unfold requestCertificateForCsr. rewrite Hdom.
  cbn [index lookup list_lookup]. intros Hrun.
  apply bind_Some in Hrun as (s0 & commonName & [= <- <-] & Hrun).
  apply bind_Some in Hrun as (s1 & [[hdr retOrder] err] & _ & Hrun).
  destruct err as [e|]; [injection Hrun as <- <-; by intros cr [=]|].
  destruct (String.eqb _ statusInvalid); [injection Hrun as <- <-; by intros cr [=]|].
  assert (Hpoll : forall certRes t,
    cr_Domain certRes = d -> cr_PrivateKey certRes = privateKeyPem ->
    cr_CSR certRes = [] ->
    bind (fun s => Some (s, clock E (world s)))
         (fun ticks => pollLoop E order retOrder certRes bundle ticks) t
      = Some (s', r) ->
    forall cr, r.1 = Some cr ->
      r.2 = None /\ cr_Domain cr = d /\
      cr_PrivateKey cr = privateKeyPem /\ cr_CSR cr = []).
  { intros certRes t Hd Hk Hc Hp. apply bind_Some in Hp as (t1 & ticks & _ & Hp).
    rewrite <- Hd, <- Hk, <- Hc. by eapply pollLoop_resource. }
  destruct (String.eqb _ statusValid);
    [|eapply Hpoll; [| | |exact Hrun]; reflexivity].
  apply bind_Some in Hrun as (s2 & [[ok err] certRes'] & Hchk & Hrun).
  apply checkCertResponse_keeps in Hchk as (Hd & Hk & Hc). cbn in Hd, Hk, Hc.
  destruct err as [e|]; [injection Hrun as <- <-; by intros cr [=]|].
  destruct ok; [injection Hrun as <- <-; by intros cr [= <-]|].
  eapply Hpoll; [| | |exact Hrun]; done.
Qed.

Lemma requestCertificateForOrder_resource c order bundle privKey mustStaple d ds :
  or_Domains order = d :: ds ->
  yields (fun r => forall cr, r.1 = Some cr ->
                     r.2 = None /\ cr_Domain cr = d /\ cr_CSR cr = [] /\
                     exists key, cr_PrivateKey cr = Some (pemEncodeKey E key) /\
                                 (privKey ≠ None -> key = privKey))
         (requestCertificateForOrder E c order bundle privKey mustStaple).
Proof.
  intros Hdom s s' r. unfold requestCertificateForOrder. rewrite Hdom.
  cbn [index lookup list_lookup]. intros Hrun.
  apply bind_Some in Hrun as (t1 & [pk kerr] & Hkey & Hrun).
  assert (Hpk : privKey ≠ None -> pk = privKey).
  { destruct privKey; [|done]. by injection Hkey as _ <- _. }
  destruct kerr as [e|]; [injection Hrun as <- <-; by intros cr [=]|].
  apply bind_Some in Hrun as (t2 & commonName & [= <- <-] & Hrun).
  apply bind_Some in Hrun as (t3 & [] & _ & Hrun).
  apply bind_Some in Hrun as (t4 & [csr cerr] & _ & Hrun).
  destruct cerr as [e|]; [injection Hrun as <- <-; by intros cr [=]|].
  intros cr Hcr.
  destruct (requestCertificateForCsr_resource _ _ _ _ _ _ _ Hdom _ _ _ Hrun cr Hcr)
    as (Herr & Hd & Hk & Hc).
  split; [done|]. split; [done|]. split; [done|]. by exists pk.
Qed.

(** X11: no public issuance operation returns a certificate together with
    an error: whenever [ObtainCertificate], [ObtainCertificateForCSR] or
    [RenewCertificate] returns a certificate resource, the error it returns
    is nil. *)
Theorem certificate_only_without_error c :
  (forall domains bundle privKey mustStaple s s' cr err,
      ObtainCertificate E c domains bundle privKey mustStaple s
        = Some (s', (Some cr, err)) -> err = None) /\
  (forall csr bundle s s' cr err,
      ObtainCertificateForCSR E c csr bundle s = Some (s', (Some cr, err)) ->
      err = None) /\
  (forall cert bundle mustStaple s s' cr err,
      RenewCertificate E c cert bundle mustStaple s = Some (s', (Some cr, err)) ->
      err = None).
Proof.
  assert (Hobtain : forall domains bundle privKey mustStaple s s' cr err,
      ObtainCertificate E c domains bundle privKey mustStaple s
        = Some (s', (Some cr, err)) -> err = None).
  { intros domains bundle privKey mustStaple s s' cr err.
    unfold ObtainCertificate. case_bool_decide; [by intros [=]|]. intros Hrun.
    destruct domains as [|d ds]; [done|].
    apply bind_Some in Hrun as (s1 & [order e1] & Hcreate & Hrun).
    destruct e1 as [e1|]; [by injection Hrun|].
    apply createOrder_Domains in Hcreate.
    apply bind_Some in Hrun as (s2 & [authz e2] & _ & Hrun).
    destruct e2 as [e2|]; [by injection Hrun|].
    apply bind_Some in Hrun as (s3 & e3 & _ & Hrun).
    destruct e3 as [e3|]; [by injection Hrun|].
    apply bind_Some in Hrun as (s4 & [cert' e4] & Hreq & [= <- -> <-]).
    destruct (requestCertificateForOrder_resource _ _ _ _ _ _ _ Hcreate _ _ _ Hreq
                cr eq_refl) as [Hnil _].
    cbn in Hnil. by subst. }
  assert (Hcsr : forall csr bundle s s' cr err,
      ObtainCertificateForCSR E c csr bundle s = Some (s', (Some cr, err)) ->
      err = None).
  { intros csr bundle s s' cr err. unfold ObtainCertificateForCSR. intros Hrun.
    apply bind_Some in Hrun as (s1 & [order e1] & Hcreate & Hrun).
    destruct e1 as [e1|]; [by injection Hrun|].
    apply createOrder_Domains in Hcreate.
    apply bind_Some in Hrun as (s2 & [authz e2] & _ & Hrun).
    destruct e2 as [e2|]; [by injection Hrun|].
    apply bind_Some in Hrun as (s3 & e3 & _ & Hrun).
    destruct e3 as [e3|]; [by injection Hrun|].
    apply bind_Some in Hrun as (s4 & [cert' e4] & Hreq & [= <- Hcert <-]).
    destruct cert' as [cr'|]; [|done].
    assert (Hne : exists d ds, csrDomains csr = d :: ds).
    { unfold csrDomains.
      assert (Hnil : forall l acc, acc ≠ [] ->
                fold_left (fun domains sanName =>
                   if existsb (fun existingName => String.eqb existingName sanName)
                              domains
                   then domains else domains ++ [sanName]) l acc ≠ []).
      { induction l as [|x l IH]; intros acc Hacc; [done|]. cbn [fold_left].
        apply IH. destruct (existsb _ _); [done|]. by destruct acc. }
      specialize (Hnil (csr_DNSNames csr) [csr_CommonName csr]).
      destruct (fold_left _ _ _) as [|d ds]; [by exfalso; apply Hnil|eauto]. }
    destruct Hne as (d & ds & Hne). rewrite Hne in Hcreate.
    destruct (requestCertificateForCsr_resource _ _ _ _ _ _ _ Hcreate _ _ _ Hreq
                cr' eq_refl) as [Hnil _].
    cbn in Hnil. by subst. }
  split; [exact Hobtain|]. split; [exact Hcsr|].
  intros cert bundle mustStaple s s' cr err. unfold RenewCertificate.
  destruct (parsePEMBundle E _) as [certificates [e|]]; [by intros [=]|].
  intros Hrun. apply bind_Some in Hrun as (s1 & x509Cert & _ & Hrun).
  destruct (x_IsCA x509Cert); [by injection Hrun|].
  case_bool_decide.
  - destruct (pemDecodeTox509CSR E _) as [csr [e|]]; [by injection Hrun|].
    by eapply Hcsr.
  - destruct (match cr_PrivateKey cert with
              | Some pem => parsePEMPrivateKey E pem
              | None => (None, None)
              end) as [privKey [e|]]; [by injection Hrun|].
    by eapply Hobtain.
Qed.

(** ** The domains of a CSR *)

Lemma existsb_eqb_elem (domains : list string) (sanName : string) :
  existsb (fun existingName => String.eqb existingName sanName) domains = true
  <-> sanName ∈ domains.
Proof.
  rewrite existsb_exists. split.
  - intros (x & Hx & Heq). apply String.eqb_eq in Heq as <-.
    by apply list_elem_of_In.
  - intros Hin. exists sanName. split; [by apply list_elem_of_In|].
    apply String.eqb_refl.
Qed.

Lemma csr_loop_spec (names acc : list string) :
  NoDup acc ->
  exists added,
    fold_left (fun domains sanName =>
                 if existsb (fun existingName => String.eqb existingName sanName)
                            domains
                 then domains else domains ++ [sanName]) names acc
      = acc ++ added /\
    NoDup (acc ++ added) /\
    forall d, d ∈ acc ++ added <-> d ∈ acc \/ d ∈ names.
Proof.
  revert acc. induction names as [|n names IH]; intros acc Hnd; cbn [fold_left].
  - exists []. rewrite app_nil_r. split; [done|]. split; [done|].
    intros d. rewrite elem_of_nil. tauto.
  - destruct (existsb _ acc) eqn:Hex.
    + apply existsb_eqb_elem in Hex.
      destruct (IH acc Hnd) as (added & Heq & Hnd' & Hmem).
      exists added. split; [done|]. split; [done|].
      intros d. rewrite Hmem, elem_of_cons. split; [tauto|].
      intros [?|[->|?]]; tauto.
    + assert (Hn : n ∉ acc).
      { intros Hin. apply existsb_eqb_elem in Hin. congruence. }
      destruct (IH (acc ++ [n])) as (added & Heq & Hnd' & Hmem).
      { apply NoDup_app. split; [done|]. split; [|apply NoDup_singleton].
        intros x Hx Hxn. apply list_elem_of_singleton in Hxn as ->. done. }
      exists (n :: added). rewrite <- app_assoc in Heq, Hnd', Hmem. cbn in *.
      split; [done|]. split; [done|].
      intros d. rewrite Hmem, elem_of_app, list_elem_of_singleton, elem_of_cons.
      tauto.
Qed.

(** X12: the domain list that [ObtainCertificateForCSR] derives from a CSR
    starts with the common name, has no duplicates (by exact string
    equality), and consists of the common name and the CSR's DNS names. *)
Theorem csrDomains_deduplicated (csr : CertificateRequest) :
  NoDup (csrDomains csr) /\
  (exists sans, csrDomains csr = csr_CommonName csr :: sans) /\
  forall d, d ∈ csrDomains csr <-> d = csr_CommonName csr \/ d ∈ csr_DNSNames csr.
Proof.
  unfold csrDomains.
  destruct (csr_loop_spec (csr_DNSNames csr) [csr_CommonName csr])
    as (added & -> & Hnd & Hmem); [apply NoDup_singleton|].
  split; [done|]. split; [by exists added|].
  intros d. rewrite Hmem, list_elem_of_singleton. tauto.
Qed.

(** X13: a certificate resource returned by [ObtainCertificateForCSR]
    names the CSR's common name as its domain, holds the PEM encoding of
    the CSR it was obtained for, and holds no private key. *)
Theorem ObtainCertificateForCSR_resource c (csr : CertificateRequest)
    (bundle : bool) s s' cr err :
  ObtainCertificateForCSR E c csr bundle s = Some (s', (Some cr, err)) ->
  cr_Domain cr = csr_CommonName csr /\
  cr_CSR cr = pemEncodeCSR E csr /\
  cr_PrivateKey cr = None.
Proof.
  unfold ObtainCertificateForCSR. intros Hrun.
  apply bind_Some in Hrun as (s1 & [order e1] & Hcreate & Hrun).
  destruct e1 as [e1|]; [by injection Hrun|].
  apply createOrder_Domains in Hcreate.
  apply bind_Some in Hrun as (s2 & [authz e2] & _ & Hrun).
  destruct e2 as [e2|]; [by injection Hrun|].
  apply bind_Some in Hrun as (s3 & e3 & _ & Hrun).
  destruct e3 as [e3|]; [by injection Hrun|].
  apply bind_Some in Hrun as (s4 & [cert' e4] & Hreq & [= <- Hcert <-]).
  destruct cert' as [cr'|]; [|done]. injection Hcert as <-. cbn.
  unfold csrDomains in Hcreate.
  destruct (csr_loop_spec (csr_DNSNames csr) [csr_CommonName csr])
    as (sans & Hdoms & _); [apply NoDup_singleton|].
  rewrite Hdoms in Hcreate. cbn [app] in Hcreate.
  destruct (requestCertificateForCsr_resource _ _ _ _ _ _ _ Hcreate _ _ _ Hreq
              cr' eq_refl) as (_ & Hd & Hk & _).
  by rewrite Hd, Hk.
Qed.


(** ** A failed certificate request *)

Lemma request_failures_lookup (authz : list authorization) (e : error)
    (failures : gmap string error) (d : string) :
  fold_left (fun failures auth => <[domainOf auth := e]> failures) authz failures !! d
  = if bool_decide (d ∈ domainOf <$> authz) then Some e else failures !! d.
Proof.
  revert failures. induction authz as [|a authz IH]; intros failures; cbn [fold_left].
  - rewrite bool_decide_eq_false_2; [done|]. cbn. apply not_elem_of_nil.
  - rewrite IH. cbn [fmap list_fmap].
    destruct (decide (d = domainOf a)) as [->|Hne].
    + rewrite lookup_insert_eq.
      rewrite (bool_decide_eq_true_2 (_ ∈ _ :: _)) by (by left).
      by case_bool_decide.
    + rewrite lookup_insert_ne by done.
      apply (f_equal (fun b : bool => if b then Some e else failures !! d)).
      apply bool_decide_ext. rewrite elem_of_cons. tauto.
Qed.

(** X15: when the order, the authorizations and the challenges all
    succeed and the certificate request then fails with an error,
    [ObtainCertificate] returns no certificate and an [ObtainError] that
    reports that error under the domain of every fetched authorization and
    under no other; when no authorization was fetched at all, the failure
    map is empty and the error returned is nil. *)
Theorem failed_request_is_reported_per_authorization c (domains : list string)
    (bundle : bool) (privKey : PrivateKey) (mustStaple : bool) s s1 s2 s3 s4
    (order : orderResource) (authz : list authorization)
    (cert : option CertificateResource) (e : error) :
  domains ≠ [] ->
  createOrderForIdentifiers E c domains s = Some (s1, (order, None)) ->
  getAuthzForOrder E c order s1 = Some (s2, (authz, None)) ->
  solveChallengeForAuthz c authz s2 = Some (s3, None) ->
  requestCertificateForOrder E c order bundle privKey mustStaple s3
    = Some (s4, (cert, Some e)) ->
  exists err,
    ObtainCertificate E c domains bundle privKey mustStaple s
      = Some (s4, (None, err)) /\
    (authz = [] -> err = None) /\
    (authz ≠ [] ->
     exists failures, err = Some (ObtainError failures) /\
       forall d, failures !! d
                 = if bool_decide (d ∈ domainOf <$> authz) then Some e else None).
Proof.
  intros Hne Hcreate Hfetch Hsolve Hreq.
  assert (cert = None) as ->.
  { destruct domains as [|d ds]; [done|].
    apply createOrder_Domains in Hcreate as Hdom.
    destruct cert as [cr|]; [|done].
    by destruct (requestCertificateForOrder_resource _ _ _ _ _ _ _ Hdom _ _ _ Hreq
                   cr eq_refl) as [? _]. }
  eexists. split.
  - unfold ObtainCertificate. rewrite bool_decide_eq_false_2 by (by destruct domains).
    run. rewrite Hcreate. cbn. unfold getAuthzForOrder, solveChallengeForAuthz, requestCertificateForOrder in *. run.
    rewrite Hfetch. cbn. rewrite Hsolve. cbn. rewrite Hreq. reflexivity.
  - split.
    + by intros ->.
    + intros Hauthz. eexists. split.
      * apply errOf_nonempty. destruct authz as [|a authz]; [done|].
        intros Hempty.
        pose proof (request_failures_lookup (a :: authz) e ∅ (domainOf a)) as Hl.
        rewrite Hempty, lookup_empty, bool_decide_eq_true_2 in Hl; [done|].
        cbn. by left.
      * intros d. by rewrite request_failures_lookup, lookup_empty.
Qed.

(** ** The names put in the CSR *)

Lemma san_loop (commonName : string) (identifiers : list identifier)
    (acc : list string) :
  fold_left (fun san auth =>
               if negb (String.eqb (id_Value auth) commonName)
               then san ++ [id_Value auth] else san) identifiers acc
  = acc ++ filter (fun v => v ≠ commonName) (id_Value <$> identifiers).
Proof.
  revert acc. induction identifiers as [|a l IH]; intros acc; cbn [fold_left].
  - by rewrite app_nil_r.
  - rewrite IH. cbn [fmap list_fmap].
    destruct (String.eqb_spec (id_Value a) commonName) as [Heq|Hne]; cbn [negb].
    + by rewrite filter_cons_False by (by intros ?).
    + rewrite filter_cons_True by done. by rewrite <- app_assoc.
Qed.

(** X16: the only CSR that [requestCertificateForOrder] generates is for
    the order's first domain as common name and, as subject alternative
    names, that domain followed by the values of the identifiers in the
    CA's order response that differ from it, in the response's order. *)
Theorem requestCertificateForOrder_csr_names c order (bundle : bool)
    (privKey : PrivateKey) (mustStaple : bool) (d : string) (ds : list string)
    t t' r :
  or_Domains order = d :: ds ->
  requestCertificateForOrder E c order bundle privKey mustStaple t = Some (t', r) ->
  exists new,
    trace t' = trace t ++ new /\
    forall cn san ms, EvGenerateCsr cn san ms ∈ new ->
      cn = d /\ ms = mustStaple /\
      san = d :: filter (fun v => v ≠ d) (id_Value <$> om_Identifiers (or_msg order)).
Proof.
  intros Hdom. unfold requestCertificateForOrder. rewrite Hdom.
  cbn [index lookup list_lookup]. intros Hrun.
  apply bind_Some in Hrun as (t1 & [pk kerr] & Hkey & Hrun).
  assert (Ht1 : trace t1 = trace t).
  { destruct privKey; run.
    - by injection Hkey as <- _ _.
    - destruct (generatePrivateKey E _ _) as [w x]. by injection Hkey as <- _. }
  destruct kerr as [e|].
  { injection Hrun as <- <-. exists []. rewrite app_nil_r. split; [done|].
    intros cn san ms Hin. by apply elem_of_nil in Hin. }
  apply bind_Some in Hrun as (t2 & commonName & [= <- <-] & Hrun).
  rewrite san_loop in Hrun. cbn [app] in Hrun.
  apply bind_Some in Hrun as (t3 & [] & [= <-] & Hrun).
  apply bind_Some in Hrun as (t4 & [csr cerr] & Hcsr & Hrun).
  pose proof (emits_call isRequest _ _ _ _ Hcsr) as (new1 & Htr1 & Hnew1).
  cbn [trace] in Htr1.
  assert (Hrest : exists new2, trace t' = trace t4 ++ new2 /\ Forall isRequest new2).
  { destruct cerr as [e|].
    - injection Hrun as <- <-. exists []. by rewrite app_nil_r.
    - by apply (emits_requestCertificateForCsr _ _ _ _ _ _ _ _ Hrun). }
  destruct Hrest as (new2 & Htr2 & Hnew2).
  eexists. split.
  { rewrite Htr2, Htr1, Ht1, <- !app_assoc. reflexivity. }
  intros cn san ms Hin. cbn in Hin.
  apply elem_of_cons in Hin as [[= -> -> ->]|Hin]; [done|].
  exfalso. apply elem_of_app in Hin as [Hin|Hin].
  - rewrite Forall_forall in Hnew1. by apply Hnew1 in Hin.
  - rewrite Forall_forall in Hnew2. by apply Hnew2 in Hin.
Qed.

(** ** Renewal round trip *)

Lemma filter_all (P : string -> Prop) `{!forall x, Decision (P x)} (l : list string) :
  Forall P l -> filter P l = l.
Proof.
  induction 1 as [|x l Hx _ IH]; [done|].
  rewrite filter_cons_True by done. by rewrite IH.
Qed.

(** X17: the domain list re-derived for a renewal always starts with the
    certificate's common name, which does not occur again in it, and its
    other entries are DNS names of the certificate; and for a certificate
    whose DNS names are its common name followed by names different from
    it (as issued for a duplicate-free domain list), the re-derived list
    is exactly the certificate's DNS names. *)
Theorem renewDomains_round_trip (x509Cert : Certificate) :
  (exists sans,
      renewDomains x509Cert = x_CommonName x509Cert :: sans /\
      (x_CommonName x509Cert ∉ sans) /\
      forall d, d ∈ sans -> d ∈ x_DNSNames x509Cert) /\
  (forall rest,
      x_DNSNames x509Cert = x_CommonName x509Cert :: rest ->
      x_CommonName x509Cert ∉ rest ->
      renewDomains x509Cert = x_DNSNames x509Cert).
Proof.
  unfold renewDomains. split.
  - case_bool_decide.
    + rewrite renew_san_loop. eexists. split; [reflexivity|]. split.
      * intros Hin. by apply list_elem_of_filter in Hin as [? _].
      * intros d Hin. by apply list_elem_of_filter in Hin as [_ ?].
    + exists []. split; [done|]. split; [apply not_elem_of_nil|].
      intros d Hin. by apply elem_of_nil in Hin.
  - intros rest Hnames Hnotin. rewrite Hnames. case_bool_decide as Hlen.
    + rewrite renew_san_loop. cbn [app].
      rewrite filter_cons_False by (by intros ?). f_equal.
      apply filter_all. apply Forall_forall. intros d Hd ->. done.
    + destruct rest; [done|]. cbn in Hlen. lia.
Qed.

(** A renewal of a resource that preserved its CSR is the CSR-based
    issuance for the decoded CSR: the resource's private key and the
    must-staple flag play no part. *)
Lemma RenewCertificate_reuses_preserved_csr c (cert : CertificateResource)
    (bundle mustStaple : bool) (x509Cert : Certificate) (rest : list Certificate)
    (csr : CertificateRequest) s :
  parsePEMBundle E (cr_Certificate cert) = (x509Cert :: rest, None) ->
  x_IsCA x509Cert = false ->
  cr_CSR cert ≠ [] ->
  pemDecodeTox509CSR E (cr_CSR cert) = (csr, None) ->
  RenewCertificate E c cert bundle mustStaple s
    = ObtainCertificateForCSR E c csr bundle s.
Proof.
  intros Hparse Hca Hcsr Hdecode. unfold RenewCertificate.
  rewrite Hparse. cbn [index lookup list_lookup]. run. rewrite Hca.
  rewrite bool_decide_eq_true_2 by (destruct (cr_CSR cert); [done|cbn; lia]).
  by rewrite Hdecode.
Qed.

(** ** Downloading the certificate *)

Lemma getIssuerCertificate_requests (url : string) s s' r :
  getIssuerCertificate E url s = Some (s', r) ->
  trace s' = trace s ++ [EvPostAsGet url].
Proof.
  unfold getIssuerCertificate. run.
  destruct (postAsGet_raw E _ _ _) as [w [resp [e|]]]; cbn; [by intros [= <- _]|].
  destruct (resp_ReadErr resp) as [e|]; [by intros [= <- _]|].
  destruct (x509_ParseCertificate E _); by intros [= <- _].
Qed.

Lemma getIssuerCertificate_returns (url : string) s :
  exists s' r, getIssuerCertificate E url s = Some (s', r).
Proof.
  unfold getIssuerCertificate. run.
  destruct (postAsGet_raw E _ _ _) as [w [resp [e|]]]; cbn; [by eexists _, _|].
  destruct (resp_ReadErr resp) as [e|]; [by eexists _, _|].
  destruct (x509_ParseCertificate E _); by eexists _, _.
Qed.

(** A run of [checkCertResponse] on a valid order whose certificate
    download succeeds. *)
Lemma checkCertResponse_valid_run order certRes (bundle : bool) s (w : W)
    (resp : httpResponse) (links : gmap string string) :
  om_Status order = statusValid ->
  postAsGet_raw E (st_jws s) (om_Certificate order) (world s) = (w, (resp, None)) ->
  resp_ReadErr resp = None ->
  parseLinks E (Header_values (resp_Header resp) "Link") = Some links ->
  exists s' cr issuer more,
    checkCertResponse E order certRes bundle s = Some (s', (true, None, cr)) /\
    trace s' = trace s ++ EvPostAsGet (om_Certificate order) :: more /\
    (length more <= 1)%nat /\
    cr_Certificate cr = take maxBodySize (resp_Body resp) ++ issuer /\
    (bundle = false -> issuer = []) /\
    cr_Domain cr = cr_Domain certRes /\
    cr_CertURL cr = om_Certificate order /\
    cr_CertStableURL cr = om_Certificate order.
Proof.
  intros Hst Hget Hread Hlinks. unfold checkCertResponse. rewrite Hst. cbn [String.eqb].
  replace (String.eqb statusValid statusValid) with true by reflexivity.
  run. rewrite Hget. cbn. unfold readAllLimited. rewrite Hread, Hlinks.
  destruct (links !! "up") as [link|].
  - destruct (getIssuerCertificate_returns link
               {| world := w; st_jws := st_jws s;
                  trace := trace s ++ [EvPostAsGet (om_Certificate order)] |})
      as (s1 & [issuerCert ierr] & Hissuer).
    rewrite Hissuer.
    apply getIssuerCertificate_requests in Hissuer as Htr. cbn [trace] in Htr.
    destruct ierr as [e|]; cbn.
    + eexists _, _, [], [EvPostAsGet link]. rewrite app_nil_r.
      split; [reflexivity|]. cbn. rewrite Htr, <- app_assoc.
      split; [done|]. split; [lia|]. by repeat split.
    + eexists _, _, (if bundle then pemEncodeDerCertificate E issuerCert else []),
        [EvPostAsGet link].
      split; [reflexivity|]. cbn. rewrite Htr, <- app_assoc.
      split; [done|]. split; [lia|]. split.
      * destruct bundle; [done|by rewrite app_nil_r].
      * split; [by intros ->|done].
  - destruct (pem_Decode_rest E _) as [rest|]; cbn;
      eexists _, _, [], []; rewrite app_nil_r;
      (split; [reflexivity|]); cbn; (split; [done|]); (split; [lia|]);
      by repeat split.
Qed.

(** X18: once the certificate of a valid order has been downloaded,
    [checkCertResponse] succeeds whatever happens to the issuer
    certificate: the returned bytes begin with the downloaded certificate
    (cut at [maxBodySize]) and, without bundling, are exactly that
    certificate; the resource's URLs are the order's certificate URL; at
    most one further request (for the issuer) is sent. *)
Theorem issued_certificate_survives_issuer_failure order certRes (bundle : bool) s
    (w : W) (resp : httpResponse) (links : gmap string string) :
  om_Status order = statusValid ->
  postAsGet_raw E (st_jws s) (om_Certificate order) (world s) = (w, (resp, None)) ->
  resp_ReadErr resp = None ->
  parseLinks E (Header_values (resp_Header resp) "Link") = Some links ->
  exists s' cr issuer more,
    checkCertResponse E order certRes bundle s = Some (s', (true, None, cr)) /\
    trace s' = trace s ++ EvPostAsGet (om_Certificate order) :: more /\
    (length more <= 1)%nat /\
    cr_Certificate cr = take maxBodySize (resp_Body resp) ++ issuer /\
    (bundle = false -> issuer = []) /\
    cr_CertURL cr = om_Certificate order /\
    cr_CertStableURL cr = om_Certificate order.
Proof.
  intros Hst Hget Hread Hlinks.
  destruct (checkCertResponse_valid_run order certRes bundle s w resp links
              Hst Hget Hread Hlinks)
    as (s' & cr & issuer & more & Hrun & Htr & Hlen & Hcert & Hb & _ & Hu1 & Hu2).
  by exists s', cr, issuer, more.
Qed.

(** X19: when the CA answers the finalize request with a valid order and
    the certificate download succeeds, [requestCertificateForCsr] returns
    the certificate at once, for the order's first domain and with a nil
    error: the timer and the ticker play no part (the statement holds for
    every [clock]), and at most three requests are sent. *)
Theorem valid_finalize_needs_no_poll c order (bundle : bool) (csr : list byte)
    (privateKeyPem : option (list byte)) (d : string) (ds : list string) s
    (w1 w2 : W) (hdr : Header) (retOrder : orderMessage)
    (resp : httpResponse) (links : gmap string string) :
  or_Domains order = d :: ds ->
  postJSON_csr E (st_jws s) (om_Finalize (or_msg order))
    {| Csr := base64RawURL E csr |} (world s) = (w1, (hdr, retOrder, None)) ->
  om_Status retOrder = statusValid ->
  postAsGet_raw E (st_jws s) (om_Certificate retOrder) w1 = (w2, (resp, None)) ->
  resp_ReadErr resp = None ->
  parseLinks E (Header_values (resp_Header resp) "Link") = Some links ->
  exists s' cr,
    requestCertificateForCsr E c order bundle csr privateKeyPem s
      = Some (s', (Some cr, None)) /\
    cr_Domain cr = d /\
    (length (trace s') <= length (trace s) + 3)%nat.
Proof.
  intros Hdom Hpost Hst Hget Hread Hlinks. unfold requestCertificateForCsr.
  rewrite Hdom. cbn [index lookup list_lookup]. run. rewrite Hpost. cbn.
  rewrite Hst. replace (String.eqb statusValid statusInvalid) with false by reflexivity.
  replace (String.eqb statusValid statusValid) with true by reflexivity.
  match goal with
  | |- context [checkCertResponse E retOrder ?cr0 bundle ?s0] =>
      destruct (checkCertResponse_valid_run retOrder cr0 bundle s0 w2 resp links
                  Hst Hget Hread Hlinks)
        as (s' & cr & issuer & more & Hrun & Htr & Hlen & _ & _ & Hd & _)
  end.
  rewrite Hrun. cbn. exists s', cr. split; [done|]. split; [done|].
  rewrite Htr. cbn [trace]. rewrite !length_app. cbn. lia.
Qed.

(** ** The poll loop is bounded by the ticks *)

Lemma checkCertResponse_requests order certRes (bundle : bool) s s' done err cr :
  checkCertResponse E order certRes bundle s = Some (s', (done, err, cr)) ->
  exists new,
    trace s' = trace s ++ new /\ (length new <= 2)%nat /\
    (done = false -> err = None -> new = []).
Proof.
  unfold checkCertResponse. destruct (String.eqb _ statusValid).
  - intros Hrun.
    apply bind_Some in Hrun as (s1 & [resp gerr] & Hget & Hrun).
    assert (Htr1 : trace s1 = trace s ++ [EvPostAsGet (om_Certificate order)]).
    { revert Hget. unfold do_postAsGet_raw. run.
      destruct (postAsGet_raw E _ _ _) as [w x]. by intros [= <- _]. }
    destruct gerr as [e|].
    { injection Hrun as <- _ <- _. eexists. split; [done|]. split; [cbn; lia|done]. }
    destruct (readAllLimited resp) as [cert [e|]].
    { injection Hrun as <- _ <- _. eexists. split; [done|]. split; [cbn; lia|done]. }
    destruct (parseLinks E _) as [links|]; [|done].
    apply bind_Some in Hrun as (s2 & [cert' issuer] & Hissuer & [= <- <- <- _]).
    assert (Hmore : exists more, trace s2 = trace s1 ++ more /\ (length more <= 1)%nat).
    { destruct (links !! "up") as [link|].
      - apply bind_Some in Hissuer as (s3 & [issuerCert ierr] & Hi & Hrest).
        apply getIssuerCertificate_requests in Hi.
        exists [EvPostAsGet link]. split; [|cbn; lia].
        destruct ierr; by injection Hrest as <- _ _.
      - exists []. rewrite app_nil_r. split; [|cbn; lia].
        destruct (pem_Decode_rest E _); by injection Hissuer as <- _ _. }
    destruct Hmore as (more & Htr2 & Hlen).
    exists ([EvPostAsGet (om_Certificate order)] ++ more).
    rewrite Htr2, Htr1, <- app_assoc. split; [done|]. split; [|done].
    rewrite length_app. cbn. lia.
  - intros Hrun. exists []. rewrite app_nil_r.
    split; [|split; [cbn; lia|done]].
    destruct (String.eqb _ "processing"); [by injection Hrun as <- _|].
    destruct (String.eqb _ statusInvalid); by injection Hrun as <- _.
Qed.

(** X20: the poll loop of the finalizer sends at most one order request per
    tick received before the deadline timer, and at most two further
    requests (for the certificate and for its issuer). *)
Theorem pollLoop_requests_bounded_by_ticks order retOrder certRes (bundle : bool)
    (ticks : list selectEvent) s s' r :
  pollLoop E order retOrder certRes bundle ticks s = Some (s', r) ->
  exists new,
    trace s' = trace s ++ new /\
    Forall isRequest new /\
    (length new <= ticksBeforeStop ticks + 2)%nat.
Proof.
  revert retOrder certRes s.
  induction ticks as [|[|] ticks IH]; intros retOrder certRes s; cbn [pollLoop].
  - done.
  - intros [= <- _]. exists []. rewrite app_nil_r. split; [done|]. split; [done|].
    cbn. lia.
  - intros Hrun. cbn [ticksBeforeStop].
    apply bind_Some in Hrun as (s1 & [retOrder' err] & Hpoll & Hrun).
    assert (Htr1 : trace s1 = trace s ++ [EvPostAsGet (or_URL order)]).
    { revert Hpoll. unfold do_postAsGet_order. run.
      destruct (postAsGet_order E _ _ _ _) as [w x]. by intros [= <- _]. }
    destruct err as [e|].
    { injection Hrun as <- _. eexists. split; [done|].
      split; [by repeat constructor|cbn; lia]. }
    apply bind_Some in Hrun as (s2 & [[done cerr] certRes'] & Hchk & Hrun).
    pose proof (emits_checkCertResponse _ _ _ _ _ _ Hchk) as (new2' & Htr2' & Hreq2).
    apply checkCertResponse_requests in Hchk as (new2 & Htr2 & Hlen2 & Hquiet).
    assert (new2' = new2) as -> by (rewrite Htr2 in Htr2'; by apply app_inv_head in Htr2').
    destruct cerr as [e|].
    { injection Hrun as <- _. exists ([EvPostAsGet (or_URL order)] ++ new2).
      rewrite Htr2, Htr1, <- app_assoc. split; [done|].
      split; [by constructor|]. rewrite length_app. cbn. lia. }
    destruct done.
    { injection Hrun as <- _. exists ([EvPostAsGet (or_URL order)] ++ new2).
      rewrite Htr2, Htr1, <- app_assoc. split; [done|].
      split; [by constructor|]. rewrite length_app. cbn. lia. }
    rewrite (Hquiet eq_refl eq_refl), app_nil_r in Htr2.
    apply IH in Hrun as (new3 & Htr3 & Hreq3 & Hlen3).
    exists ([EvPostAsGet (or_URL order)] ++ new3).
    rewrite Htr3, Htr2, Htr1, <- app_assoc. split; [done|].
    split; [by constructor|]. rewrite length_app. cbn. lia.
Qed.

(** ** What the aggregation steps return *)

Lemma returnsFailures_errOf (failures : gmap string error) :
  returnsFailures failures (errOf failures).
Proof. split; [by intros ->|apply errOf_nonempty]. Qed.

Lemma foldM_app {A B} (f : B -> A -> @M W B) (l1 l2 : list A) (b : B) s :
  foldM f (l1 ++ l2) b s =
  match foldM f l1 b s with
  | Some (t, b') => foldM f l2 b' t
  | None => None
  end.
Proof.
  revert b s. induction l1 as [|x l1 IH]; intros b s; [done|].
  cbn [app foldM]. run. destruct (f b x s) as [[t b']|]; [apply IH|done].
Qed.

Lemma foldM_split {A B} (f : B -> A -> @M W B) (before after : list A) (x : A)
    (b b' bt : B) s s' t :
  foldM f (before ++ x :: after) b s = Some (s', b') ->
  foldM f before b s = Some (t, bt) ->
  exists t1 b1, f bt x t = Some (t1, b1) /\ foldM f after b1 t1 = Some (s', b').
Proof.
  rewrite foldM_app. intros Hrun Hbefore. rewrite Hbefore in Hrun.
  cbn [foldM] in Hrun. by apply bind_Some in Hrun.
Qed.

Lemma foldM_snoc {A B} (f : B -> A -> @M W B) (before : list A) (x : A)
    (b bt b1 : B) s t t1 :
  foldM f before b s = Some (t, bt) ->
  f bt x t = Some (t1, b1) ->
  foldM f (before ++ [x]) b s = Some (t1, b1).
Proof.
  intros Hbefore Hstep. rewrite foldM_app, Hbefore. cbn [foldM].
  apply bind_Some. by exists t1, b1.
Qed.

(** *** The select pass *)

Lemma select_failure_cause c (l : list authorization)
    (acc : list selectedAuthSolver * gmap string error) (d : string) (e : error) :
  (fold_left (selectStep c) l acc).2 !! d = Some e ->
  acc.2 !! d = Some e \/
  exists a i, a ∈ l /\ authz_Status a ≠ statusValid /\
              chooseSolver c a (domainOf a) = (i, None) /\
              d = domainOf a /\
              e = ErrorString ("[" +:+ domainOf a +:+
                               "] acme: Could not determine solvers").
Proof.
  revert acc. induction l as [|b l IH]; intros acc Hd; [by left|].
  cbn [fold_left] in Hd. apply IH in Hd as [Hd|(a & i & Hin & Hrest)].
  - destruct acc as [items failures]. unfold selectStep in Hd.
    destruct (String.eqb_spec (authz_Status b) statusValid) as [|Hnv]; [by left|].
    destruct (chooseSolver c b (domainOf b)) as [i [solvr|]] eqn:Hch;
      cbn [snd] in Hd |- *; [by left|].
    destruct (decide (domainOf b = d)) as [<-|Hne].
    + rewrite lookup_insert_eq in Hd. injection Hd as <-.
      right. exists b, i. split; [by left|done].
    + rewrite lookup_insert_ne in Hd by done. by left.
  - right. exists a, i. split; [by right|done].
Qed.

(** *** One step of the pre-solve and of the solve pass *)

Lemma preSolveStep_cause (failures failures1 : gmap string error) item t t1 :
  preSolveStep failures item t = Some (t1, failures1) ->
  failures1 = failures \/
  exists presolve ch w e,
    PreSolve (sas_solver item) = Some presolve /\
    chosenChallenge item = Some ch /\
    presolve ch (domainOf (sas_authz item)) (world t) = (w, Some e) /\
    failures1 = <[domainOf (sas_authz item) := e]> failures.
Proof.
  unfold preSolveStep, chosenChallenge.
  destruct (PreSolve (sas_solver item)) as [presolve|] eqn:Hpre;
    [|intros [= <- <-]; by left].
  unfold index.
  destruct (authz_Challenges (sas_authz item) !! sas_challengeIndex item)
    as [ch|] eqn:Hch; run; [|discriminate].
  destruct (presolve ch (domainOf (sas_authz item)) (world t)) as [w [e|]] eqn:Hcall;
    intros [= <- <-]; [|by left].
  right. by exists presolve, ch, w, e.
Qed.

Lemma preSolveStep_failure (failures : gmap string error) item t
    (presolve : challenge -> string -> W -> W * option error)
    (ch : challenge) (w : W) (e : error) :
  PreSolve (sas_solver item) = Some presolve ->
  chosenChallenge item = Some ch ->
  presolve ch (domainOf (sas_authz item)) (world t) = (w, Some e) ->
  exists t1,
    preSolveStep failures item t
      = Some (t1, <[domainOf (sas_authz item) := e]> failures).
Proof.
  unfold preSolveStep, chosenChallenge. intros -> Hch Hcall.
  unfold index. rewrite Hch. run. rewrite Hcall. by eexists.
Qed.

Lemma solveStep_cause (failures failures1 : gmap string error) item t t1 :
  solveStep failures item t = Some (t1, failures1) ->
  failures1 = failures \/
  exists ch w e,
    failures !! domainOf (sas_authz item) = None /\
    chosenChallenge item = Some ch /\
    Solve (sas_solver item) ch (domainOf (sas_authz item)) (world t)
      = (w, Some e) /\
    failures1 = <[domainOf (sas_authz item) := e]> failures.
Proof.
  unfold solveStep, chosenChallenge.
  destruct (failures !! domainOf (sas_authz item)) as [e0|] eqn:Hd;
    [intros [= <- <-]; by left|].
  unfold index.
  destruct (authz_Challenges (sas_authz item) !! sas_challengeIndex item)
    as [ch|] eqn:Hch; run; [|discriminate].
  destruct (Solve (sas_solver item) ch (domainOf (sas_authz item)) (world t))
    as [w [e|]] eqn:Hcall; intros [= <- <-]; [|by left].
  right. by exists ch, w, e.
Qed.

Lemma solveStep_failure (failures : gmap string error) item t
    (ch : challenge) (w : W) (e : error) :
  failures !! domainOf (sas_authz item) = None ->
  chosenChallenge item = Some ch ->
  Solve (sas_solver item) ch (domainOf (sas_authz item)) (world t)
    = (w, Some e) ->
  exists t1,
    solveStep failures item t
      = Some (t1, <[domainOf (sas_authz item) := e]> failures).
Proof.
  unfold solveStep, chosenChallenge. intros -> Hch Hcall.
  unfold index. rewrite Hch. run. rewrite Hcall. by eexists.
Qed.

(** *** Every entry of the failure map has a cause *)

Lemma preSolve_pass_cause c (authorizations : list authorization) s
    (rest before : list selectedAuthSolver) t t' (failures failures' : gmap string error) :
  selected c authorizations = before ++ rest ->
  foldM preSolveStep before (selectFailures c authorizations) s
    = Some (t, failures) ->
  foldM preSolveStep rest failures t = Some (t', failures') ->
  forall d e, failures' !! d = Some e ->
    failures !! d = Some e \/ coordinatorFailure c authorizations s d e.
Proof.
  revert before t failures.
  induction rest as [|x rest IH]; intros before t failures Hsel Hbefore Hrun d e Hd.
  - injection Hrun as _ <-. by left.
  - cbn [foldM] in Hrun. apply bind_Some in Hrun as (t1 & failures1 & Hstep & Hrun).
    destruct (IH (before ++ [x]) t1 failures1) with (d := d) (e := e)
      as [Hd1|Hcause]; [by rewrite <- app_assoc|by eapply foldM_snoc|done|done| |by right].
    apply preSolveStep_cause in Hstep
      as [->|(presolve & ch & w & e0 & Hpre & Hch & Hcall & ->)]; [by left|].
    destruct (decide (domainOf (sas_authz x) = d)) as [<-|Hne].
    + rewrite lookup_insert_eq in Hd1. injection Hd1 as ->.
      right. by eapply PreSolveFailed.
    + rewrite lookup_insert_ne in Hd1 by done. by left.
Qed.

Lemma solve_pass_cause c (authorizations : list authorization) s s1
    (failures1 : gmap string error)
    (rest before : list selectedAuthSolver) t t' (failures failures' : gmap string error) :
  foldM preSolveStep (selected c authorizations)
        (selectFailures c authorizations) s = Some (s1, failures1) ->
  selected c authorizations = before ++ rest ->
  foldM solveStep before failures1 s1 = Some (t, failures) ->
  foldM solveStep rest failures t = Some (t', failures') ->
  forall d e, failures' !! d = Some e ->
    failures !! d = Some e \/ coordinatorFailure c authorizations s d e.
Proof.
  intros Hpass. revert before t failures.
  induction rest as [|x rest IH]; intros before t failures Hsel Hbefore Hrun d e Hd.
  - injection Hrun as _ <-. by left.
  - cbn [foldM] in Hrun. apply bind_Some in Hrun as (t1 & failures2 & Hstep & Hrun).
    destruct (IH (before ++ [x]) t1 failures2) with (d := d) (e := e)
      as [Hd1|Hcause]; [by rewrite <- app_assoc|by eapply foldM_snoc|done|done| |by right].
    apply solveStep_cause in Hstep
      as [->|(ch & w & e0 & Hnone & Hch & Hcall & ->)]; [by left|].
    destruct (decide (domainOf (sas_authz x) = d)) as [<-|Hne].
    + rewrite lookup_insert_eq in Hd1. injection Hd1 as ->.
      right. by eapply SolveFailed.
    + rewrite lookup_insert_ne in Hd1 by done. by left.
Qed.

(** *** Every failure the passes produce stays in the map *)

Lemma preSolve_pass_grows (items : list (@selectedAuthSolver W))
    (failures failures' : gmap string error) (t t' : @St W) (d : string) :
  foldM preSolveStep items failures t = Some (t', failures') ->
  is_Some (failures !! d) -> is_Some (failures' !! d).
Proof.
  intros Hrun Hd.
  eapply (yields_foldM (fun f => is_Some (f !! d))); [|exact Hd|exact Hrun].
  intros b y _ Hb. by apply preSolveStep_grows.
Qed.

Lemma solve_pass_grows (items : list (@selectedAuthSolver W))
    (failures failures' : gmap string error) (t t' : @St W) (d : string) :
  foldM solveStep items failures t = Some (t', failures') ->
  is_Some (failures !! d) -> is_Some (failures' !! d).
Proof.
  intros Hrun Hd.
  eapply (yields_foldM (fun f => is_Some (f !! d))); [|exact Hd|exact Hrun].
  intros b y _ Hb. by apply solveStep_grows.
Qed.

(** The error of the coordinator is the aggregate of the failures that its
    passes produced: every entry has a cause, and every cause an entry. *)
Lemma solveChallengeForAuthz_failures c (authorizations : list authorization)
    s s' err :
  solveChallengeForAuthz c authorizations s = Some (s', err) ->
  exists failures : gmap string error,
    (forall d e, failures !! d = Some e ->
                 coordinatorFailure c authorizations s d e) /\
    (forall d e, coordinatorFailure c authorizations s d e ->
                 is_Some (failures !! d)) /\
    returnsFailures failures err.
Proof.
  intros Hrun.
  apply solveChallengeForAuthz_passes in Hrun
    as (s1 & s2 & failures1 & failures2 & Hpre & Hsolve & _ & ->).
  exists failures2. split; [|split; [|apply returnsFailures_errOf]].
  - intros d e Hd.
    destruct (solve_pass_cause c authorizations s s1 failures1
                (selected c authorizations) [] s1 s2 failures1 failures2
                Hpre eq_refl eq_refl Hsolve d e Hd) as [Hd1|?]; [|done].
    destruct (preSolve_pass_cause c authorizations s
                (selected c authorizations) [] s s1 _ failures1
                eq_refl eq_refl Hpre d e Hd1) as [Hd0|?]; [|done].
    unfold selectFailures in Hd0.
    apply select_failure_cause in Hd0 as [Hd0|(a & i & Hin & Hnv & Hch & -> & ->)].
    + cbn in Hd0. by rewrite lookup_empty in Hd0.
    + by eapply NoSolverFor.
  - intros d e Hcause.
    destruct Hcause as [a i Hin Hnv Hch
                       |before after item t failures presolve ch w e Hsel Hbefore
                          Hcap Hch Hcall
                       |before after item s1' t failures1' failures ch w e Hpre'
                          Hsel Hbefore Hnone Hch Hcall].
    + eapply solve_pass_grows; [exact Hsolve|].
      eapply preSolve_pass_grows; [exact Hpre|].
      by eapply select_records_unsolvable.
    + eapply solve_pass_grows; [exact Hsolve|].
      rewrite Hsel in Hpre.
      destruct (foldM_split _ _ _ _ _ _ _ _ _ _ Hpre Hbefore)
        as (t1 & b1 & Hstep & Hafter).
      destruct (preSolveStep_failure failures item t presolve ch w e Hcap Hch Hcall)
        as (t1' & Hstep').
      rewrite Hstep' in Hstep. injection Hstep as _ <-.
      eapply preSolve_pass_grows; [exact Hafter|].
      rewrite lookup_insert_eq. by eexists.
    + rewrite Hpre in Hpre'. injection Hpre' as <- <-.
      rewrite Hsel in Hsolve.
      destruct (foldM_split _ _ _ _ _ _ _ _ _ _ Hsolve Hbefore)
        as (t1 & b1 & Hstep & Hafter).
      destruct (solveStep_failure failures item t ch w e Hnone Hch Hcall)
        as (t1' & Hstep').
      rewrite Hstep' in Hstep. injection Hstep as _ <-.
      eapply solve_pass_grows; [exact Hafter|].
      rewrite lookup_insert_eq. by eexists.
Qed.

(** *** The collecting loop of the authorization fetch *)

Lemma collect_failure_cause (l : list completion) (responses : list authorization)
    (failures : gmap string error) (d : string) (e : error) :
  (fold_left collectStep l (responses, failures)).2 !! d = Some e ->
  failures !! d = Some e \/ Errc {| de_Domain := d; de_Error := e |} ∈ l.
Proof.
  revert responses failures.
  induction l as [|m l IH]; intros responses failures Hd; [by left|].
  cbn [fold_left] in Hd. destruct m as [res|[d0 e0]]; cbn [collectStep] in Hd.
  - apply IH in Hd as [?|?]; [by left|right; by right].
  - apply IH in Hd as [Hd|?]; [|right; by right].
    cbn [de_Domain de_Error] in Hd.
    destruct (decide (d0 = d)) as [<-|Hne].
    + rewrite lookup_insert_eq in Hd. injection Hd as <-. right. by left.
    + rewrite lookup_insert_ne in Hd by done. by left.
Qed.

Lemma collect_keeps_failures (l : list completion) (responses : list authorization)
    (failures : gmap string error) (d : string) :
  is_Some (failures !! d) ->
  is_Some ((fold_left collectStep l (responses, failures)).2 !! d).
Proof.
  revert responses failures.
  induction l as [|m l IH]; intros responses failures Hd; [done|].
  cbn [fold_left]. destruct m as [res|err]; cbn [collectStep]; apply IH; [done|].
  rewrite lookup_insert. by case_decide.
Qed.

Lemma collect_records_failure (l : list completion) (responses : list authorization)
    (failures : gmap string error) (d : string) (e : error) :
  Errc {| de_Domain := d; de_Error := e |} ∈ l ->
  is_Some ((fold_left collectStep l (responses, failures)).2 !! d).
Proof.
  revert responses failures.
  induction l as [|m l IH]; intros responses failures Hin;
    [by apply elem_of_nil in Hin|].
  cbn [fold_left]. apply elem_of_cons in Hin as [<-|Hin].
  - cbn [collectStep de_Domain de_Error]. apply collect_keeps_failures.
    rewrite lookup_insert_eq. by eexists.
  - destruct m as [res|err]; cbn [collectStep]; by apply IH.
Qed.

(** The error of the authorization fetch is the aggregate of the failures
    received on [errc]. *)
Lemma getAuthzForOrder_failures c order s s' responses err :
  getAuthzForOrder E c order s = Some (s', (responses, err)) ->
  exists (completions : list completion) (failures : gmap string error),
    mapM (fetchAuthz E) (om_Authorizations (or_msg order)) s
      = Some (s', completions) /\
    (forall d e, failures !! d = Some e ->
       Errc {| de_Domain := d; de_Error := e |} ∈ arrival E completions) /\
    (forall d e, Errc {| de_Domain := d; de_Error := e |} ∈ arrival E completions ->
       is_Some (failures !! d)) /\
    returnsFailures failures err.
Proof.
  unfold getAuthzForOrder. intros Hrun.
  apply bind_Some in Hrun as (s1 & completions & Hfetch & Hrun).
  pose proof (collect_failure_cause (arrival E completions) [] ∅) as Hcause.
  pose proof (collect_records_failure (arrival E completions) [] ∅) as Hrec.
  destruct (fold_left _ _ _) as [responses' failures].
  apply bind_Some in Hrun as (s2 & u & Hlog & [= <- <- <-]).
  apply logAuthz_returns in Hlog as ->. cbn [snd] in *.
  exists completions, failures. split; [done|]. split; [|split].
  - intros d e Hd. destruct (Hcause d e Hd) as [Hd0|?]; [|done].
    by rewrite lookup_empty in Hd0.
  - exact Hrec.
  - apply returnsFailures_errOf.
Qed.

(** *** The certificate request *)

(** The failure map built after a certificate request: the request's
    error under the domain of every authorization. *)
Lemma request_failures (authz : list authorization) (reqErr : option error)
    (d : string) (e : error) :
  (match reqErr with
   | Some e0 => fold_left (fun failures auth => <[domainOf auth := e0]> failures)
                          authz ∅
   | None => ∅
   end : gmap string error) !! d = Some e
  <-> reqErr = Some e /\ d ∈ domainOf <$> authz.
Proof.
  destruct reqErr as [e0|].
  - rewrite request_failures_lookup. case_bool_decide as Hin.
    + split; [by intros [= ->]|by intros [[= ->] _]].
    + rewrite lookup_empty. split; [done|by intros [_ ?]].
  - rewrite lookup_empty. split; [done|by intros [? _]].
Qed.

Lemma ObtainCertificate_request_failures c (domains : list string) (bundle : bool)
    (privKey : PrivateKey) (mustStaple : bool) s s1 s2 s3 s4
    (order : orderResource) (authz : list authorization)
    (cert : option CertificateResource) (reqErr : option error) :
  domains ≠ [] ->
  createOrderForIdentifiers E c domains s = Some (s1, (order, None)) ->
  getAuthzForOrder E c order s1 = Some (s2, (authz, None)) ->
  solveChallengeForAuthz c authz s2 = Some (s3, None) ->
  requestCertificateForOrder E c order bundle privKey mustStaple s3
    = Some (s4, (cert, reqErr)) ->
  exists (failures : gmap string error) (err : option opError),
    ObtainCertificate E c domains bundle privKey mustStaple s
      = Some (s4, (cert, err)) /\
    (forall d e, failures !! d = Some e
                 <-> reqErr = Some e /\ d ∈ domainOf <$> authz) /\
    returnsFailures failures err.
Proof.
  intros Hne Hcreate Hfetch Hsolve Hreq. unfold ObtainCertificate.
  rewrite bool_decide_eq_false_2 by (by destruct domains).
  do 2 eexists. split; [|split; [apply request_failures|apply returnsFailures_errOf]].
  apply bind_Some. exists s1, (order, None). split; [done|].
  apply bind_Some. exists s2, (authz, None). split; [done|].
  apply bind_Some. exists s3, None. split; [done|].
  apply bind_Some. exists s4, (cert, reqErr). by split.
Qed.

Lemma ObtainCertificateForCSR_request_failures c (csr : CertificateRequest)
    (bundle : bool) s s1 s2 s3 s4
    (order : orderResource) (authz : list authorization)
    (cert : option CertificateResource) (reqErr : option error) :
  createOrderForIdentifiers E c (csrDomains csr) s = Some (s1, (order, None)) ->
  getAuthzForOrder E c order s1 = Some (s2, (authz, None)) ->
  solveChallengeForAuthz c authz s2 = Some (s3, None) ->
  requestCertificateForCsr E c order bundle (csr_Raw csr) None s3
    = Some (s4, (cert, reqErr)) ->
  exists (failures : gmap string error) (cert' : option CertificateResource)
         (err : option opError),
    ObtainCertificateForCSR E c csr bundle s = Some (s4, (cert', err)) /\
    (forall d e, failures !! d = Some e
                 <-> reqErr = Some e /\ d ∈ domainOf <$> authz) /\
    returnsFailures failures err.
Proof.
  intros Hcreate Hfetch Hsolve Hreq. unfold ObtainCertificateForCSR.
  do 3 eexists. split; [|split; [apply request_failures|apply returnsFailures_errOf]].
  apply bind_Some. exists s1, (order, None). split; [done|].
  apply bind_Some. exists s2, (authz, None). split; [done|].
  apply bind_Some. exists s3, None. split; [done|].
  apply bind_Some. exists s4, (cert, reqErr). by split.
Qed.

Lemma returnsFailures_nil_iff (failures : gmap string error) (err : option opError)
    (P : string -> error -> Prop) :
  (forall d e, failures !! d = Some e -> P d e) ->
  (forall d e, P d e -> is_Some (failures !! d)) ->
  returnsFailures failures err ->
  (err = None <-> forall d e, ~ P d e).
Proof.
  intros Hsound Hcomplete [Hnil Hmap].
  destruct (decide (failures = ∅)) as [->|Hne].
  - split; [|intros _; by apply Hnil].
    intros _ d e HP. apply Hcomplete in HP. rewrite lookup_empty in HP.
    by destruct HP.
  - split.
    + intros Herr. rewrite (Hmap Hne) in Herr. discriminate.
    + intros Hno. exfalso. apply map_choose in Hne as (d & e & Hd).
      by eapply Hno, Hsound.
Qed.

(** C5: an aggregation step returns a nil error exactly when its failure
    map is empty and the map itself otherwise; the errors of the
    authorization fetch and of the challenge coordinator are such
    aggregates, and no operation that can return an [ObtainError]
    ([ObtainCertificate], [ObtainCertificateForCSR], [RenewCertificate])
    ever returns one with zero entries.  Each of the three aggregation
    steps returns the failures it produced: the error of the coordinator
    is nil exactly when no authorization lacks a solver and no [PreSolve]
    or [Solve] call failed, and otherwise it is the map that has an entry
    for every such failure and no other entry; the error of the
    authorization fetch is nil exactly when no failure was received from a
    fetch, and otherwise the map of the failures received; and after a
    certificate request the error is nil exactly when the request
    succeeded (or there is no authorization to report it under), and
    otherwise the map that holds the request's error under the domain of
    every authorization. *)
Theorem ObtainError_is_never_empty c :
  (forall failures : gmap string error,
      (failures = ∅ -> errOf failures = None) /\
      (failures ≠ ∅ -> errOf failures = Some (ObtainError failures))) /\
  (forall authorizations s s' err,
      solveChallengeForAuthz c authorizations s = Some (s', err) ->
      aggregated err) /\
  (forall order s s' responses err,
      getAuthzForOrder E c order s = Some (s', (responses, err)) ->
      aggregated err) /\
  (forall domains bundle privKey mustStaple s s' cert err,
      ObtainCertificate E c domains bundle privKey mustStaple s
        = Some (s', (cert, err)) ->
      wellFormedErr err) /\
  (forall csr bundle s s' cert err,
      ObtainCertificateForCSR E c csr bundle s = Some (s', (cert, err)) ->
      wellFormedErr err) /\
  (forall cert0 bundle mustStaple s s' cert err,
      RenewCertificate E c cert0 bundle mustStaple s = Some (s', (cert, err)) ->
      wellFormedErr err) /\
  (forall authorizations s s' err,
      solveChallengeForAuthz c authorizations s = Some (s', err) ->
      (err = None <-> forall d e, ~ coordinatorFailure c authorizations s d e) /\
      exists failures : gmap string error,
        (forall d e, failures !! d = Some e ->
                     coordinatorFailure c authorizations s d e) /\
        (forall d e, coordinatorFailure c authorizations s d e ->
                     is_Some (failures !! d)) /\
        returnsFailures failures err) /\
  (forall order s s' responses err,
      getAuthzForOrder E c order s = Some (s', (responses, err)) ->
      exists (completions : list completion) (failures : gmap string error),
        mapM (fetchAuthz E) (om_Authorizations (or_msg order)) s
          = Some (s', completions) /\
        (err = None <->
         forall d e, Errc {| de_Domain := d; de_Error := e |}
                       ∉ arrival E completions) /\
        (forall d e, failures !! d = Some e ->
           Errc {| de_Domain := d; de_Error := e |} ∈ arrival E completions) /\
        (forall d e,
           Errc {| de_Domain := d; de_Error := e |} ∈ arrival E completions ->
           is_Some (failures !! d)) /\
        returnsFailures failures err) /\
  (forall domains bundle privKey mustStaple s s1 s2 s3 s4 order authz cert reqErr,
      domains ≠ [] ->
      createOrderForIdentifiers E c domains s = Some (s1, (order, None)) ->
      getAuthzForOrder E c order s1 = Some (s2, (authz, None)) ->
      solveChallengeForAuthz c authz s2 = Some (s3, None) ->
      requestCertificateForOrder E c order bundle privKey mustStaple s3
        = Some (s4, (cert, reqErr)) ->
      exists (failures : gmap string error) (err : option opError),
        ObtainCertificate E c domains bundle privKey mustStaple s
          = Some (s4, (cert, err)) /\
        (forall d e, failures !! d = Some e
                     <-> reqErr = Some e /\ d ∈ domainOf <$> authz) /\
        returnsFailures failures err) /\
  (forall csr bundle s s1 s2 s3 s4 order authz cert reqErr,
      createOrderForIdentifiers E c (csrDomains csr) s = Some (s1, (order, None)) ->
      getAuthzForOrder E c order s1 = Some (s2, (authz, None)) ->
      solveChallengeForAuthz c authz s2 = Some (s3, None) ->
      requestCertificateForCsr E c order bundle (csr_Raw csr) None s3
        = Some (s4, (cert, reqErr)) ->
      exists (failures : gmap string error) (cert' : option CertificateResource)
             (err : option opError),
        ObtainCertificateForCSR E c csr bundle s = Some (s4, (cert', err)) /\
        (forall d e, failures !! d = Some e
                     <-> reqErr = Some e /\ d ∈ domainOf <$> authz) /\
        returnsFailures failures err).
Proof.
  split; [intros failures; split; [by intros ->|apply errOf_nonempty]|].
  split; [intros *; apply solveChallengeForAuthz_aggregated|].
  split; [intros *; apply getAuthzForOrder_aggregated|].
  split; [intros *; apply ObtainCertificate_wellFormed|].
  split; [intros *; apply ObtainCertificateForCSR_wellFormed|].
  split; [intros *; apply RenewCertificate_wellFormed|].
  split.
  { intros authorizations s s' err Hrun.
    destruct (solveChallengeForAuthz_failures _ _ _ _ _ Hrun)
      as (failures & Hsound & Hcomplete & Hret).
    split; [by eapply returnsFailures_nil_iff|]. by exists failures. }
  split.
  { intros order s s' responses err Hrun.
    apply getAuthzForOrder_failures in Hrun
      as (completions & failures & Hfetch & Hsound & Hcomplete & Hret).
    exists completions, failures. split; [done|]. split; [|done].
    by eapply (returnsFailures_nil_iff failures err
                 (fun d e => Errc {| de_Domain := d; de_Error := e |}
                               ∈ arrival E completions)). }
  split; [intros *; apply ObtainCertificate_request_failures|].
  intros *. apply ObtainCertificateForCSR_request_failures.
Qed.

(** ** The certificate request of an order *)

(** The finalizer begins with the POST of the CSR to the order's finalize
    URL; everything after it is a request. *)
Lemma requestCertificateForCsr_posts c order (bundle : bool) (csr : list byte)
    (privateKeyPem : option (list byte)) (t t' : @St W)
    (r : option CertificateResource * option error) :
  requestCertificateForCsr E c order bundle csr privateKeyPem t = Some (t', r) ->
  exists more,
    trace t' = trace t ++
      EvPostJSON (om_Finalize (or_msg order))
                 (PCsr {| Csr := base64RawURL E csr |}) :: more /\
    Forall isRequest more.
Proof.
  unfold requestCertificateForCsr. intros Hrun.
  apply bind_Some in Hrun as (t0 & commonName & Hidx & Hrun).
  assert (t0 = t) as ->.
  { unfold index in Hidx. destruct (_ !! _); [by injection Hidx as <- _|discriminate]. }
  apply bind_Some in Hrun as (t1 & [[hdr retOrder] err] & Hpost & Hrun).
  assert (Htr1 : trace t1 = trace t ++
            [EvPostJSON (om_Finalize (or_msg order))
                        (PCsr {| Csr := base64RawURL E csr |})]).
  { unfold do_postJSON_csr in Hpost. run.
    destruct (postJSON_csr E _ _ _ _) as [w x]. by injection Hpost as <- _. }
  cut (exists more, trace t' = trace t1 ++ more /\ Forall isRequest more).
  { intros (more & -> & Hmore). exists more. by rewrite Htr1, <- app_assoc. }
  match type of Hrun with
  | ?k _ = _ => cut (emits isRequest k); [intros Hk; exact (Hk _ _ _ Hrun)|]
  end.
  clear. destruct err; [emits_step|].
  destruct (String.eqb _ statusInvalid); [emits_step|].
  assert (Hpoll : forall certRes,
    emits isRequest
      (M_bind _ _ (fun ticks => pollLoop E order retOrder certRes bundle ticks)
              (fun s => Some (s, clock E (world s))))).
  { intros certRes. apply emits_bind; [|intros; apply emits_pollLoop].
    intros s s' a [= <- <-]. exists []. by rewrite app_nil_r. }
  destruct (String.eqb _ statusValid); [|apply Hpoll].
  apply emits_bind; [apply emits_checkCertResponse|]. intros [[ok err] certRes'].
  destruct err; [emits_step|]. destruct ok; [emits_step|]. apply Hpoll.
Qed.

(** How [requestCertificateForOrder] proceeds on an order whose domain
    list starts with [d], once it has its key: it generates the CSR for
    common name [d] and hands the result to the finalizer. *)
Lemma requestCertificateForOrder_steps c order (bundle : bool)
    (privKey : PrivateKey) (mustStaple : bool) (d : string) (ds : list string)
    (t : @St W) (key : PrivateKey) (w1 w2 : W) (csr : list byte)
    (cerr : option error) :
  or_Domains order = d :: ds ->
  keyObtained E c privKey (world t) key w1 ->
  generateCsr E key d (sanOf d order) mustStaple w1 = (w2, (csr, cerr)) ->
  requestCertificateForOrder E c order bundle privKey mustStaple t =
    let t2 := {| world := w2; st_jws := st_jws t;
                 trace := trace t ++ [EvGenerateCsr d (sanOf d order) mustStaple] |} in
    match cerr with
    | Some e => Some (t2, (None, Some e))
    | None => requestCertificateForCsr E c order bundle csr
                (Some (pemEncodeKey E key)) t2
    end.
Proof.
  intros Hdom Hkey Hcsr. unfold requestCertificateForOrder, keyObtained, sanOf in *.
  rewrite Hdom. cbn [index lookup list_lookup].
  destruct privKey as [k|].
  - destruct Hkey as [-> ->]. run. rewrite san_loop. cbn [app].
    rewrite Hcsr. by destruct cerr.
  - run. rewrite Hkey. cbn. rewrite san_loop. cbn [app].
    rewrite Hcsr. by destruct cerr.
Qed.

(** A certificate comes out of [requestCertificateForOrder] only through
    the finalizer, run on the CSR generated for the obtained key. *)
Lemma requestCertificateForOrder_issued c order (bundle : bool)
    (privKey : PrivateKey) (mustStaple : bool) (d : string) (ds : list string)
    (t t' : @St W) (cr : CertificateResource) (err : option error) :
  or_Domains order = d :: ds ->
  requestCertificateForOrder E c order bundle privKey mustStaple t
    = Some (t', (Some cr, err)) ->
  exists (key : PrivateKey) (w1 w2 : W) (csr : list byte),
    keyObtained E c privKey (world t) key w1 /\
    generateCsr E key d (sanOf d order) mustStaple w1 = (w2, (csr, None)) /\
    requestCertificateForCsr E c order bundle csr (Some (pemEncodeKey E key))
      {| world := w2; st_jws := st_jws t;
         trace := trace t ++ [EvGenerateCsr d (sanOf d order) mustStaple] |}
      = Some (t', (Some cr, err)).
Proof.
  intros Hdom Hrun.
  assert (Hkey : exists key w1,
    keyObtained E c privKey (world t) key w1).
  { unfold keyObtained. destruct privKey as [k|]; [by exists (Some k), (world t)|].
    unfold requestCertificateForOrder in Hrun. run.
    destruct (generatePrivateKey E (c_keyType c) (world t)) as [w1 [key [e|]]];
      [discriminate Hrun|]. by exists key, w1. }
  destruct Hkey as (key & w1 & Hkey).
  destruct (generateCsr E key d (sanOf d order) mustStaple w1)
    as [w2 [csr cerr]] eqn:Hcsr.
  rewrite (requestCertificateForOrder_steps _ _ _ _ _ _ _ _ _ _ _ _ _
             Hdom Hkey Hcsr) in Hrun.
  cbn zeta in Hrun. destruct cerr as [e|]; [discriminate Hrun|].
  by exists key, w1, w2, csr.
Qed.

(** C9: the order created for a domain sequence [d :: ds] carries exactly
    that sequence, in its original order, and the certificate request made
    for the order uses [d], the first domain, as common name: once
    [requestCertificateForOrder] has its key, it generates the CSR for
    common name [d] (with [d] first among the subject alternative names)
    and, unless that fails, continues as the finalizer on that CSR; the
    finalizer posts the CSR to the order's finalize URL before anything
    else, and a resource it returns names [d] as its [Domain].  Every CSR
    generated in a run is for common name [d].  (The proof does not use
    that the sequence is duplicate-free.) *)
Theorem created_order_preserves_domains c (d : string) (ds : list string)
    s s1 order :
  NoDup (d :: ds) ->
  createOrderForIdentifiers E c (d :: ds) s = Some (s1, (order, None)) ->
  or_Domains order = d :: ds /\
  (forall bundle privKey mustStaple t t' cert err,
    requestCertificateForOrder E c order bundle privKey mustStaple t
      = Some (t', (cert, err)) ->
    exists new,
      trace t' = trace t ++ new /\
      Forall (fun e => forall cn san ms, e = EvGenerateCsr cn san ms -> cn = d) new /\
      forall cr, cert = Some cr ->
        cr_Domain cr = d /\ exists san, EvGenerateCsr d san mustStaple ∈ new) /\
  (forall (bundle : bool) (privKey : PrivateKey) (mustStaple : bool) (t : St)
          (key : PrivateKey) (w1 w2 : W) (csr : list byte) (cerr : option error),
    keyObtained E c privKey (world t) key w1 ->
    generateCsr E key d (sanOf d order) mustStaple w1 = (w2, (csr, cerr)) ->
    requestCertificateForOrder E c order bundle privKey mustStaple t =
      let t2 := {| world := w2; st_jws := st_jws t;
                   trace := trace t ++ [EvGenerateCsr d (sanOf d order) mustStaple] |} in
      match cerr with
      | Some e => Some (t2, (None, Some e))
      | None => requestCertificateForCsr E c order bundle csr
                  (Some (pemEncodeKey E key)) t2
      end) /\
  (forall (bundle : bool) (csr : list byte) (privateKeyPem : option (list byte))
          (t t' : St) (cert : option CertificateResource) (err : option error),
    requestCertificateForCsr E c order bundle csr privateKeyPem t
      = Some (t', (cert, err)) ->
    (exists more,
        trace t' = trace t ++
          EvPostJSON (om_Finalize (or_msg order))
                     (PCsr {| Csr := base64RawURL E csr |}) :: more) /\
    forall cr, cert = Some cr -> cr_Domain cr = d).
Proof.
  intros _ Hcreate. apply createOrder_Domains in Hcreate as Hdom.
  split; [exact Hdom|]. split; [|split].
  - intros bundle privKey mustStaple t t' cert err Hrun.
    destruct (requestCertificateForOrder_commonName _ _ _ _ _ _ _ _ _ _ _ Hdom Hrun)
      as [[-> Htr] | (san & new & Htr & Hreq & Hcr)].
    + exists []. rewrite app_nil_r. split; [done|]. split; [done|]. by intros cr [=].
    + exists (EvGenerateCsr d san mustStaple :: new). split; [done|]. split.
      * constructor; [by intros cn san' ms [= <- _ _]|].
        eapply Forall_impl; [exact Hreq|].
        intros [] Hr cn san' ms [=]; destruct Hr.
      * intros cr Hc. split; [by apply Hcr|]. exists san. by left.
  - intros bundle privKey mustStaple t key w1 w2 csr cerr Hkey Hcsr.
    by eapply requestCertificateForOrder_steps.
  - intros bundle csr privateKeyPem t t' cert err Hrun. split.
    + apply requestCertificateForCsr_posts in Hrun as (more & Htr & _). by exists more.
    + intros cr ->.
      by eapply (requestCertificateForCsr_Domain _ _ _ _ _ _ _ Hdom _ _ _ Hrun).
Qed.

(** X14: a certificate resource returned by [ObtainCertificate] names the
    first requested domain as its domain and does not hold the CSR; the
    private key it holds is the PEM encoding of the key the certificate
    was requested with: the caller's key whenever one was supplied,
    otherwise the key that [generatePrivateKey] returned, and in both
    cases the key for which the CSR that the run posted to the CA was
    generated, with the first domain as common name. *)
Theorem ObtainCertificate_resource c (d : string) (ds : list string)
    (bundle : bool) (privKey : PrivateKey) (mustStaple : bool) s s' cr err :
  ObtainCertificate E c (d :: ds) bundle privKey mustStaple s
    = Some (s', (Some cr, err)) ->
  cr_Domain cr = d /\ cr_CSR cr = [] /\
  exists key,
    cr_PrivateKey cr = Some (pemEncodeKey E key) /\
    (privKey ≠ None -> key = privKey) /\
    exists (w0 w1 w2 : W) (san : list string) (csr : list byte) (url : string)
           (before after : list event),
      keyObtained E c privKey w0 key w1 /\
      generateCsr E key d san mustStaple w1 = (w2, (csr, None)) /\
      trace s' = before ++
        EvGenerateCsr d san mustStaple ::
        EvPostJSON url (PCsr {| Csr := base64RawURL E csr |}) :: after.
Proof.
  unfold ObtainCertificate. case_bool_decide; [done|]. intros Hrun.
  apply bind_Some in Hrun as (s1 & [order e1] & Hcreate & Hrun).
  destruct e1 as [e1|]; [by injection Hrun|].
  apply createOrder_Domains in Hcreate.
  apply bind_Some in Hrun as (s2 & [authz e2] & _ & Hrun).
  destruct e2 as [e2|]; [by injection Hrun|].
  apply bind_Some in Hrun as (s3 & e3 & _ & Hrun).
  destruct e3 as [e3|]; [by injection Hrun|].
  apply bind_Some in Hrun as (s4 & [cert' e4] & Hreq & [= <- -> <-]).
  destruct (requestCertificateForOrder_issued _ _ _ _ _ _ _ _ _ _ _ Hcreate Hreq)
    as (key & w1 & w2 & csr & Hkey & Hcsr & Hfin).
  destruct (requestCertificateForCsr_resource _ _ _ _ _ _ _ Hcreate _ _ _ Hfin
              cr eq_refl) as (_ & Hd & Hk & Hc).
  apply requestCertificateForCsr_posts in Hfin as (more & Htr & _).
  cbn [trace] in Htr. rewrite <- app_assoc in Htr.
  split; [done|]. split; [done|]. exists key. split; [done|]. split.
  - unfold keyObtained in Hkey. destruct privKey; [by destruct Hkey|done].
  - by exists (world s3), w1, w2, (sanOf d order), csr,
              (om_Finalize (or_msg order)), (trace s3), more.
Qed.

(** ** Accounts, revocation and the client's solvers *)

Section Accounts.

Context {Provider : Type} (X : @EnvX W Provider).

(** X21: [ResolveAccountByKey] first asks the new-account endpoint for the
    existing account only ([OnlyReturnExisting]); when the answer names the
    account in its [Location] header, that URL becomes the transport's
    account identifier before the account is fetched from it, the second
    request is signed with it, and it stays in place even when the second
    request fails; on success the resource carries that URL and the
    fetched account. *)
Theorem ResolveAccountByKey_adopts_location c s (w1 w2 : W) (hdr hdr2 : Header)
    (link : string) (retAccount : accountMessage) (err2 : option error) :
  postJSON_account_nil X (st_jws s) (NewAccountURL (c_directory c))
    {| am_Status := ""; am_Contact := []; am_TermsOfServiceAgreed := false;
       am_OnlyReturnExisting := true; am_ExternalAccountBinding := [] |}
    (world s) = (w1, (hdr, None)) ->
  Header_Get hdr "Location" = link ->
  link ≠ "" ->
  postJSON_account E
    {| jws_privKey := jws_privKey (st_jws s);
       jws_getNonceURL := jws_getNonceURL (st_jws s); jws_kid := link |}
    link zeroAccountMessage w1 = (w2, (hdr2, retAccount, err2)) ->
  exists s',
    ResolveAccountByKey E X c s =
      Some (s', match err2 with
                | Some e => (None, Some (Plain e))
                | None => (Some {| reg_Body := retAccount; reg_URI := link |}, None)
                end) /\
    jws_kid (st_jws s') = link /\
    world s' = w2 /\
    trace s' = trace s ++
      [EvPostJSON (NewAccountURL (c_directory c))
         (PAccount {| am_Status := ""; am_Contact := [];
                      am_TermsOfServiceAgreed := false;
                      am_OnlyReturnExisting := true;
                      am_ExternalAccountBinding := [] |});
       EvPostJSON link (PAccount zeroAccountMessage)].
Proof.
  intros Hfirst Hloc Hne Hsecond. unfold ResolveAccountByKey, do_postJSON_account_nil.
  run. rewrite Hfirst. cbn. rewrite Hloc.
  destruct (String.eqb_spec link "") as [|_]; [done|]. cbn.
  rewrite Hsecond. rewrite <- app_assoc.
  destruct err2; cbn; eexists; (split; [reflexivity|done]).
Qed.

(** X22: when the answer to the existing-account request carries no
    [Location], [ResolveAccountByKey] fails with "Server did not return the
    account link" after that single request, and the transport's account
    identifier is left as it was. *)
Theorem ResolveAccountByKey_without_location c s (w1 : W) (hdr : Header) :
  postJSON_account_nil X (st_jws s) (NewAccountURL (c_directory c))
    {| am_Status := ""; am_Contact := []; am_TermsOfServiceAgreed := false;
       am_OnlyReturnExisting := true; am_ExternalAccountBinding := [] |}
    (world s) = (w1, (hdr, None)) ->
  Header_Get hdr "Location" = "" ->
  exists s',
    ResolveAccountByKey E X c s =
      Some (s', (None, Some (Plain (ErrorString
                    "Server did not return the account link")))) /\
    st_jws s' = st_jws s /\
    world s' = w1 /\
    length (trace s') = S (length (trace s)).
Proof.
  intros Hfirst Hloc. unfold ResolveAccountByKey, do_postJSON_account_nil.
  run. rewrite Hfirst. cbn. rewrite Hloc. cbn.
  eexists. split; [reflexivity|]. cbn. rewrite length_app. cbn.
  repeat split; lia.
Qed.

(** X23: the operations on the user's registration dereference it without
    a check: for a user whose [GetRegistration] is nil, [QueryRegistration]
    and [DeleteRegistration] have no result (a nil dereference, a run-time
    panic); with a registration, [DeleteRegistration] sends exactly one
    request, the status [deactivated], to the registration's URI and
    returns the transport's error. *)
Theorem registration_is_dereferenced_unchecked c (user : User) s :
  c_user c = Some user ->
  (GetRegistration user = None ->
     QueryRegistration E (Some c) s = None /\
     DeleteRegistration X (Some c) s = None) /\
  (forall reg w hdr err,
     GetRegistration user = Some reg ->
     postJSON_account_nil X (st_jws s) (reg_URI reg)
       {| am_Status := "deactivated"; am_Contact := [];
          am_TermsOfServiceAgreed := false; am_OnlyReturnExisting := false;
          am_ExternalAccountBinding := [] |} (world s) = (w, (hdr, err)) ->
     DeleteRegistration X (Some c) s =
       Some ({| world := w; st_jws := st_jws s;
                trace := trace s ++
                  [EvPostJSON (reg_URI reg)
                     (PAccount {| am_Status := "deactivated"; am_Contact := [];
                                  am_TermsOfServiceAgreed := false;
                                  am_OnlyReturnExisting := false;
                                  am_ExternalAccountBinding := [] |})] |},
             plainErr err)).
Proof.
  intros Huser. split.
  - intros Hreg. unfold QueryRegistration, DeleteRegistration, registrationURI.
    rewrite Huser, Hreg. by split.
  - intros reg w hdr err Hreg Hpost.
    unfold DeleteRegistration, registrationURI, do_postJSON_account_nil.
    rewrite Huser, Hreg. run. by rewrite Hpost.
Qed.

(** X24: [RegisterWithExternalAccountBinding] sends nothing when the HMAC
    key does not decode or the binding cannot be signed: it returns the
    corresponding error, no resource, and leaves the trace and the
    transport as they were. *)
Theorem external_binding_failure_sends_nothing c (user : User) (tosAgreed : bool)
    (kid hmacEncoded : string) s s' r :
  c_user c = Some user ->
  RegisterWithExternalAccountBinding E X (Some c) tosAgreed kid hmacEncoded s
    = Some (s', r) ->
  (forall e, (base64RawURL_DecodeString X hmacEncoded).2 = Some e ->
     s' = s /\
     r = (None, Some (Plain (ErrorString
            ("acme: could not decode hmac key: " +:+ errorText X e))))) /\
  (forall e w, (base64RawURL_DecodeString X hmacEncoded).2 = None ->
     signEABContent X (st_jws s) (NewAccountURL (c_directory c)) kid
       (base64RawURL_DecodeString X hmacEncoded).1 (world s) = (w, e) ->
     forall e', e.2 = Some e' ->
     trace s' = trace s /\ st_jws s' = st_jws s /\
     r = (None, Some (Plain (ErrorString
            ("acme: error signing eab content: " +:+ errorText X e'))))).
Proof.
  intros Huser. unfold RegisterWithExternalAccountBinding. rewrite Huser.
  destruct (base64RawURL_DecodeString X hmacEncoded) as [hmac [de|]]; cbn [fst snd].
  - intros [= <- <-]. split; [by intros e [= <-]|]. by intros e w [=].
  - run. intros Hrun. split; [by intros e [=]|].
    intros [payload serr] w _ Hsign e' He'. cbn in He'. subst serr.
    rewrite Hsign in Hrun. cbn in Hrun. by injection Hrun as <- <-.
Qed.

(** X25: with a decodable key and a signed binding,
    [RegisterWithExternalAccountBinding] sends the registration message of
    [Register] with the serialized binding added, and treats the answer as
    [Register] does: a [RemoteError] with status 409 (or no error) yields
    the resource built from the [Location] header and makes it the
    transport's account identifier; any other error is returned. *)
Theorem external_binding_conflict_adopts_existing c (user : User) (tosAgreed : bool)
    (kid hmacEncoded : string) s (hmac : list byte) (w1 w2 : W) (payload : string)
    (hdr : Header) (serverReg : accountMessage) (err : option error) :
  c_user c = Some user ->
  base64RawURL_DecodeString X hmacEncoded = (hmac, None) ->
  signEABContent X (st_jws s) (NewAccountURL (c_directory c)) kid hmac (world s)
    = (w1, (payload, None)) ->
  postJSON_account E (st_jws s) (NewAccountURL (c_directory c))
    {| am_Status := "";
       am_Contact := am_Contact (registrationMessage user tosAgreed);
       am_TermsOfServiceAgreed := tosAgreed;
       am_OnlyReturnExisting := false;
       am_ExternalAccountBinding := String.list_byte_of_string payload |} w1
    = (w2, (hdr, serverReg, err)) ->
  exists s',
    RegisterWithExternalAccountBinding E X (Some c) tosAgreed kid hmacEncoded s =
      Some (s', match err with
                | None | Some (RemoteError 409 _ _) =>
                    (Some {| reg_Body := serverReg;
                             reg_URI := Header_Get hdr "Location" |}, None)
                | Some e => (None, Some (Plain e))
                end) /\
    world s' = w2 /\
    match err with
    | None | Some (RemoteError 409 _ _) =>
        jws_kid (st_jws s') = Header_Get hdr "Location"
    | Some _ => st_jws s' = st_jws s
    end.
Proof.
  intros Huser Hdecode Hsign Hpost. unfold RegisterWithExternalAccountBinding.
  rewrite Huser, Hdecode. run. rewrite Hsign.
  cbn [am_Status am_Contact am_TermsOfServiceAgreed am_OnlyReturnExisting
       registrationMessage] in Hpost |- *.
  run. rewrite Hpost.
  destruct err as [[msg|code ty detail]|]; cbn.
  - eexists; split; [reflexivity|]. by cbn.
  - destruct (code =? 409) eqn:Hcode.
    + apply Z.eqb_eq in Hcode as ->. eexists; split; [reflexivity|]. by cbn.
    + assert (code ≠ 409) by (by apply Z.eqb_neq).
      eexists; split.
      * repeat f_equal. destruct code as [|p|p]; try reflexivity.
        do 9 (destruct p as [p|p|]; try reflexivity). congruence.
      * cbn. split; [reflexivity|].
        destruct code as [|p|p]; try reflexivity.
        do 9 (destruct p as [p|p|]; try reflexivity). congruence.
  - eexists; split; [reflexivity|]. by cbn.
Qed.

(** X26: a certificate bundle that starts with a CA certificate is
    rejected by [RevokeCertificate] and by [RenewCertificate] before
    anything is sent: both return their error and leave the state (world,
    transport and trace) untouched. *)
Theorem ca_certificate_is_rejected_offline c (cert : CertificateResource)
    (bundle mustStaple : bool) (x509Cert : Certificate) (rest : list Certificate) s :
  parsePEMBundle E (cr_Certificate cert) = (x509Cert :: rest, None) ->
  x_IsCA x509Cert = true ->
  RevokeCertificate E X c (cr_Certificate cert) s =
    Some (s, Some (ErrorString "Certificate bundle starts with a CA certificate")) /\
  RenewCertificate E c cert bundle mustStaple s =
    Some (s, (None, Some (Plain (ErrorString
      ("[" +:+ cr_Domain cert +:+
       "] Certificate bundle starts with a CA certificate"))))).
Proof.
  intros Hparse Hca. unfold RevokeCertificate, RenewCertificate.
  rewrite Hparse. cbn [index lookup list_lookup]. run. by rewrite Hca.
Qed.

(** *** The solvers of a client *)

Lemma exclude_lookup (challenges : list string) (solvers : gmap string (@solver W))
    (t : string) :
  fold_left (fun solvers challenge => delete challenge solvers) challenges solvers !! t
  = if bool_decide (t ∈ challenges) then None else solvers !! t.
Proof.
  revert solvers. induction challenges as [|x l IH]; intros solvers; cbn [fold_left].
  - rewrite bool_decide_eq_false_2; [done|apply not_elem_of_nil].
  - rewrite IH. destruct (decide (t = x)) as [->|Hne].
    + rewrite lookup_delete_eq.
      rewrite (bool_decide_eq_true_2 (_ ∈ _ :: _)) by (by left).
      by case_bool_decide.
    + rewrite lookup_delete_ne by done.
      apply (f_equal (fun b : bool => if b then None else solvers !! t)).
      apply bool_decide_ext. rewrite elem_of_cons. tauto.
Qed.

(** X27: after [ExcludeChallenges], the client has no solver for any of the
    excluded types and keeps its solver for every other type; so
    [chooseSolver] never picks a challenge of an excluded type, and picks
    nothing only when every challenge of the authorization is of an
    excluded type or of a type that had no solver. *)
Theorem ExcludeChallenges_removes_solvers c (challenges : list string)
    (auth : authorization) (domain : string) :
  (forall t, c_solvers (ExcludeChallenges c challenges) !! t
             = if bool_decide (t ∈ challenges) then None else c_solvers c !! t) /\
  match chooseSolver (ExcludeChallenges c challenges) auth domain with
  | (i, Some solvr) =>
      exists ch, authz_Challenges auth !! i = Some ch /\
                 (ch_Type ch ∉ challenges) /\
                 c_solvers c !! ch_Type ch = Some solvr
  | (_, None) =>
      forall ch, ch ∈ authz_Challenges auth ->
                 ch_Type ch ∈ challenges \/ c_solvers c !! ch_Type ch = None
  end.
Proof.
  split; [intros t; apply exclude_lookup|].
  unfold chooseSolver.
  pose proof (chooseSolverFrom_spec (c_solvers (ExcludeChallenges c challenges)) 0
                (authz_Challenges auth)) as H.
  destruct (chooseSolverFrom _ _ _) as [k [solvr|]].
  - destruct H as (j & ch & -> & Hj & Hs & _). exists ch. split; [done|].
    cbn in Hs. rewrite exclude_lookup in Hs. by case_bool_decide.
  - destruct H as [_ Hnone]. intros ch Hch. specialize (Hnone ch Hch).
    cbn in Hnone. rewrite exclude_lookup in Hnone. case_bool_decide; [by left|by right].
Qed.

(** [SetChallengeProvider] accepts exactly the three challenge types
    [http-01], [dns-01] and [tls-alpn-01]: for one of them it returns a nil
    error and replaces the solver of that type only; for any other type it
    returns the error "unknown challenge ..." and leaves the client
    unchanged. *)
Lemma SetChallengeProvider_known_types c (challenge : string) (p : Provider) :
  (challenge ∈ [HTTP01; DNS01; TLSALPN01] ->
     (SetChallengeProvider X c challenge p).2 = None /\
     is_Some (c_solvers (SetChallengeProvider X c challenge p).1 !! challenge) /\
     forall t, t ≠ challenge ->
       c_solvers (SetChallengeProvider X c challenge p).1 !! t = c_solvers c !! t) /\
  (challenge ∉ [HTTP01; DNS01; TLSALPN01] ->
     SetChallengeProvider X c challenge p
       = (c, Some (ErrorString ("unknown challenge " +:+ challenge)))).
Proof.
  unfold SetChallengeProvider. split.
  - intros Hin.
    destruct (String.eqb_spec challenge HTTP01) as [->|H1]; cbn.
    { split; [done|]. split; [by rewrite lookup_insert_eq|].
      intros t Ht. by rewrite lookup_insert_ne. }
    destruct (String.eqb_spec challenge DNS01) as [->|H2]; cbn.
    { split; [done|]. split; [by rewrite lookup_insert_eq|].
      intros t Ht. by rewrite lookup_insert_ne. }
    destruct (String.eqb_spec challenge TLSALPN01) as [->|H3]; cbn.
    { split; [done|]. split; [by rewrite lookup_insert_eq|].
      intros t Ht. by rewrite lookup_insert_ne. }
    exfalso. repeat (apply elem_of_cons in Hin as [?|Hin]; [done|]).
    by apply elem_of_nil in Hin.
  - intros Hnot.
    destruct (String.eqb_spec challenge HTTP01) as [->|H1].
    { exfalso. apply Hnot. by left. }
    destruct (String.eqb_spec challenge DNS01) as [->|H2].
    { exfalso. apply Hnot. right. by left. }
    destruct (String.eqb_spec challenge TLSALPN01) as [->|H3]; [|done].
    exfalso. apply Hnot. right. right. by left.
Qed.

(** X28: [NewClient] refuses a user without private key before fetching
    anything; and a client it returns has a directory with non-empty
    new-account and new-order URLs, solvers for [http-01] and [tls-alpn-01]
    and for no other type (so none for [dns-01]), and a transport that
    holds the user's key and, as account identifier, the URI of the user's
    registration when there is one. *)
Theorem NewClient_invariants (caDirURL : string) (user : User) (keyType : KeyType)
    (w : W) :
  (GetPrivateKey user = None ->
     NewClient X caDirURL user keyType w
       = (w, (None, Some (ErrorString "private key was nil")))) /\
  (forall w' c j err,
     NewClient X caDirURL user keyType w = (w', (Some (c, j), err)) ->
     err = None /\
     NewAccountURL (c_directory c) ≠ "" /\
     NewOrderURL (c_directory c) ≠ "" /\
     (forall t, is_Some (c_solvers c !! t) <-> t = HTTP01 \/ t = TLSALPN01) /\
     c_user c = Some user /\
     jws_privKey j = GetPrivateKey user /\
     GetPrivateKey user ≠ None /\
     jws_kid j = from_option reg_URI "" (GetRegistration user)).
Proof.
  unfold NewClient. split.
  - by intros ->.
  - intros w' c j err.
    destruct (GetPrivateKey user) as [key|] eqn:Hkey; [|by intros [=]].
    destruct (getJSON_directory X caDirURL w) as [w1 [dir [e|]]]; [by intros [=]|].
    destruct (String.eqb_spec (NewAccountURL dir) "") as [|Hacct]; [by intros [=]|].
    destruct (String.eqb_spec (NewOrderURL dir) "") as [|Hord]; [by intros [=]|].
    intros [= <- <- <- <-]. cbn.
    split; [done|]. split; [done|]. split; [done|]. split.
    + intros t. rewrite lookup_insert. case_decide as H1.
      * split; [by right|by eexists].
      * rewrite lookup_insert. case_decide as H2.
        -- split; [by left|by eexists].
        -- rewrite lookup_empty. split; [by intros [? [=]]|].
           intros [?|?]; congruence.
    + split; [done|]. split; [done|]. split; [done|].
      by destruct (GetRegistration user).
Qed.

End Accounts.

(** ** Challenge validation *)

Section Validation.

Context {Provider : Type} (X : @EnvX W Provider).

Lemma validateLoop_steps (fuel : nat) (j : jws) (uri : string) (hdr : Header)
    (chlng : challenge) (w w' : W) (steps steps' : list validateStep)
    (err : option error) :
  validateLoop X fuel j uri hdr chlng w steps = Some (w', steps', err) ->
  exists intervals : list Z,
    steps' = steps ++ (intervals ≫= fun d => [VSleep d; VPoll uri]).
Proof.
  revert hdr chlng w steps.
  induction fuel as [|fuel IH]; intros hdr chlng w steps; cbn [validateLoop]; [done|].
  destruct (String.eqb _ statusValid).
  { intros [= _ <- _]. exists []. by rewrite app_nil_r. }
  destruct (_ || _).
  - destruct (postAsGet_challenge X _ _ _ _) as [w1 [[resp chlng1] [e|]]].
    + intros [= _ <- _]. by exists [retryInterval hdr].
    + intros Hrun. apply IH in Hrun as (intervals & ->).
      exists (retryInterval hdr :: intervals). by rewrite <- app_assoc.
  - destruct (String.eqb _ statusInvalid);
      intros [= _ <- _]; exists []; by rewrite app_nil_r.
Qed.

Lemma validateLoop_default_interval (fuel : nat) (j : jws) (uri : string)
    (hdr : Header) (chlng : challenge) (w w' : W)
    (steps steps' : list validateStep) (err : option error) :
  (forall j uri old w resp,
      (postAsGet_challenge X j uri old w).2.1.1 = Some resp ->
      Atoi (Header_Get (resp_Header resp) "Retry-After") = None) ->
  Atoi (Header_Get hdr "Retry-After") = None ->
  validateLoop X fuel j uri hdr chlng w steps = Some (w', steps', err) ->
  exists polls : nat,
    steps' = steps ++ (replicate polls 5000000000 ≫= fun d => [VSleep d; VPoll uri]).
Proof.
  intros Hget. revert hdr chlng w steps.
  induction fuel as [|fuel IH]; intros hdr chlng w steps Hhdr; cbn [validateLoop];
    [done|].
  assert (Hint : retryInterval hdr = 5000000000).
  { unfold retryInterval. by rewrite Hhdr. }
  destruct (String.eqb _ statusValid).
  { intros [= _ <- _]. exists 0%nat. by rewrite app_nil_r. }
  destruct (_ || _).
  - rewrite Hint. specialize (Hget j uri chlng (sleep X 5000000000 w)).
    destruct (postAsGet_challenge X _ _ _ _) as [w1 [[resp chlng1] [e|]]].
    + intros [= _ <- _]. by exists 1%nat.
    + intros Hrun. apply IH in Hrun as (polls & ->).
      * exists (S polls). by rewrite <- app_assoc.
      * destruct resp as [resp|]; [by apply Hget|done].
  - destruct (String.eqb _ statusInvalid);
      intros [= _ <- _]; exists 0%nat; by rewrite app_nil_r.
Qed.

(** X29: [validate] starts with one POST to the challenge URL and then
    alternates sleeping and polling that URL: every poll is preceded by a
    sleep.  When neither the POST's answer nor any poll's answer carries a
    [Retry-After] header that reads as an integer, every sleep lasts
    5 seconds. *)
Theorem validate_sleeps_before_every_poll (fuel : nat) (j : jws)
    (domain uri : string) (c : challenge) (w w' : W)
    (steps : list validateStep) (err : option error) :
  validate X fuel j domain uri c w = Some (w', steps, err) ->
  (exists intervals : list Z,
      steps = VPost uri :: (intervals ≫= fun d => [VSleep d; VPoll uri])) /\
  ((forall j uri old w,
       Atoi (Header_Get (postJSON_challenge X j uri old w).2.1.1 "Retry-After")
         = None) ->
   (forall j uri old w resp,
       (postAsGet_challenge X j uri old w).2.1.1 = Some resp ->
       Atoi (Header_Get (resp_Header resp) "Retry-After") = None) ->
   exists polls : nat,
     steps = VPost uri ::
             (replicate polls 5000000000 ≫= fun d => [VSleep d; VPoll uri])).
Proof.
  unfold validate. intros Hrun. split.
  - destruct (postJSON_challenge X _ _ _ _) as [w1 [[hdr chlng] [e|]]].
    + injection Hrun as _ <- _. by exists [].
    + apply validateLoop_steps in Hrun as (intervals & ->). by exists intervals.
  - intros Hpost Hget. specialize (Hpost j uri zeroChallenge w).
    destruct (postJSON_challenge X _ _ _ _) as [w1 [[hdr chlng] [e|]]].
    + injection Hrun as _ <- _. by exists 0%nat.
    + eapply validateLoop_default_interval in Hrun as (polls & ->); [|done|done].
      by exists polls.
Qed.

Lemma validateLoop_success (fuel : nat) (j : jws) (uri : string) (hdr : Header)
    (chlng : challenge) (w w' : W) (steps steps' : list validateStep) :
  (forall j uri old w,
      ch_Status (postAsGet_challenge X j uri old w).2.1.2 ≠ statusValid) ->
  validateLoop X fuel j uri hdr chlng w steps = Some (w', steps', None) ->
  ch_Status chlng = statusValid /\ steps' = steps /\ w' = w.
Proof.
  intros Hget. revert hdr chlng w steps.
  induction fuel as [|fuel IH]; intros hdr chlng w steps; cbn [validateLoop]; [done|].
  destruct (String.eqb_spec (ch_Status chlng) statusValid) as [Hv|_].
  { by intros [= <- <-]. }
  destruct (_ || _).
  - specialize (Hget j uri chlng (sleep X (retryInterval hdr) w)).
    destruct (postAsGet_challenge X _ _ _ _) as [w1 [[resp chlng1] [e|]]]; [done|].
    intros Hrun. apply IH in Hrun as [Hv _]. by cbn in Hget.
  - by destruct (String.eqb _ statusInvalid).
Qed.

(** X30: [validate] reports success only on the CA's word: if no poll is
    ever answered with the status [valid], a nil error is returned only
    when the answer to the initial POST already had that status, and then
    without any sleep or poll; and an [invalid] answer to the POST returns
    [handleChallengeError] of it at once. *)
Theorem validate_succeeds_only_on_valid (fuel : nat) (j : jws)
    (domain uri : string) (c : challenge) (w : W) :
  (forall j uri old w,
      ch_Status (postAsGet_challenge X j uri old w).2.1.2 ≠ statusValid) ->
  (forall w' steps,
      validate X fuel j domain uri c w = Some (w', steps, None) ->
      ch_Status (postJSON_challenge X j uri zeroChallenge w).2.1.2 = statusValid /\
      steps = [VPost uri]) /\
  ((postJSON_challenge X j uri zeroChallenge w).2.2 = None ->
   ch_Status (postJSON_challenge X j uri zeroChallenge w).2.1.2 = statusInvalid ->
   validate X (S fuel) j domain uri c w =
     Some ((postJSON_challenge X j uri zeroChallenge w).1, [VPost uri],
           Some (handleChallengeError X
                   (postJSON_challenge X j uri zeroChallenge w).2.1.2))).
Proof.
  intros Hget. unfold validate.
  destruct (postJSON_challenge X _ _ _ _) as [w1 [[hdr chlng] err]]. cbn [fst snd].
  split.
  - intros w' steps Hrun. destruct err as [e|]; [done|].
    by apply validateLoop_success in Hrun as (? & -> & _).
  - intros -> Hinv. cbn [validateLoop]. rewrite Hinv. reflexivity.
Qed.

End Validation.

End Properties.

(** * Concrete runs *)

(** C1: one pending authorization for [a.com], solved by a solver with the
    pre-solve and cleanup capabilities whose [Solve] fails.  The coordinator
    calls [PreSolve], then [Solve], and returns the failure; [CleanUp] is not
    called, because the deferred function skips every domain that has an
    entry in [failures], and the solve pass has just entered this one. *)
Theorem cleanup_skipped_after_failed_solve :
  solveChallengeForAuthz (Mock.client (Some (ErrorString "boom")))
                         [Mock.authz_for "a.com" "pending"] Mock.s0
  = Some ({| world := 2%nat; st_jws := st_jws Mock.s0;
             trace := [EvPreSolve (Mock.dns01 "pending") "a.com";
                       EvSolve (Mock.dns01 "pending") "a.com"] |},
          Some (ObtainError {[ "a.com" := ErrorString "boom" ]})).
Proof. vm_compute. reflexivity. Qed.

(** The same authorization with a [Solve] that succeeds: [CleanUp] is
    called after the solve pass. *)
Lemma cleanup_after_successful_solve :
  solveChallengeForAuthz (Mock.client None)
                         [Mock.authz_for "a.com" "pending"] Mock.s0
  = Some ({| world := 3%nat; st_jws := st_jws Mock.s0;
             trace := [EvPreSolve (Mock.dns01 "pending") "a.com";
                       EvSolve (Mock.dns01 "pending") "a.com";
                       EvCleanUp (Mock.dns01 "pending") "a.com"] |},
          None).
Proof. vm_compute. reflexivity. Qed.

(** The finalize request answered with [invalid]: no certificate and a nil
    error. *)
Lemma finalize_invalid_returns_nil_error_witness :
  exists s',
    requestCertificateForCsr Mock.invalidCA (Mock.client None) Mock.order_ab
                             false [] None Mock.s0
      = Some (s', (None, None)) /\
    trace s' = trace Mock.s0 ++
               [EvPostJSON "https://ca/finalize/1" (PCsr {| Csr := "" |})].
Proof.
  apply (finalize_invalid_returns_nil_error Mock.invalidCA (Mock.client None)
           Mock.order_ab false [] None "a.com" ["b.com"] Mock.s0 1%nat ∅
           (Mock.order_reply "invalid")); reflexivity.
Defined.


(** C4, as stated, fails: for a certificate with common name [a.com] whose
    only DNS name is [b.com], the renewal is the issuance over [a.com]
    alone, not over [a.com], [b.com]. *)
Lemma renew_drops_single_foreign_san :
  renewDomains Mock.foreignSan = ["a.com"] /\
  renewDomains Mock.foreignSan ≠
    x_CommonName Mock.foreignSan ::
      filter (fun d => d ≠ x_CommonName Mock.foreignSan) (x_DNSNames Mock.foreignSan) /\
  RenewCertificate Mock.renewCA (Mock.client None) Mock.oldCert false false Mock.s0
    = ObtainCertificate Mock.renewCA (Mock.client None) ["a.com"] false None false Mock.s0 /\
  RenewCertificate Mock.renewCA (Mock.client None) Mock.oldCert false false Mock.s0
    ≠ ObtainCertificate Mock.renewCA (Mock.client None) ["a.com"; "b.com"]
                        false None false Mock.s0.
Proof.
  split; [reflexivity|]. split; [by vm_compute|].
  split; [reflexivity|]. vm_compute. intros [=].
Qed.

(** The renewal of the certificate above is the issuance for [a.com]. *)
Lemma RenewCertificate_rederives_domains_witness :
  RenewCertificate Mock.renewCA (Mock.client None) Mock.oldCert false false Mock.s0
  = ObtainCertificate Mock.renewCA (Mock.client None) ["a.com"] false None false Mock.s0.
Proof.
  apply (RenewCertificate_rederives_domains Mock.renewCA (Mock.client None)
           Mock.oldCert false false Mock.foreignSan [] None Mock.s0);
    reflexivity.
Defined.

(** Registering a key the CA already knows adopts the account at the
    [Location] the CA names. *)
Lemma Register_conflict_adopts_existing_witness :
  exists s',
    Register Mock.conflictCA (Some (Mock.client None)) true Mock.s0
      = Some (s', (Some {| reg_Body := zeroAccountMessage;
                           reg_URI := "https://ca/acct/7" |}, None)) /\
    world s' = 1%nat /\
    jws_kid (st_jws s') = "https://ca/acct/7".
Proof.
  apply (Register_conflict_adopts_existing Mock.conflictCA (Mock.client None)
           Mock.user true Mock.s0 1%nat (Mock.located "https://ca/acct/7")
           zeroAccountMessage
           (RemoteError 409 "urn:ietf:params:acme:error:malformed"
                        "Registration key is already in use"));
    reflexivity.
Defined.

(** Against the CA that keeps answering [processing], the finalizer polls
    twice and then times out. *)
Lemma finalize_poll_times_out_witness :
  exists s',
    requestCertificateForCsr Mock.processingCA (Mock.client None) Mock.order_ab
                             false [] None Mock.s0
      = Some (s', (None, Some (ErrorString "certificate polling timed out"))).
Proof.
  apply (finalize_poll_times_out Mock.processingCA (Mock.client None)
           Mock.order_ab false [] None "a.com" ["b.com"] Mock.s0 1%nat ∅
           (Mock.order_reply "processing")).
  - reflexivity.
  - reflexivity.
  - split; vm_compute; intros [=].
  - intros j url old w. exists (S w), (Mock.order_reply "processing").
    split; [reflexivity|]. split; vm_compute; intros [=].
  - vm_compute. right. right. left.
Defined.

(** The order created for [a.com], [b.com] names [a.com] as common name. *)

(** With [a.com] already valid and [b.com] pending, the coordinator only
    works on [b.com]. *)
Lemma valid_authorization_is_skipped_witness :
  solveChallengeForAuthz (Mock.client None)
    [Mock.authz_for "a.com" "valid"; Mock.authz_for "b.com" "pending"] Mock.s0
  = solveChallengeForAuthz (Mock.client None)
      [Mock.authz_for "b.com" "pending"] Mock.s0 /\
  exists new,
    new = [EvPreSolve (Mock.dns01 "pending") "b.com";
           EvSolve (Mock.dns01 "pending") "b.com";
           EvCleanUp (Mock.dns01 "pending") "b.com"] /\
    solverCallsFor "a.com" new = 0%nat.
Proof.
  destruct (valid_authorization_is_skipped (Mock.client None) []
              [Mock.authz_for "b.com" "pending"] (Mock.authz_for "a.com" "valid")
              Mock.s0 eq_refl) as [Hsame Hquiet].
  split; [exact Hsame|].
  edestruct Hquiet as (new & Htrace & Hcalls & _).
  - intros b Hb Hd. apply list_elem_of_singleton in Hb as ->. discriminate Hd.
  - vm_compute. reflexivity.
  - exists new. split; [|exact Hcalls].
    cbn in Htrace. symmetry. exact Htrace.
Defined.


(** * Further concrete runs *)

(** The successful run for [a.com]: pre-solve, solve, cleanup, in that
    order. *)
Lemma solver_calls_in_phase_order_witness :
  exists pre sol cl,
    [EvPreSolve (Mock.dns01 "pending") "a.com";
     EvSolve (Mock.dns01 "pending") "a.com";
     EvCleanUp (Mock.dns01 "pending") "a.com"] = pre ++ sol ++ cl /\
    Forall isPreSolve pre /\ Forall isSolve sol /\ Forall isCleanUp cl.
Proof.
  edestruct (solver_calls_in_phase_order (Mock.client None)
               [Mock.authz_for "a.com" "pending"] Mock.s0)
    as (pre & sol & cl & Htr & Hpre & Hsol & Hcl); [vm_compute; reflexivity|].
  exists pre, sol, cl. split; [exact Htr|]. by repeat split.
Defined.

Lemma solver_calls_are_for_pending_authorizations_witness :
  Forall (solverCallFor (Mock.client None) [Mock.authz_for "a.com" "pending"])
    [EvPreSolve (Mock.dns01 "pending") "a.com";
     EvSolve (Mock.dns01 "pending") "a.com";
     EvCleanUp (Mock.dns01 "pending") "a.com"].
Proof.
  edestruct (solver_calls_are_for_pending_authorizations (Mock.client None)
               [Mock.authz_for "a.com" "pending"] Mock.s0)
    as (new & Htr & Hall); [vm_compute; reflexivity|].
  replace [EvPreSolve (Mock.dns01 "pending") "a.com";
           EvSolve (Mock.dns01 "pending") "a.com";
           EvCleanUp (Mock.dns01 "pending") "a.com"] with new
    by (symmetry; exact Htr).
  exact Hall.
Defined.

(** An authorization that only offers [http-01] to a client that only has
    a [dns-01] solver. *)
Lemma unsolvable_authorization_is_reported_witness :
  exists failures new,
    Some (ObtainError {[ "a.com" :=
            ErrorString "[a.com] acme: Could not determine solvers" ]})
      = Some (ObtainError failures) /\
    is_Some (failures !! "a.com") /\
    [] = [] ++ new /\
    forall ch, (EvSolve ch "a.com" ∉ new) /\ (EvCleanUp ch "a.com" ∉ new).
Proof.
  eapply (unsolvable_authorization_is_reported (Mock.client None)
            [Scenario.http_only "a.com"] (Scenario.http_only "a.com") 0 Mock.s0
            {| world := 0%nat; st_jws := st_jws Mock.s0; trace := [] |}).
  - by left.
  - vm_compute. intros [=].
  - vm_compute. reflexivity.
  - vm_compute. reflexivity.
Defined.

(** A [dns-01] solver whose [PreSolve] fails: neither [Solve] nor
    [CleanUp] follows. *)
Lemma failed_presolve_is_not_solved_witness :
  exists failures new,
    Some (ObtainError {[ "a.com" := ErrorString "no zone" ]})
      = Some (ObtainError failures) /\
    is_Some (failures !! "a.com") /\
    [EvPreSolve (Mock.dns01 "pending") "a.com"] = [] ++ new /\
    forall ch, (EvSolve ch "a.com" ∉ new) /\ (EvCleanUp ch "a.com" ∉ new).
Proof.
  eapply (failed_presolve_is_not_solved Scenario.brokenClient
            [Mock.authz_for "a.com" "pending"] (Mock.authz_for "a.com" "pending")
            0 Scenario.brokenDns Scenario.failingPreSolve Mock.s0
            {| world := 1%nat; st_jws := st_jws Mock.s0;
               trace := [EvPreSolve (Mock.dns01 "pending") "a.com"] |}).
  - by left.
  - vm_compute. intros [=].
  - vm_compute. reflexivity.
  - reflexivity.
  - intros ch w. cbn. discriminate.
  - vm_compute. reflexivity.
Defined.

Lemma successful_run_calls_every_solver_witness :
  sas_authz <$> selected (Mock.client None)
                  [Mock.authz_for "a.com" "valid"; Mock.authz_for "b.com" "pending"]
    = [Mock.authz_for "b.com" "pending"].
Proof.
  edestruct (successful_run_calls_every_solver (Mock.client None)
               [Mock.authz_for "a.com" "valid"; Mock.authz_for "b.com" "pending"]
               Mock.s0) as [Hsel _]; [vm_compute; reflexivity|].
  rewrite Hsel. vm_compute. reflexivity.
Defined.

Lemma getAuthzForOrder_one_request_per_url_witness :
  exists s' r,
    getAuthzForOrder Mock.processingCA (Mock.client None) Mock.order_ab Mock.s0
      = Some (s', r) /\
    trace s' = [EvPostAsGet "a.com"; EvPostAsGet "b.com"].
Proof.
  do 2 eexists. split; [vm_compute; reflexivity|].
  eapply (getAuthzForOrder_one_request_per_url Mock.processingCA (Mock.client None)
            Mock.order_ab Mock.s0).
  vm_compute. reflexivity.
Defined.

Lemma getAuthzForOrder_nil_error_iff_complete_witness :
  (2 <= 2)%nat /\ ((None : option opError) = None <-> 2%nat = 2%nat).
Proof.
  eapply (getAuthzForOrder_nil_error_iff_complete Mock.processingCA (Mock.client None)
            Mock.order_ab Mock.s0 _
            [Mock.authz_for "a.com" "pending"; Mock.authz_for "b.com" "pending"] None).
  - intros completions. reflexivity.
  - vm_compute. reflexivity.
Defined.

(** A complete issuance against the CA that answers [valid]. *)
Lemma certificate_only_without_error_witness :
  exists s' cr,
    ObtainCertificate Scenario.validCA (Mock.client None) ["a.com"; "b.com"]
                      false None false Mock.s0 = Some (s', (Some cr, None)).
Proof.
  assert (Hrun : exists s' cr err,
    ObtainCertificate Scenario.validCA (Mock.client None) ["a.com"; "b.com"]
                      false None false Mock.s0 = Some (s', (Some cr, err))).
  { do 3 eexists. vm_compute. reflexivity. }
  destruct Hrun as (s' & cr & err & Hrun).
  exists s', cr.
  by rewrite (proj1 (certificate_only_without_error Scenario.validCA (Mock.client None))
                _ _ _ _ _ _ _ _ Hrun) in Hrun.
Defined.

Lemma ObtainCertificateForCSR_resource_witness :
  exists cr,
    cr_Domain cr = "a.com" /\
    cr_CSR cr = pemEncodeCSR Scenario.validCA Scenario.csr_ab /\
    cr_PrivateKey cr = None.
Proof.
  eexists.
  eapply (ObtainCertificateForCSR_resource Scenario.validCA (Mock.client None)
            Scenario.csr_ab false Mock.s0).
  vm_compute. reflexivity.
Defined.



(** The deadline is received after two ticks while the CA keeps answering
    [processing]: the request fails for both authorizations. *)
Lemma failed_request_is_reported_per_authorization_witness :
  exists s' failures e,
    ObtainCertificate Mock.processingCA (Mock.client None) ["a.com"; "b.com"]
                      false None false Mock.s0
      = Some (s', (None, Some (ObtainError failures))) /\
    failures !! "a.com" = Some e /\ failures !! "b.com" = Some e /\
    failures !! "c.com" = None.
Proof.
  edestruct (failed_request_is_reported_per_authorization Mock.processingCA
               (Mock.client None) ["a.com"; "b.com"] false None false Mock.s0)
    as (err & Hrun & _ & Hfail);
    [done | vm_compute; reflexivity | vm_compute; reflexivity
     | vm_compute; reflexivity | vm_compute; reflexivity |].
  destruct Hfail as (failures & -> & Hlookup); [done|].
  do 3 eexists. split; [exact Hrun|].
  rewrite !Hlookup. by repeat split.
Defined.

Lemma requestCertificateForOrder_csr_names_witness :
  exists t' r new,
    requestCertificateForOrder Scenario.validCA (Mock.client None) Mock.order_ab
                               false None false Mock.s0 = Some (t', r) /\
    trace t' = new /\
    forall (cn : string) (san : list string) (ms : bool),
      EvGenerateCsr cn san ms ∈ new ->
      cn = "a.com" /\ ms = false /\ san = ["a.com"; "b.com"].
Proof.
  assert (Hrun : exists t' r,
    requestCertificateForOrder Scenario.validCA (Mock.client None) Mock.order_ab
                               false None false Mock.s0 = Some (t', r))
    by (do 2 eexists; vm_compute; reflexivity).
  destruct Hrun as (t' & r & Hrun).
  destruct (requestCertificateForOrder_csr_names Scenario.validCA (Mock.client None)
              Mock.order_ab false None false "a.com" ["b.com"] Mock.s0 t' r
              eq_refl Hrun) as (new & Htr & Hall).
  exists t', r, new. split; [exact Hrun|]. split; [exact Htr|]. exact Hall.
Defined.

Lemma renewDomains_round_trip_witness :
  renewDomains Scenario.cert_ab = ["a.com"; "b.com"].
Proof.
  apply (proj2 (renewDomains_round_trip Scenario.cert_ab) ["b.com"]);
    [reflexivity|].
  intros Hin. apply list_elem_of_singleton in Hin. discriminate.
Defined.

Lemma issued_certificate_survives_issuer_failure_witness :
  exists s' cr,
    checkCertResponse Scenario.validCA (Mock.order_reply "valid") Mock.oldCert true
                      Mock.s0 = Some (s', (true, None, cr)) /\
    cr_CertURL cr = "https://ca/cert/1".
Proof.
  edestruct (issued_certificate_survives_issuer_failure Scenario.validCA
               (Mock.order_reply "valid") Mock.oldCert true Mock.s0)
    as (s' & cr & issuer & more & Hrun & _ & _ & _ & _ & Hurl & _);
    [reflexivity | vm_compute; reflexivity | reflexivity | reflexivity |].
  exists s', cr. split; [exact Hrun | exact Hurl].
Defined.

Lemma valid_finalize_needs_no_poll_witness :
  exists s' cr,
    requestCertificateForCsr Scenario.validCA (Mock.client None) Mock.order_ab
                             false [] None Mock.s0 = Some (s', (Some cr, None)) /\
    cr_Domain cr = "a.com".
Proof.
  edestruct (valid_finalize_needs_no_poll Scenario.validCA (Mock.client None)
               Mock.order_ab false [] None "a.com" ["b.com"] Mock.s0)
    as (s' & cr & Hrun & Hdom & _);
    [reflexivity | vm_compute; reflexivity | reflexivity
     | vm_compute; reflexivity | reflexivity | reflexivity |].
  exists s', cr. split; [exact Hrun | exact Hdom].
Defined.

(** Two ticks before the deadline: at most four requests. *)
Lemma pollLoop_requests_bounded_by_ticks_witness :
  exists s' r new,
    pollLoop Mock.processingCA Mock.order_ab (Mock.order_reply "processing")
             Mock.oldCert false [RetryTick; RetryTick; StopTimer] Mock.s0
      = Some (s', r) /\
    trace s' = new /\ Forall isRequest new /\ (length new <= 4)%nat.
Proof.
  assert (Hrun : exists s' r,
    pollLoop Mock.processingCA Mock.order_ab (Mock.order_reply "processing")
             Mock.oldCert false [RetryTick; RetryTick; StopTimer] Mock.s0
      = Some (s', r)) by (do 2 eexists; vm_compute; reflexivity).
  destruct Hrun as (s' & r & Hrun).
  destruct (pollLoop_requests_bounded_by_ticks Mock.processingCA _ _ _ _ _ _ _ _ Hrun)
    as (new & Htr & Hreq & Hlen).
  exists s', r, new. split; [exact Hrun|]. split; [exact Htr|].
  split; [exact Hreq | exact Hlen].
Defined.

(** ** Accounts and configuration *)

Lemma chooseSolver_first_match_witness :
  exists ch,
    authz_Challenges (Scenario.http_then_dns "a.com") !! 1%nat = Some ch /\
    c_solvers (Mock.client None) !! ch_Type ch = Some (Mock.dnsSolver None) /\
    forall (j : nat) ch', (j < 1)%nat ->
      authz_Challenges (Scenario.http_then_dns "a.com") !! j = Some ch' ->
      c_solvers (Mock.client None) !! ch_Type ch' = None.
Proof.
  exact (chooseSolver_first_match (Mock.client None)
           (Scenario.http_then_dns "a.com") "a.com").
Defined.

Lemma ResolveAccountByKey_adopts_location_witness :
  exists s',
    ResolveAccountByKey Mock.processingCA (Scenario.envX true) (Mock.client None)
                        Mock.s0
      = Some (s', (Some {| reg_Body := zeroAccountMessage;
                           reg_URI := "https://ca/acct/7" |}, None)) /\
    jws_kid (st_jws s') = "https://ca/acct/7".
Proof.
  edestruct (ResolveAccountByKey_adopts_location Mock.processingCA
               (Scenario.envX true) (Mock.client None) Mock.s0)
    as (s' & Hrun & Hkid & _);
    [vm_compute; reflexivity | vm_compute; reflexivity | discriminate
     | vm_compute; reflexivity |].
  exists s'. split; [exact Hrun | exact Hkid].
Defined.

Lemma ResolveAccountByKey_without_location_witness :
  exists s',
    ResolveAccountByKey Mock.processingCA (Scenario.envX false) (Mock.client None)
                        Mock.s0
      = Some (s', (None, Some (Plain (ErrorString
                     "Server did not return the account link")))) /\
    st_jws s' = st_jws Mock.s0.
Proof.
  edestruct (ResolveAccountByKey_without_location Mock.processingCA
               (Scenario.envX false) (Mock.client None) Mock.s0)
    as (s' & Hrun & Hjws & _);
    [vm_compute; reflexivity | vm_compute; reflexivity |].
  exists s'. split; [exact Hrun | exact Hjws].
Defined.

(** A user that never registered. *)
Lemma registration_is_dereferenced_unchecked_witness :
  QueryRegistration Mock.processingCA (Some (Mock.client None)) Mock.s0 = None /\
  DeleteRegistration (Scenario.envX true) (Some (Mock.client None)) Mock.s0 = None.
Proof.
  apply (proj1 (registration_is_dereferenced_unchecked Mock.processingCA
                  (Scenario.envX true) (Mock.client None) Mock.user Mock.s0
                  eq_refl)).
  reflexivity.
Defined.

Lemma external_binding_failure_sends_nothing_witness :
  RegisterWithExternalAccountBinding Mock.processingCA (Scenario.envX true)
    (Some (Mock.client None)) true "kid" "" Mock.s0
  = Some (Mock.s0,
          (None, Some (Plain (ErrorString
             "acme: could not decode hmac key: illegal base64 data")))).
Proof.
  assert (Hrun : exists s' r,
    RegisterWithExternalAccountBinding Mock.processingCA (Scenario.envX true)
      (Some (Mock.client None)) true "kid" "" Mock.s0 = Some (s', r))
    by (do 2 eexists; vm_compute; reflexivity).
  destruct Hrun as (s' & r & Hrun).
  destruct (external_binding_failure_sends_nothing Mock.processingCA
              (Scenario.envX true) (Mock.client None) Mock.user true "kid" ""
              Mock.s0 s' r eq_refl Hrun) as [Hdecode _].
  destruct (Hdecode _ eq_refl) as [Hs Hr].
  rewrite Hs, Hr in Hrun. exact Hrun.
Defined.

Lemma external_binding_conflict_adopts_existing_witness :
  exists s',
    RegisterWithExternalAccountBinding Mock.conflictCA
      (Scenario.envXwith true ("eab", None) "pending")
      (Some (Mock.client None)) true "kid" "aGk" Mock.s0
    = Some (s', (Some {| reg_Body := zeroAccountMessage;
                         reg_URI := "https://ca/acct/7" |}, None)) /\
    jws_kid (st_jws s') = "https://ca/acct/7".
Proof.
  edestruct (external_binding_conflict_adopts_existing Mock.conflictCA
               (Scenario.envXwith true ("eab", None) "pending")
               (Mock.client None) Mock.user true "kid" "aGk" Mock.s0)
    as (s' & Hrun & _ & Hkid);
    [reflexivity | vm_compute; reflexivity | vm_compute; reflexivity
     | vm_compute; reflexivity |].
  exists s'. split; [exact Hrun | exact Hkid].
Defined.

Lemma ca_certificate_is_rejected_offline_witness :
  RevokeCertificate Scenario.caBundleCA (Scenario.envX true) (Mock.client None)
                    [] Mock.s0
    = Some (Mock.s0,
            Some (ErrorString "Certificate bundle starts with a CA certificate")) /\
  RenewCertificate Scenario.caBundleCA (Mock.client None) Mock.oldCert false false
                   Mock.s0
    = Some (Mock.s0,
            (None, Some (Plain (ErrorString
               "[a.com] Certificate bundle starts with a CA certificate")))).
Proof.
  exact (ca_certificate_is_rejected_offline Scenario.caBundleCA (Scenario.envX true)
           (Mock.client None) Mock.oldCert false false Scenario.caCert [] Mock.s0
           eq_refl eq_refl).
Defined.

Lemma ExcludeChallenges_removes_solvers_witness :
  c_solvers (ExcludeChallenges (Mock.client None) ["dns-01"]) !! "dns-01" = None.
Proof.
  rewrite (proj1 (ExcludeChallenges_removes_solvers (Mock.client None) ["dns-01"]
                    (Mock.authz_for "a.com" "pending") "a.com")).
  reflexivity.
Defined.

Lemma NewClient_invariants_witness :
  exists c j,
    NewClient (Scenario.envX true) "https://ca/dir" Mock.user "EC256" 0%nat
      = (1%nat, (Some (c, j), None)) /\
    c_user c = Some Mock.user /\ jws_kid j = "" /\
    is_Some (c_solvers c !! HTTP01) /\ c_solvers c !! DNS01 = None.
Proof.
  assert (Hrun : exists c j,
    NewClient (Scenario.envX true) "https://ca/dir" Mock.user "EC256" 0%nat
      = (1%nat, (Some (c, j), None))) by (do 2 eexists; vm_compute; reflexivity).
  destruct Hrun as (c & j & Hrun).
  destruct (proj2 (NewClient_invariants (Scenario.envX true) "https://ca/dir"
                     Mock.user "EC256" 0%nat) _ _ _ _ Hrun)
    as (_ & _ & _ & Hsolvers & Huser & _ & _ & Hkid).
  exists c, j. split; [exact Hrun|]. split; [exact Huser|]. split; [exact Hkid|].
  split.
  - apply Hsolvers. by left.
  - apply eq_None_not_Some. rewrite Hsolvers. by intros [?|?].
Defined.

(** ** Challenge validation *)

(** The challenge is [pending] on the POST and on the first poll, then
    [invalid]: two polls, each after the default interval. *)
Lemma validate_sleeps_before_every_poll_witness :
  exists polls : nat,
    [VPost "https://ca/chall/1";
     VSleep 5000000000; VPoll "https://ca/chall/1";
     VSleep 5000000000; VPoll "https://ca/chall/1"]
    = VPost "https://ca/chall/1" ::
      (replicate polls 5000000000 ≫= fun d => [VSleep d; VPoll "https://ca/chall/1"]).
Proof.
  eapply (validate_sleeps_before_every_poll (Scenario.envX true) 5
            (st_jws Mock.s0) "a.com" "https://ca/chall/1" Scenario.pendingChallenge
            0%nat 3%nat _ (Some (ErrorString "challenge failed"))).
  - vm_compute. reflexivity.
  - intros j uri old w. reflexivity.
  - intros j uri old w resp Hresp. discriminate Hresp.
Defined.

(** A challenge that the CA declares [valid], and one that it declares
    [invalid], in answer to the POST. *)
Lemma validate_succeeds_only_on_valid_witness :
  (forall w' steps,
     validate (Scenario.envXwith true ("", None) "valid") 5 (st_jws Mock.s0) "a.com"
              "https://ca/chall/1" Scenario.pendingChallenge 0%nat
       = Some (w', steps, None) ->
     steps = [VPost "https://ca/chall/1"]) /\
  validate (Scenario.envXwith true ("", None) "invalid") 1 (st_jws Mock.s0) "a.com"
           "https://ca/chall/1" Scenario.pendingChallenge 0%nat
    = Some (1%nat, [VPost "https://ca/chall/1"],
            Some (ErrorString "challenge failed")).
Proof.
  assert (Hpoll : forall posted (j : jws) (uri : string) (old : challenge) (w : nat),
    ch_Status (postAsGet_challenge (Scenario.envXwith true ("", None) posted)
                 j uri old w).2.1.2 ≠ statusValid).
  { intros posted j uri old [|[|w]]; cbn; intros Heq; discriminate Heq. }
  split.
  - intros w' steps Hrun.
    apply (proj1 (validate_succeeds_only_on_valid
                    (Scenario.envXwith true ("", None) "valid") 5 (st_jws Mock.s0)
                    "a.com" "https://ca/chall/1" Scenario.pendingChallenge 0%nat
                    (Hpoll "valid")) w' steps Hrun).
  - apply (proj2 (validate_succeeds_only_on_valid
                    (Scenario.envXwith true ("", None) "invalid") 0 (st_jws Mock.s0)
                    "a.com" "https://ca/chall/1" Scenario.pendingChallenge 0%nat
                    (Hpoll "invalid"))); reflexivity.
Defined.

(** ** Aggregation and the certificate request *)

(** The error of the run in which [Solve] answers "boom" for [a.com] is
    the aggregate of that one failure. *)
Lemma ObtainError_is_never_empty_witness :
  exists failures : gmap string error,
    is_Some (failures !! "a.com") /\
    returnsFailures failures
      (Some (ObtainError {[ "a.com" := ErrorString "boom" ]})).
Proof.
  destruct (ObtainError_is_never_empty Mock.processingCA
              (Mock.client (Some (ErrorString "boom"))))
    as (_ & _ & _ & _ & _ & _ & Hsolve & _).
  edestruct (Hsolve [Mock.authz_for "a.com" "pending"] Mock.s0)
    as (_ & failures & _ & Hcomplete & Hret); [vm_compute; reflexivity|].
  exists failures. split; [|exact Hret].
  apply (Hcomplete "a.com" (ErrorString "boom")).
  eapply (SolveFailed _ _ _ [] []
            {| sas_authz := Mock.authz_for "a.com" "pending";
               sas_challengeIndex := 0;
               sas_solver := Mock.dnsSolver (Some (ErrorString "boom")) |});
    vm_compute; reflexivity.
Defined.

(** The order for [a.com], [b.com] at the CA that answers [valid]: the CSR
    is generated for [a.com] and posted to the finalize URL. *)
Lemma created_order_preserves_domains_witness :
  or_Domains Mock.order_ab = ["a.com"; "b.com"] /\
  exists t' cr more,
    requestCertificateForOrder Scenario.validCA (Mock.client None) Mock.order_ab
                               false None false Mock.s0
      = Some (t', (Some cr, None)) /\
    cr_Domain cr = "a.com" /\
    trace t' = EvGenerateCsr "a.com" ["a.com"; "b.com"] false ::
               EvPostJSON "https://ca/finalize/1" (PCsr {| Csr := "" |}) :: more.
Proof.
  destruct (created_order_preserves_domains Scenario.validCA (Mock.client None)
              "a.com" ["b.com"] Mock.s0
              {| world := 1%nat; st_jws := st_jws Mock.s0;
                 trace := [EvPostJSON "https://ca/order"
                             (POrder {| om_Status := "";
                                        om_Identifiers :=
                                          om_Identifiers (or_msg Mock.order_ab);
                                        om_Authorizations := [];
                                        om_Finalize := ""; om_Certificate := "" |})] |}
              Mock.order_ab)
    as (Hdom & _ & Hsteps & Hposts).
  - apply (bool_decide_unpack _). vm_compute. exact I.
  - vm_compute. reflexivity.
  - split; [exact Hdom|].
    assert (Hfin : exists t' cr,
      requestCertificateForCsr Scenario.validCA (Mock.client None) Mock.order_ab
        false [] (Some [])
        {| world := 2%nat; st_jws := st_jws Mock.s0;
           trace := [EvGenerateCsr "a.com" ["a.com"; "b.com"] false] |}
      = Some (t', (Some cr, None))) by (do 2 eexists; vm_compute; reflexivity).
    destruct Hfin as (t' & cr & Hfin).
    destruct (Hposts _ _ _ _ _ _ _ Hfin) as [(more & Htr) Hcr].
    exists t', cr, more. split; [|split; [by apply Hcr|exact Htr]].
    rewrite (Hsteps false None false Mock.s0 (Some []) 1%nat 2%nat [] None);
      [exact Hfin|vm_compute; reflexivity|vm_compute; reflexivity].
Defined.

(** Without a caller's key, the resource holds the generated key. *)
Lemma ObtainCertificate_resource_witness :
  exists cr key (w0 w1 : nat),
    cr_Domain cr = "a.com" /\
    cr_PrivateKey cr = Some (pemEncodeKey Scenario.validCA key) /\
    generatePrivateKey Scenario.validCA "EC256" w0 = (w1, (key, None)).
Proof.
  assert (Hrun : exists s' cr err,
    ObtainCertificate Scenario.validCA (Mock.client None) ["a.com"; "b.com"]
                      false None false Mock.s0 = Some (s', (Some cr, err)))
    by (do 3 eexists; vm_compute; reflexivity).
  destruct Hrun as (s' & cr & err & Hrun).
  destruct (ObtainCertificate_resource _ _ _ _ _ _ _ _ _ _ _ Hrun)
    as (Hd & _ & key & Hk & _ & w0 & w1 & w2 & san & csr & url & before & after
        & Hkey & _).
  exists cr, key, w0, w1. split; [exact Hd|]. split; [exact Hk|exact Hkey].
Defined.
